(** * glyphsLib builder: a shallow embedding of [third_party/glyphsLib/builder.py]

    The builder turns parsed .glyphs data (nested dictionaries and lists)
    into one UFO font object per master.  This file embeds the functions of
    [builder.py]: the style-name resolver, the redundant-metadata and
    custom-parameter setters, the blue-value computation, the outline
    transcriber, the glyph loader, the kerning loader, the generation of the
    base fonts and the translation [to_ufos] of a whole document, and proves
    properties of them.

    Conventions of the embedding.
    - Python strings are [string]s (byte sequences, UTF-8 for non-ASCII text).
    - Python numbers are integers [Z].
    - A [dict] whose iteration order is observable is an association list in
      iteration order (insertion order); a [dict] that is only looked up,
      assigned and deleted from is a [gmap].
    - An exception is a value of [exn]; code that mutates an object and may
      raise runs in the monad [M S], which keeps the state reached when the
      exception was raised, as Python keeps the mutations made so far.
    - The source data is consumed destructively ([dict.pop]).  Every key is
      read at most once per call, so the embedding reads fields and does not
      thread the residual input, except where the residue is returned.
    - The font objects are [defcon]'s.  Which attributes its info object has
      and which values it takes for them is not the builder's code: both are
      parameters, [info_hasattr] and [info_accepts]. *)

From Stdlib Require Import ZArith List String Ascii Lia.
From stdpp Require Import base option list gmap strings sorting pretty.

Set Warnings "-register-all".

Local Open Scope Z_scope.

(** ** Python values, exceptions and effects *)

(** The values found in parsed .glyphs data and stored in UFO objects. *)
Inductive value : Type :=
  | VNone
  | VBool (b : bool)
  | VInt (z : Z)
  | VStr (s : string)
  | VList (l : list value)
  | VDict (d : list (string * value)).

Inductive exn : Type :=
  | KeyError (key : string)
  | IndexError
  | AssertionError (msg : string)
  | AttributeError
  | TypeError
  | ValueError.

Inductive result (A : Type) : Type :=
  | Ok (a : A)
  | Raise (e : exn).
Arguments Ok {A} a.
Arguments Raise {A} e.

Global Instance result_ret : MRet result := λ A a, Ok a.
Global Instance result_bind : MBind result := λ A B f r,
  match r with
  | Ok a => f a
  | Raise e => Raise e
  end.

(** [M S A]: a computation over a mutable object of type [S] that returns an
    [A] or raises; the state is kept in both cases. *)
Definition M (S A : Type) : Type := S → result A * S.

Global Instance M_ret {S} : MRet (M S) := λ A a s, (Ok a, s).
Global Instance M_bind {S} : MBind (M S) := λ A B f m s,
  match m s with
  | (Ok a, s') => f a s'
  | (Raise e, s') => (Raise e, s')
  end.

Definition raise {S A} (e : exn) : M S A := λ s, (Raise e, s).
Definition modify {S} (f : S → S) : M S unit := λ s, (Ok tt, f s).
Definition gets {S A} (f : S → A) : M S A := λ s, (Ok (f s), s).
Definition lift {S A} (r : result A) : M S A := λ s, (r, s).

(** [for x in xs: acc = body acc x], returning the final [acc]. *)
Fixpoint for_fold {S A B} (xs : list A) (acc : B) (body : B → A → M S B) : M S B :=
  match xs with
  | [] => mret acc
  | x :: xs' => acc' ← body acc x; for_fold xs' acc' body
  end.

(** [for x in xs: body x] *)
Fixpoint for_each {S A} (xs : list A) (body : A → M S unit) : M S unit :=
  match xs with
  | [] => mret tt
  | x :: xs' => body x;; for_each xs' body
  end.

(** Truth value of a Python object. *)
Definition truthy (v : value) : bool :=
  match v with
  | VNone => false
  | VBool b => b
  | VInt z => negb (z =? 0)
  | VStr s => negb (String.eqb s "")
  | VList l => match l with [] => false | _ => true end
  | VDict d => match d with [] => false | _ => true end
  end.

(** ** String operations *)

Definition nonempty (s : string) : bool := negb (String.eqb s "").

(** [s.startswith(p)] *)
Definition startswith (p s : string) : bool := String.prefix p s.

(** [s[n:]] *)
Fixpoint string_drop (n : nat) (s : string) : string :=
  match n, s with
  | O, _ => s
  | S n', String _ s' => string_drop n' s'
  | S _, EmptyString => EmptyString
  end.

(** [sub in s] *)
Fixpoint contains (sub s : string) : bool :=
  if startswith sub s then true
  else match s with
       | EmptyString => false
       | String _ s' => contains sub s'
       end.

(** [s.replace(old, new)] for a non-empty [old]: left to right, without
    overlaps.  The fuel is the length of [s]; every step consumes at least
    one character. *)
Fixpoint replace_go (fuel : nat) (old new s : string) : string :=
  match fuel with
  | O => s
  | S fuel' =>
      match s with
      | EmptyString => EmptyString
      | String c s' =>
          if startswith old s
          then new +:+ replace_go fuel' old new (string_drop (String.length old) s)
          else String c (replace_go fuel' old new s')
      end
  end.

Definition replace (old new s : string) : string :=
  replace_go (String.length s) old new s.

Definition ascii_lower (c : ascii) : ascii :=
  let n := nat_of_ascii c in
  if (Nat.leb 65 n && Nat.leb n 90)%bool then ascii_of_nat (n + 32) else c.

Definition ascii_upper (c : ascii) : ascii :=
  let n := nat_of_ascii c in
  if (Nat.leb 97 n && Nat.leb n 122)%bool then ascii_of_nat (n - 32) else c.

(** [s.lower()], on the ASCII letters. *)
Fixpoint lower (s : string) : string :=
  match s with
  | EmptyString => EmptyString
  | String c s' => String (ascii_lower c) (lower s')
  end.

(** [s[0].upper() + s[1:]]; indexing an empty string raises. *)
Definition upper_first (s : string) : result string :=
  match s with
  | EmptyString => Raise IndexError
  | String c s' => Ok (String (ascii_upper c) s')
  end.

(** [sep.join(parts)] *)
Definition join (sep : string) (parts : list string) : string :=
  String.concat sep parts.

(** [s.split()]: the maximal runs of non-whitespace characters, for the
    whitespace of ASCII (tab to carriage return, and the space). *)
Definition split (s : string) : list string := String.words s.

(** [x in xs] for a list or tuple of strings. *)
Definition str_in (x : string) (xs : list string) : bool :=
  existsb (String.eqb x) xs.

(** *** The regular expressions of the builder

    All patterns of [builder.py] are literal alternations or a literal
    prefix followed by [(.+)]. *)

(** The first alternative that matches at the start of [s]. *)
Fixpoint match_alternatives (alts : list string) (s : string) : option string :=
  match alts with
  | [] => None
  | a :: alts' => if startswith a s then Some a else match_alternatives alts' s
  end.

(** [re.search('(a1|a2|...)', s)]: the leftmost position at which an
    alternative matches, and there the first alternative in pattern order. *)
Fixpoint re_search (alts : list string) (s : string) : option string :=
  match match_alternatives alts s with
  | Some a => Some a
  | None =>
      match s with
      | EmptyString => None
      | String _ s' => re_search alts s'
      end
  end.

(** The longest prefix of [s] without a line feed: what [.+] or [.*] can
    match at the start of [s]. *)
Fixpoint dot_run (s : string) : string :=
  match s with
  | EmptyString => EmptyString
  | String c s' => if Ascii.eqb c "010"%char then EmptyString else String c (dot_run s')
  end.

(** [re.match(prefix + '(.+)', s)], returning [group(1)]. *)
Definition match_prefix_group (prefix s : string) : option string :=
  if startswith prefix s
  then let g := dot_run (string_drop (String.length prefix) s) in
       if nonempty g then Some g else None
  else None.

(** [re.sub('^' + prefix, repl, s)] *)
Definition sub_prefix (prefix repl s : string) : string :=
  if startswith prefix s then repl +:+ string_drop (String.length prefix) s else s.

(** ** Naming tables *)

Definition PUBLIC_PREFIX : string := "public.".
Definition GLYPHS_PREFIX : string := "com.schriftgestaltung.".
Definition ROBOFONT_PREFIX : string := "com.typemytype.robofont.".

Definition GLYPHS_COLORS : list string :=
  [ "0.85,0.26,0.06,1";
    "0.99,0.62,0.11,1";
    "0.65,0.48,0.2,1";
    "0.97,1,0,1";
    "0.67,0.95,0.38,1";
    "0.04,0.57,0.04,1";
    "0,0.67,0.91,1";
    "0.18,0.16,0.78,1";
    "0.5,0.09,0.79,1";
    "0.98,0.36,0.67,1";
    "0.75,0.75,0.75,1";
    "0.25,0.25,0.25,1" ].

Definition WEIGHT_CODES : list (string * Z) :=
  [ ("Thin", 250);
    ("Light", 300);
    ("SemiLight", 350);
    ("DemiLight", 350);
    ("", 400);
    ("Regular", 400);
    ("Medium", 500);
    ("DemiBold", 600);
    ("SemiBold", 600);
    ("Bold", 700);
    ("ExtraBold", 800);
    ("Extra Bold", 800);
    ("Black", 900) ].

Definition WIDTH_CODES : list (string * Z) :=
  [ ("Extra Condensed", 2);
    ("Cd", 3);
    ("Cond", 3);
    ("Condensed", 3);
    ("Narrow", 4);
    ("SemiCondensed", 4);
    ("", 5) ].

(** [codes.keys()] and [codes[k]] for a table. *)
Definition keys {V} (codes : list (string * V)) : list string := map fst codes.

Fixpoint dict_get {V} (codes : list (string * V)) (k : string) : result V :=
  match codes with
  | [] => Raise (KeyError k)
  | (k', v) :: codes' => if String.eqb k' k then Ok v else dict_get codes' k
  end.

(** ** Style name resolver *)

(** [data.pop(key, dflt)] *)
Definition pop_default (key : string) (dflt : value) (data : gmap string value)
  : value * gmap string value :=
  (default dflt (data !! key), delete key data).

(** [' '.join(s for s in parts if s)]: every part must be a string. *)
Fixpoint join_truthy (parts : list value) : result (list string) :=
  match parts with
  | [] => Ok []
  | v :: parts' =>
      if truthy v
      then match v with
           | VStr s => rest ← join_truthy parts'; Ok (s :: rest)
           | _ => Raise TypeError
           end
      else join_truthy parts'
  end.

Definition value_is_str (v : value) (s : string) : bool :=
  match v with
  | VStr s' => String.eqb s' s
  | _ => false
  end.

Definition build_style_name (data : gmap string value)
    (width_key weight_key custom_key : string) (italic : bool)
  : result string * gmap string value :=
  let italic := VStr (if italic then "Italic" else "") in
  let '(width, data) := pop_default width_key (VStr "") data in
  let '(weight, data) := pop_default weight_key (VStr "Regular") data in
  let '(custom, data) := pop_default custom_key (VStr "") data in
  let weight :=
    if (truthy italic || truthy width || truthy custom) && value_is_str weight "Regular"
    then VStr "" else weight in
  (parts ← join_truthy [width; weight; custom; italic]; Ok (join " " parts),
   data).

Definition parse_style_attrs (name : string) : list string :=
  map (λ codes : list (string * Z),
         default "" (re_search (filter (λ k, nonempty k = true) (keys codes)) name))
      [WIDTH_CODES; WEIGHT_CODES].

(** ** The UFO object model

    The target font is a [defcon.Font]: an info object with named
    attributes, a lib dictionary, groups, kerning, and layers of glyphs.
    A glyph object is addressed by the name of its layer and its own name. *)

Inductive pen_call : Type :=
  | BeginPath
  | AddPoint (pt : Z * Z) (segmentType : option string) (smooth : option bool)
  | EndPath
  | AddComponent (baseGlyph : value) (transformation : value).

Record glyph_obj : Type := GlyphObj {
  g_unicode : value;
  g_note : value;
  g_width : value;
  g_lib : gmap string value;
  g_guidelines : list value;
  g_pen : list pen_call;        (* the calls received by the glyph's point pen *)
  g_anchors : list value
}.

Definition empty_glyph : glyph_obj :=
  GlyphObj VNone VNone (VInt 0) ∅ [] [] [].

Record font : Type := Font {
  info : gmap string value;
  lib : gmap string value;
  groups : gmap string (list string);
  kerning : gmap (string * string) Z;
  layers : gmap string (gmap string glyph_obj)
}.

Definition empty_font : font :=
  Font ∅ ∅ ∅ ∅ {[ "public.default" := ∅ ]}.

Definition glyph_ref : Type := string * string.

Definition set_info_map (f : gmap string value → gmap string value) (u : font) : font :=
  Font (f (info u)) (lib u) (groups u) (kerning u) (layers u).
Definition set_lib_map (f : gmap string value → gmap string value) (u : font) : font :=
  Font (info u) (f (lib u)) (groups u) (kerning u) (layers u).
Definition set_kerning_map (f : gmap (string * string) Z → gmap (string * string) Z)
    (u : font) : font :=
  Font (info u) (lib u) (groups u) (f (kerning u)) (layers u).
Definition set_layers_map
    (f : gmap string (gmap string glyph_obj) → gmap string (gmap string glyph_obj))
    (u : font) : font :=
  Font (info u) (lib u) (groups u) (kerning u) (f (layers u)).

(** [ufo.info.name]: an attribute that was never set reads as [None]. *)
Definition get_info (name : string) (u : font) : value :=
  default VNone (info u !! name).

(** [ufo.info.name = v] for a value that the info object takes, and
    [ufo.lib[key] = v]. *)
Definition set_info (name : string) (v : value) : M font unit :=
  modify (set_info_map <[name := v]>).
Definition set_lib (key : string) (v : value) : M font unit :=
  modify (set_lib_map <[key := v]>).

(** [ufo.info.name = v] with the check that [defcon] makes on the
    assignment: a value that the validator of the attribute refuses is not
    stored, and [ValueError] is raised.  The validators are [defcon]'s, not
    the builder's: [info_accepts name v] tells whether [v] is accepted for
    the attribute [name]. *)
Definition assign_info (info_accepts : string → value → bool)
    (name : string) (v : value) : M font unit :=
  if info_accepts name v then set_info name v else raise ValueError.

Definition as_str {S} (v : value) : M S string :=
  match v with
  | VStr s => mret s
  | _ => raise TypeError
  end.

Definition when {S} (b : bool) (m : M S unit) : M S unit :=
  if b then m else mret tt.

(** ** Master font builder: redundant metadata *)

Definition set_redundant_data : M font unit :=
  family_name ← gets (get_info "familyName");
  style_name_v ← gets (get_info "styleName");
  style_name ← as_str style_name_v;
  match parse_style_attrs style_name with
  | [width; weight] =>
      width_class ← lift (dict_get WIDTH_CODES width);
      set_info "openTypeOS2WidthClass" (VInt width_class);;
      weight_class ← lift (dict_get WEIGHT_CODES weight);
      set_info "openTypeOS2WeightClass" (VInt weight_class);;
      when (nonempty weight && negb (String.eqb weight "Regular"))
        (set_lib (GLYPHS_PREFIX +:+ "weight") (VStr weight));;
      when (nonempty width)
        (set_lib (GLYPHS_PREFIX +:+ "width") (VStr width));;
      (if str_in (lower style_name) ["regular"; "bold"; "italic"; "bold italic"]
       then
         set_info "styleMapStyleName" (VStr (lower style_name));;
         set_info "styleMapFamilyName" family_name
       else
         let joined :=
           join " " (filter (λ s, nonempty s = true)
                       [ if String.eqb weight "Bold" then "bold" else "";
                         if contains "Italic" style_name then "italic" else "" ]) in
         set_info "styleMapStyleName"
           (VStr (if nonempty joined then joined else "regular"));;
         family ← as_str family_name;
         set_info "styleMapFamilyName"
           (VStr (join " " (family :: split (replace "Italic" ""
                                               (replace "Bold" "" style_name))))));;
      set_info "openTypeNamePreferredFamilyName" family_name;;
      set_info "openTypeNamePreferredSubfamilyName" style_name_v
  | _ => raise ValueError
  end.

(** ** Custom parameter mapper *)

(** [name.replace(...)] for the four curved quotes (UTF-8 encoded). *)
Definition normalize_custom_param_name (name : string) : string :=
  let dquote := String "034"%char "" in
  let replacements :=
    [ ("‘", "'"); ("’", "'"); ("“", dquote); ("”", dquote) ] in
  fold_left (λ name '(orig, replacement), replace orig replacement name)
            replacements name.

(** [d[key]] on the entries of a dictionary. *)
Fixpoint assoc_get (d : list (string * value)) (key : string) : result value :=
  match d with
  | [] => Raise (KeyError key)
  | (k, v) :: d' => if String.eqb k key then Ok v else assoc_get d' key
  end.

(** The entries of a dictionary without the key [key]. *)
Definition assoc_del (key : string) (d : list (string * value)) : list (string * value) :=
  filter (λ kv, kv.1 ≠ key) d.

(** [p.pop(key)] on the object [p]: a dictionary gives up the entry; a list
    takes no string as an index; nothing else has a method [pop]. *)
Definition value_pop (key : string) : M value value :=
  λ p, match p with
       | VDict d =>
           match assoc_get d key with
           | Ok v => (Ok v, VDict (assoc_del key d))
           | Raise e => (Raise e, p)
           end
       | VList _ => (Raise TypeError, p)
       | _ => (Raise AttributeError, p)
       end.

(** [(p.pop('name'), p.pop('value'))]: the pair, and [p] as the two [pop]s
    leave it. *)
Definition param_of : M value (value * value) :=
  name ← value_pop "name";
  val ← value_pop "value";
  mret (name, val).

(** The first loop of [parse_custom_params] over the list [ps]: the
    parameters, and the elements of the list as the loop leaves them. *)
Fixpoint params_of (ps : list value) : result (list (value * value)) * list value :=
  match ps with
  | [] => (Ok [], [])
  | p :: ps' =>
      match param_of p with
      | (Raise e, p') => (Raise e, p' :: ps')
      | (Ok nv, p') =>
          let '(r, ps'') := params_of ps' in
          (rest ← r; Ok (nv :: rest), p' :: ps'')
      end
  end.

(** [for p in custom_parameters: params.append(...)] for the value found
    under [customParameters]: a list is gone through; a dictionary and a
    string are iterated over as their keys and their characters, which are
    strings and have no [pop]; anything else is not iterable. *)
Definition params_of_value (custom_parameters : value)
  : result (list (value * value)) * value :=
  match custom_parameters with
  | VList ps => let '(r, ps') := params_of ps in (r, VList ps')
  | VDict [] | VStr "" => (Ok [], custom_parameters)
  | VDict _ | VStr _ => (Raise AttributeError, custom_parameters)
  | _ => (Raise TypeError, custom_parameters)
  end.

(** [data.pop(key)] for each of [misc_keys], skipping the absent ones. *)
Fixpoint pop_misc (misc_keys : list string) (data : gmap string value)
  : list (value * value) * gmap string value :=
  match misc_keys with
  | [] => ([], data)
  | key :: keys' =>
      match data !! key with
      | None => pop_misc keys' data
      | Some val =>
          let '(rest, data') := pop_misc keys' (delete key data) in
          ((VStr key, val) :: rest, data')
      end
  end.

(** Returns the parameters, and [data] as the call leaves it: [name] and
    [value] are popped out of the custom parameters, and the entries of
    [misc_keys] out of [data]. *)
Definition parse_custom_params (data : gmap string value) (misc_keys : list string)
  : result (list (value * value)) * gmap string value :=
  let '(params, data) :=
    match data !! "customParameters" with
    | None => (Ok [], data)
    | Some custom_parameters =>
        let '(r, custom_parameters') := params_of_value custom_parameters in
        (r, <["customParameters" := custom_parameters']> data)
    end in
  match params with
  | Raise e => (Raise e, data)
  | Ok params =>
      let '(misc, data) := pop_misc misc_keys data in
      (Ok (params ++ misc), data)
  end.

Definition opentype_attr_prefix_pairs : list (string * string) :=
  [ ("hhea", "Hhea"); ("description", "NameDescription");
    ("license", "NameLicense"); ("panose", "OS2Panose");
    ("typo", "OS2Typo"); ("unicodeRanges", "OS2UnicodeRanges");
    ("win", "OS2Win"); ("vendorID", "OS2VendorID");
    ("versionString", "NameVersion"); ("fsType", "OS2Type") ].

Definition postscript_attrs : list string :=
  [ "underlinePosition"; "underlineThickness" ].

(** [value < 0] and [-value]; ordering a non-number against [0] raises. *)
Definition value_lt0 (v : value) : result bool :=
  match v with
  | VInt z => Ok (z <? 0)
  | VBool _ => Ok false
  | _ => Raise TypeError
  end.

Definition value_neg (v : value) : result value :=
  match v with
  | VInt z => Ok (VInt (- z))
  | VBool b => Ok (VInt (if b then -1 else 0))
  | _ => Raise TypeError
  end.

(** The first part of the loop body of [set_custom_params]: the name and
    the value after all rewriting, before the parameter is placed. *)
Definition rewrite_custom_param (param : value * value) : result (string * value) :=
  let '(name_v, val) := param in
  name ← match name_v with
          | VStr s => Ok (normalize_custom_param_name s)
          | _ => Raise AttributeError
          end;
  let '(name, val) :=
    if String.eqb name "disablesNiceNames"
    then ("useNiceNames", VInt (if truthy val then 0 else 1))
    else (name, val) in
  let name :=
    fold_left (λ name '(glyphs_prefix, ufo_prefix),
                 sub_prefix glyphs_prefix ("openType" +:+ ufo_prefix) name)
              opentype_attr_prefix_pairs name in
  name ← (if str_in name postscript_attrs
           then cap ← upper_first name; Ok ("postscript" +:+ cap)
           else Ok name);
  val ← (if startswith "openTypeOS2Win" name
          then neg ← value_lt0 val;
               if neg : bool then value_neg val else Ok val
          else Ok val);
  Ok (name, val).

Section custom_params.
(** [hasattr(ufo.info, name)]: the attribute names of [defcon]'s info
    object, which is not part of the builder. *)
Variable info_hasattr : string → bool.

(** The loop body of [set_custom_params]: rewriting, then placement in
    the info object or in the lib. *)
Definition set_custom_param (non_info : list string) (param : value * value)
  : M font unit :=
  nv ← lift (rewrite_custom_param param);
  let '(name, val) := nv in
  if info_hasattr name && negb (str_in name non_info)
  then set_info name val
  else set_lib (GLYPHS_PREFIX +:+ name) val.

Definition set_custom_params
    (parsed : option (list (value * value)))
    (data : option (gmap string value))
    (misc_keys non_info : list string) : M font unit :=
  parsed ← match parsed with
            | None =>
                lift (parse_custom_params (default ∅ data) misc_keys).1
            | Some parsed =>
                match data with
                | None => mret parsed
                | Some _ =>
                    raise (AssertionError
                             "Shouldn't provide parsed data and data to parse.")
                end
            end;
  for_each parsed (set_custom_param non_info).
End custom_params.

(** ** Blue values *)

(** Python orders tuples lexicographically. *)
Definition zone_le (a b : Z * Z) : Prop :=
  a.1 < b.1 ∨ (a.1 = b.1 ∧ a.2 ≤ b.2).

Global Instance zone_le_dec : RelDecision zone_le.
Proof. intros a b. unfold zone_le. apply _. Defined.

(** [sorted(xs)]: the order is total and antisymmetric on integers and on
    pairs of integers, so the sorted list does not depend on the algorithm. *)
Definition sorted_zones : list (Z * Z) → list (Z * Z) := merge_sort zone_le.
Definition sorted_ints : list Z → list Z := merge_sort Z.le.

(** The loop of [set_blue_values] over the sorted zones, with the two
    lists it extends. *)
Fixpoint blue_loop (zones : list (Z * Z)) (blue_values other_blues : list Z)
  : list Z * list Z :=
  match zones with
  | [] => (blue_values, other_blues)
  | (pos, size) :: zones' =>
      if (pos =? 0) || (size >=? 0)
      then blue_loop zones' (blue_values ++ sorted_ints [pos; pos + size]) other_blues
      else blue_loop zones' blue_values (other_blues ++ sorted_ints [pos; pos + size])
  end.

Definition set_blue_values (info_accepts : string → value → bool)
    (alignment_zones : list (Z * Z)) : M font unit :=
  let '(blue_values, other_blues) := blue_loop (sorted_zones alignment_zones) [] [] in
  assign_info info_accepts "postscriptBlueValues" (VList (VInt <$> blue_values));;
  assign_info info_accepts "postscriptOtherBlues" (VList (VInt <$> other_blues)).

(** ** Source layers *)

(** A node is the tuple [(x, y, node_type, smooth)]. *)
Definition node : Type := Z * Z * string * bool.

(** A path dictionary: the keys [closed] and [nodes] may be absent. *)
Record path : Type := Path {
  closed : option bool;
  nodes : option (list node)
}.

Record component : Type := Component {
  c_name : option value;
  c_transform : option value;
  c_disableAlignment : option value;
  c_locked : option value
}.

Record anchor : Type := Anchor {
  a_position : option (Z * Z);
  a_name : option value
}.

Record guideline : Type := Guideline {
  gl_position : option (Z * Z);
  gl_angle : option Z
}.

(** A layer dictionary; a background is a dictionary of the same shape.
    [l_other] tells whether the dictionary has keys the builder never reads. *)
Inductive layer : Type := Layer {
  l_width : option value;
  l_paths : option (list path);
  l_components : option (list component);
  l_anchors : option (list anchor);
  l_guideLines : option (list guideline);
  l_background : option layer;
  l_annotations : option value;
  l_hints : option value;
  l_leftMetricsKey : option value;
  l_rightMetricsKey : option value;
  l_widthMetricsKey : option value;
  l_other : bool
}.

(** [not layer]: the dictionary has no key at all. *)
Definition layer_is_empty (l : layer) : bool :=
  match l with
  | Layer None None None None None None None None None None None false => true
  | _ => false
  end.

Record datetime : Type := Datetime {
  year : nat; month : nat; day : nat;
  hour : nat; minute : nat; second : nat
}.

(** The glyph metadata that [to_ufos] pops once per glyph. *)
Record glyph_metadata : Type := GlyphMetadata {
  gd_unicode : option value;
  gd_color : option Z;
  gd_export : option value;
  gd_lastChange : option datetime;
  gd_leftMetricsKey : option value;
  gd_note : option value;
  gd_production : option value;
  gd_rightMetricsKey : option value;
  gd_widthMetricsKey : option value
}.

(** [d.get(key)] followed by the test [is not None]. *)
Definition get_not_none (field : option value) : option value :=
  match field with
  | Some VNone | None => None
  | Some v => Some v
  end.

(** ** Glyph objects inside the font *)

Definition glyph_at (h : glyph_ref) (u : font) : option glyph_obj :=
  layers u !! h.1 ≫= λ l, l !! h.2.

Definition upd_glyph (h : glyph_ref) (f : glyph_obj → glyph_obj) : M font unit :=
  modify (set_layers_map (alter (alter f h.2) h.1)).

Definition with_unicode (v : value) (g : glyph_obj) : glyph_obj :=
  GlyphObj v (g_note g) (g_width g) (g_lib g) (g_guidelines g) (g_pen g) (g_anchors g).
Definition with_note (v : value) (g : glyph_obj) : glyph_obj :=
  GlyphObj (g_unicode g) v (g_width g) (g_lib g) (g_guidelines g) (g_pen g) (g_anchors g).
Definition with_width (v : value) (g : glyph_obj) : glyph_obj :=
  GlyphObj (g_unicode g) (g_note g) v (g_lib g) (g_guidelines g) (g_pen g) (g_anchors g).
Definition with_lib (f : gmap string value → gmap string value) (g : glyph_obj) : glyph_obj :=
  GlyphObj (g_unicode g) (g_note g) (g_width g) (f (g_lib g)) (g_guidelines g) (g_pen g)
           (g_anchors g).
Definition with_guidelines (v : list value) (g : glyph_obj) : glyph_obj :=
  GlyphObj (g_unicode g) (g_note g) (g_width g) (g_lib g) v (g_pen g) (g_anchors g).
Definition with_pen (p : list pen_call) (g : glyph_obj) : glyph_obj :=
  GlyphObj (g_unicode g) (g_note g) (g_width g) (g_lib g) (g_guidelines g) p (g_anchors g).
Definition with_anchors (f : list value → list value) (g : glyph_obj) : glyph_obj :=
  GlyphObj (g_unicode g) (g_note g) (g_width g) (g_lib g) (g_guidelines g) (g_pen g)
           (f (g_anchors g)).

(** [glyph.lib[key] = v] *)
Definition set_glyph_lib (h : glyph_ref) (key : string) (v : value) : M font unit :=
  upd_glyph h (with_lib <[key := v]>).

(** [layer.newGlyph(name)]: a fresh glyph replaces any glyph of that name. *)
Definition newGlyph (h : glyph_ref) : M font unit :=
  modify (set_layers_map (alter <[h.2 := empty_glyph]> h.1)).

(** [font.newLayer(name)] *)
Definition newLayer (name : string) : M font unit :=
  modify (set_layers_map <[name := ∅]>).

(** Run pen calls against the point pen of a glyph: the calls are appended
    to the glyph's record of received calls. *)
Definition on_pen {A} (h : glyph_ref) (m : M (list pen_call) A) : M font A :=
  λ u, let '(r, calls) := m (from_option g_pen [] (glyph_at h u)) in
       (r, (upd_glyph h (with_pen calls) u).2).

(** ** Outline transcriber *)

Definition pen_do (c : pen_call) : M (list pen_call) unit :=
  modify (λ calls, calls ++ [c]).

(** [path.pop('nodes')] and [path['nodes']] *)
Definition path_nodes (p : path) : result (list node) :=
  match nodes p with
  | Some ns => Ok ns
  | None => Raise (KeyError "nodes")
  end.

Definition draw_paths (paths : list path) : M (list pen_call) unit :=
  for_each paths (λ path,
    pen_do BeginPath;;
    rest ← (if negb (default false (closed path))
            then
              ns ← lift (path_nodes path);
              match ns with
              | [] => raise IndexError
              | (x, y, node_type, smooth) :: ns' =>
                  (if String.eqb node_type "line" then mret tt
                   else raise (AssertionError "Open path starts with off-curve points"));;
                  pen_do (AddPoint (x, y) (Some "move") None);;
                  mret ns'
              end
            else lift (path_nodes path));
    for_each rest (λ '(x, y, node_type, smooth),
      let node_type :=
        if str_in node_type ["line"; "curve"] then Some node_type else None in
      pen_do (AddPoint (x, y) node_type (Some smooth)));;
    pen_do EndPath).

Definition identity_transform : value := VList (VInt <$> [1; 0; 0; 1; 0; 0]).

Definition draw_components (components : list component) : M (list pen_call) unit :=
  for_each components (λ component,
    match c_name component with
    | None => raise (KeyError "name")
    | Some name =>
        pen_do (AddComponent name (default identity_transform (c_transform component)))
    end).

Definition add_anchors_to_glyph (h : glyph_ref) (anchors : list anchor) : M font unit :=
  for_each anchors (λ anchor,
    match a_position anchor with
    | None => raise (KeyError "position")
    | Some (x, y) =>
        match a_name anchor with
        | None => raise (KeyError "name")
        | Some name =>
            let anchor_dict := VDict [("name", name); ("x", VInt x); ("y", VInt y)] in
            upd_glyph h (with_anchors (λ l, l ++ [anchor_dict]))
        end
    end).

(** The guidelines built by the loop of [set_guidelines]. *)
Fixpoint new_guidelines (guidelines : list guideline) : result (list value) :=
  match guidelines with
  | [] => Ok []
  | g :: guidelines' =>
      match gl_position g with
      | None => Raise (KeyError "position")
      | Some (x, y) =>
          let angle := default 0 (gl_angle g) in
          let new_guideline :=
            VDict [("x", VInt x); ("y", VInt y); ("angle", VInt ((360 - angle) `mod` 360))] in
          rest ← new_guidelines guidelines';
          Ok (new_guideline :: rest)
      end
  end.

(** [ufo_obj] is the font when [is_global] and a glyph otherwise:
    [obj = None] stands for the font. *)
Definition set_guidelines (obj : option glyph_ref) (glyphs_data : layer)
    (is_global : bool) : M font unit :=
  match l_guideLines glyphs_data with
  | None | Some [] => mret tt
  | Some guidelines =>
      new ← lift (new_guidelines guidelines);
      match is_global, obj with
      | true, None => set_info "guidelines" (VList new)
      | false, Some h => upd_glyph h (with_guidelines new)
      | _, _ => raise AttributeError
      end
  end.

Definition set_components_attributes (h : glyph_ref) (l : layer) : M font unit :=
  for_each [ ("disableAlignment", c_disableAlignment); ("locked", c_locked) ]
    (λ '(key, field),
      let values := (λ c, default (VBool false) (field c)) <$> default [] (l_components l) in
      when (existsb truthy values)
        (key ← lift (upper_first key);
         set_glyph_lib h (GLYPHS_PREFIX +:+ "components" +:+ key) (VList values))).

Definition set_glyph_background (h : glyph_ref) (key : string)
    (background : option layer) : M font unit :=
  match background with
  | None => mret tt
  | Some background =>
      if layer_is_empty background then mret tt
      else
        let layer_name :=
          if negb (String.eqb h.1 "public.default")
          then h.1 +:+ ".background" else "public.background" in
        has_layer ← gets (λ u, bool_decide (is_Some (layers u !! layer_name)));
        when (negb has_layer) (newLayer layer_name);;
        let new_glyph := (layer_name, h.2) in
        newGlyph new_glyph;;
        glyph_width ← gets (λ u, from_option g_width VNone (glyph_at h u));
        upd_glyph new_glyph (with_width (default glyph_width (l_width background)));;
        on_pen new_glyph (draw_paths (default [] (l_paths background)));;
        on_pen new_glyph (draw_components (default [] (l_components background)));;
        add_anchors_to_glyph new_glyph (default [] (l_anchors background));;
        set_guidelines (Some new_glyph) background false;;
        set_components_attributes new_glyph background
  end.

(** ** Glyph loader *)

Definition zero_pad (width : nat) (s : string) : string :=
  Nat.iter (width - String.length s) (String "0"%char) s.

(** [datetime_obj.strftime('%Y/%m/%d %H:%M:%S')] for a year of four digits;
    how [%Y] writes an earlier year depends on the platform. *)
Definition to_ufo_time (datetime_obj : datetime) : string :=
  zero_pad 4 (pretty (year datetime_obj)) +:+ "/" +:+
  zero_pad 2 (pretty (month datetime_obj)) +:+ "/" +:+
  zero_pad 2 (pretty (day datetime_obj)) +:+ " " +:+
  zero_pad 2 (pretty (hour datetime_obj)) +:+ ":" +:+
  zero_pad 2 (pretty (minute datetime_obj)) +:+ ":" +:+
  zero_pad 2 (pretty (second datetime_obj)).

Definition load_glyph_libdata (h : glyph_ref) (l : layer) : M font unit :=
  set_guidelines (Some h) l false;;
  set_glyph_background h "background" (l_background l);;
  for_each [ ("annotations", l_annotations); ("hints", l_hints) ]
    (λ '(key, field),
      match field l with
      | None => mret tt
      | Some v => set_glyph_lib h (GLYPHS_PREFIX +:+ key) v
      end);;
  set_components_attributes h l.

Definition glyphlib_prefix : string := GLYPHS_PREFIX +:+ "Glyphs.".

Definition load_glyph (h : glyph_ref) (l : layer) (glyph_data : glyph_metadata)
  : M font unit :=
  match get_not_none (gd_unicode glyph_data) with
  | Some uval => upd_glyph h (with_unicode uval)
  | None => mret tt
  end;;
  match get_not_none (gd_note glyph_data) with
  | Some note => upd_glyph h (with_note note)
  | None => mret tt
  end;;
  match gd_lastChange glyph_data with
  | Some last_change =>
      set_glyph_lib h (glyphlib_prefix +:+ "lastChange") (VStr (to_ufo_time last_change))
  | None => mret tt
  end;;
  match gd_color glyph_data with
  | Some color_index =>
      when (color_index >=? 0)
        (set_glyph_lib h (glyphlib_prefix +:+ "ColorIndex") (VInt color_index);;
         match GLYPHS_COLORS !! Z.to_nat color_index with
         | Some color => set_glyph_lib h (PUBLIC_PREFIX +:+ "markColor") (VStr color)
         | None => raise IndexError
         end)
  | None => mret tt
  end;;
  match get_not_none (gd_export glyph_data) with
  | Some export => set_glyph_lib h (glyphlib_prefix +:+ "Export") export
  | None => mret tt
  end;;
  match get_not_none (gd_production glyph_data) with
  | Some production_name =>
      set_glyph_lib h (PUBLIC_PREFIX +:+ "postscriptName") production_name
  | None => mret tt
  end;;
  for_each [ ("leftMetricsKey", l_leftMetricsKey, gd_leftMetricsKey);
             ("rightMetricsKey", l_rightMetricsKey, gd_rightMetricsKey);
             ("widthMetricsKey", l_widthMetricsKey, gd_widthMetricsKey) ]
    (λ '(key, layer_field, data_field),
      let glyph_metrics_key :=
        match layer_field l with
        | Some v => v
        | None => default VNone (data_field glyph_data)
        end in
      when (truthy glyph_metrics_key)
        (set_glyph_lib h (glyphlib_prefix +:+ key) glyph_metrics_key));;
  match l_width l with
  | Some width => upd_glyph h (with_width width)
  | None => raise (KeyError "width")
  end;;
  load_glyph_libdata h l;;
  on_pen h (draw_paths (default [] (l_paths l)));;
  on_pen h (draw_components (default [] (l_components l)));;
  add_anchors_to_glyph h (default [] (l_anchors l)).

(** ** Kerning groups *)

Definition group_keys : list (string * string) :=
  [ ("1", "rightKerningGroup"); ("2", "leftKerningGroup") ].

(** [glyph_data] holds the string-valued entries of a glyph dictionary.
    Returns the groups and the glyph dictionary after the [pop]s. *)
Definition add_glyph_to_groups (kerning_groups : gmap string (list string))
    (glyph_data : gmap string string)
  : result (gmap string (list string) * gmap string string) :=
  match glyph_data !! "glyphname" with
  | None => Raise (KeyError "glyphname")
  | Some glyph_name =>
      Ok (fold_left
            (λ '(kerning_groups, glyph_data) '(side, group_key),
               match glyph_data !! group_key with
               | None => (kerning_groups, glyph_data)
               | Some v =>
                   let group := "public.kern" +:+ side +:+ "." +:+ v in
                   (<[group := default [] (kerning_groups !! group) ++ [glyph_name]]>
                      kerning_groups,
                    delete group_key glyph_data)
               end)
            group_keys (kerning_groups, glyph_data))
  end.

(** The local [kerning_groups] of [to_ufos] after its loop over the glyphs:
    the loop calls [add_glyph_to_groups] on every glyph, in document order,
    and nothing else assigns to [kerning_groups]. *)
Fixpoint to_ufos_kerning_groups (kerning_groups : gmap string (list string))
    (glyphs : list (gmap string string)) : result (gmap string (list string)) :=
  match glyphs with
  | [] => Ok kerning_groups
  | glyph :: glyphs' =>
      r ← add_glyph_to_groups kerning_groups glyph;
      to_ufos_kerning_groups r.1 glyphs'
  end.

(** [for name, glyphs in kerning_groups.items(): ufo.groups[name] = glyphs] *)
Definition add_groups_to_ufo (kerning_groups : gmap string (list string)) : M font unit :=
  modify (λ u, Font (info u) (lib u) (kerning_groups ∪ groups u) (kerning u) (layers u)).

(** ** Kerning loader *)

(** A kerning rule [(left, right, value)]. *)
Definition rule : Type := string * string * Z.

(** The warnings printed by the kerning loader, by the values formatted into
    their text. *)
Inductive warning : Type :=
  | NonExistentClass (classname : string)
  | ConflictingRules (style_name : value) (pair : string * string)
      (existing_rule latter_rule : rule).

(** The kerning loader runs on the font and the warning stream. *)
Definition kstate : Type := font * list warning.

Definition warn (w : warning) : M kstate unit :=
  modify (λ s : kstate, (s.1, s.2 ++ [w])).

Definition on_font {A} (m : M font A) : M kstate A :=
  λ s, let '(r, u) := m s.1 in (r, (u, s.2)).

Definition side_pair (is_left_class : bool) (member glyph : string) : string * string :=
  if is_left_class then (member, glyph) else (glyph, member).

Definition remove_rule_if_conflict (seen : gmap (string * string) rule)
    (classname glyph : string) (is_left_class : bool)
  : M kstate (gmap (string * string) rule) :=
  let original_pair := side_pair is_left_class classname glyph in
  val ← on_font (λ u, (match kerning u !! original_pair with
                       | Some v => Ok v
                       | None => Raise (KeyError (original_pair.1 +:+ ", " +:+ original_pair.2))
                       end, u));
  let rule : rule := (original_pair, val) in
  old_glyphs ← on_font (λ u, (match groups u !! classname with
                              | Some g => Ok g
                              | None => Raise (KeyError classname)
                              end, u));
  r ← for_fold old_glyphs ([], seen) (λ '(new_glyphs, seen) member,
        let pair := side_pair is_left_class member glyph in
        in_kerning ← on_font (gets (λ u, bool_decide (is_Some (kerning u !! pair))));
        match seen !! pair with
        | Some existing_rule =>
            if negb (existing_rule.2 =? val) && negb in_kerning
            then
              style_name ← on_font (gets (get_info "styleName"));
              warn (ConflictingRules style_name pair existing_rule rule);;
              mret (new_glyphs, seen)
            else mret (new_glyphs ++ [member], <[pair := rule]> seen)
        | None => mret (new_glyphs ++ [member], <[pair := rule]> seen)
        end);
  let '(new_glyphs, seen) := r in
  when (negb (bool_decide (new_glyphs = old_glyphs)))
    (on_font (modify (set_kerning_map (delete original_pair)));;
     for_each new_glyphs (λ member,
       on_font (modify (set_kerning_map
                          <[side_pair is_left_class member glyph := val]>))));;
  mret seen.

Definition load_kerning (kerning_data : list (string * list (string * Z)))
  : M kstate unit :=
  class_glyph_pairs ←
    for_fold kerning_data [] (λ class_glyph_pairs '(left_key, pairs),
      let m := match_prefix_group "@MMK_L_" left_key in
      let left_is_class := bool_decide (is_Some m) in
      let left_key := from_option (λ g, "public.kern1." +:+ g) left_key m in
      in_groups ← on_font (gets (λ u, bool_decide (is_Some (groups u !! left_key))));
      if left_is_class && negb in_groups
      then warn (NonExistentClass left_key);; mret class_glyph_pairs
      else
        for_fold pairs class_glyph_pairs (λ class_glyph_pairs '(right_key, kerning_val),
          let m := match_prefix_group "@MMK_R_" right_key in
          let right_is_class := bool_decide (is_Some m) in
          let right_key := from_option (λ g, "public.kern2." +:+ g) right_key m in
          in_groups ← on_font (gets (λ u, bool_decide (is_Some (groups u !! right_key))));
          if right_is_class && negb in_groups
          then warn (NonExistentClass right_key);; mret class_glyph_pairs
          else
            let class_glyph_pairs :=
              if negb (eqb left_is_class right_is_class)
              then class_glyph_pairs ++
                     [ if left_is_class then (left_key, right_key, true)
                       else (right_key, left_key, false) ]
              else class_glyph_pairs in
            on_font (modify (set_kerning_map <[(left_key, right_key) := kerning_val]>));;
            mret class_glyph_pairs));
  for_fold (rev class_glyph_pairs) ∅ (λ seen '(classname, glyph, is_left_class),
    remove_rule_if_conflict seen classname glyph is_left_class);;
  mret tt.

(** ** Specifications of effectful code *)

(** [triple P m Q E]: run from a state satisfying [P], the computation [m]
    either returns [a] in a state satisfying [Q a], or raises [e] in a state
    satisfying [E e]. *)
Definition triple {S A} (P : S → Prop) (m : M S A)
    (Q : A → S → Prop) (E : exn → S → Prop) : Prop :=
  ∀ s, P s →
    match m s with
    | (Ok a, s') => Q a s'
    | (Raise e, s') => E e s'
    end.

(** [m] keeps [I], whether it returns or raises. *)
Definition preserves {S A} (I : S → Prop) (m : M S A) : Prop :=
  triple I m (λ _, I) (λ _, I).

(** [m] always raises. *)
Definition fails {S A} (m : M S A) : Prop :=
  triple (λ _, True) m (λ _ _, False) (λ _ _, True).

(** ** Vocabulary of the theorems *)

(** *** Style names *)

(** A master dictionary with the given width and weight tokens, an empty
    custom token, and nothing else. *)
Definition master_tokens (width weight : string) : gmap string value :=
  {[ "width" := VStr width; "weight" := VStr weight; "custom" := VStr "" ]}.

(** Building a non-italic style name from the two tokens and parsing it
    gives the two tokens back. *)
Definition style_round_trip (width weight : string) : Prop :=
  ∃ name data,
    build_style_name (master_tokens width weight) "width" "weight" "custom" false
    = (Ok name, data) ∧
    parse_style_attrs name = [width; weight].

(** *** Style-map names *)

Definition style_map_names : list string := ["regular"; "bold"; "italic"; "bold italic"].

(** The style-map style assigned by the second branch of
    [set_redundant_data]. *)
Definition joined_style (weight style_name : string) : string :=
  let joined :=
    join " " (filter (λ s, nonempty s = true)
                [ if String.eqb weight "Bold" then "bold" else "";
                  if contains "Italic" style_name then "italic" else "" ]) in
  if nonempty joined then joined else "regular".

(** A font as [generate_base_fonts] hands it to [set_redundant_data]: the
    family name and the style name are set. *)
Definition master_font (family style_name : string) : font :=
  Font {[ "familyName" := VStr family; "styleName" := VStr style_name ]} ∅ ∅ ∅
       {[ "public.default" := ∅ ]}.

(** The style-map style is the style name, character for character, and the
    style-map family is the family name. *)
Definition style_map_verbatim (u : font) (style_name : string) : Prop :=
  ∃ u', set_redundant_data u = (Ok tt, u') ∧
        info u' !! "styleMapStyleName" = Some (VStr style_name) ∧
        info u' !! "styleMapFamilyName" = info u !! "familyName".

(** *** Custom parameters *)

(** An info object that has the OpenType hhea attributes. *)
Definition hhea_info_hasattr (name : string) : bool :=
  str_in name [ "openTypeHheaAscender"; "openTypeHheaDescender"; "openTypeHheaLineGap" ].

(** *** Blue values *)

Definition is_primary (zone : Z * Z) : bool := (zone.1 =? 0) || (zone.2 >=? 0).

(** The interval of a zone, lower end first. *)
Definition endpoints (zone : Z * Z) : list Z :=
  [Z.min zone.1 (zone.1 + zone.2); Z.max zone.1 (zone.1 + zone.2)].

(** An info object with the limits of the UFO specification on the blue
    values: at most 14 of them, at most 10 other blues, both in pairs. *)
Definition blues_info_accepts (name : string) (v : value) : bool :=
  let limit :=
    if String.eqb name "postscriptBlueValues" then Some 14%nat
    else if String.eqb name "postscriptOtherBlues" then Some 10%nat
    else None in
  match limit, v with
  | Some n, VList l => (length l <=? n)%nat && Nat.even (length l)
  | Some _, _ => false
  | None, _ => true
  end.

(** Eight zones at and above the baseline. *)
Definition eight_zones : list (Z * Z) :=
  [(0, -16); (100, 10); (200, 10); (300, 10); (400, 10); (500, 10); (600, 10); (700, 16)].

(** *** Paths *)

Definition is_closed (p : path) : bool := default false (closed p).

(** The call made for a node in the loop over the nodes of a path. *)
Definition drawn_point (n : node) : pen_call :=
  let '(x, y, node_type, smooth) := n in
  AddPoint (x, y) (if str_in node_type ["line"; "curve"] then Some node_type else None)
           (Some smooth).

Definition is_add_point (c : pen_call) : Prop := ∃ pt k sm, c = AddPoint pt k sm.

Definition is_move (c : pen_call) : bool :=
  match c with
  | AddPoint _ (Some k) _ => String.eqb k "move"
  | _ => false
  end.

(** An open path whose first node is not of type "line". *)
Definition bad_open (p : path) : Prop :=
  is_closed p = false ∧
  ∃ x y t sm ns, nodes p = Some ((x, y, t, sm) :: ns) ∧ t ≠ "line".

(** If the path is open and has a first node, that node is of type "line". *)
Definition open_starts_with_line (p : path) : Prop :=
  is_closed p = false →
  ∀ x y t sm ns, nodes p = Some ((x, y, t, sm) :: ns) → t = "line".

Definition sample_closed : path :=
  Path (Some true) (Some [(0, 0, "line", false); (10, 0, "offcurve", false);
                          (10, 10, "curve", true); (0, 10, "move", false)]).

Definition sample_open : path :=
  Path None (Some [(0, 0, "line", false); (10, 0, "offcurve", false);
                   (10, 10, "curve", true)]).

Definition sample_bad_open : path :=
  Path None (Some [(0, 0, "offcurve", false); (5, 5, "line", false)]).

(** *** Glyphs *)

Definition ColorIndex_key : string := glyphlib_prefix +:+ "ColorIndex".
Definition markColor_key : string := PUBLIC_PREFIX +:+ "markColor".

(** The glyph at [h] exists and its lib has the color entries [a] and [b]. *)
Definition color_inv (h : glyph_ref) (a b : option value) (u : font) : Prop :=
  ∃ g, glyph_at h u = Some g ∧
       g_lib g !! ColorIndex_key = a ∧ g_lib g !! markColor_key = b.

Definition keeps_color (f : glyph_obj → glyph_obj) : Prop :=
  ∀ g, g_lib (f g) !! ColorIndex_key = g_lib g !! ColorIndex_key ∧
       g_lib (f g) !! markColor_key = g_lib g !! markColor_key.

(** A font in which [to_ufos] has just created the glyph "A". *)
Definition sample_glyph : glyph_ref := ("public.default", "A").
Definition sample_glyph_font : font := (newGlyph sample_glyph empty_font).2.

Definition layer_with_paths (paths : list path) : layer :=
  Layer (Some (VInt 600)) (Some paths) None None None None None None None None None false.

Definition metadata_with_color (c : Z) : glyph_metadata :=
  GlyphMetadata None (Some c) None None None None None None None.

(** *** Kerning groups *)

Definition kern1 (v : string) : string := "public.kern1." +:+ v.
Definition kern2 (v : string) : string := "public.kern2." +:+ v.

(** The group [group], if any, extended by [glyph_name]. *)
Definition add_member (kerning_groups : gmap string (list string))
    (group : option string) (glyph_name : string) : gmap string (list string) :=
  match group with
  | Some group =>
      <[group := default [] (kerning_groups !! group) ++ [glyph_name]]> kerning_groups
  | None => kerning_groups
  end.

(** The names of the glyphs that declare the membership [key = v], in
    document order. *)
Definition members_of (key v : string) (glyphs : list (gmap string string))
  : list string :=
  omap (λ g : gmap string string,
          if decide (g !! key = Some v) then g !! "glyphname" else None) glyphs.

Definition sample_glyphs : list (gmap string string) :=
  [ {[ "glyphname" := "A"; "rightKerningGroup" := "A"; "leftKerningGroup" := "A" ]};
    {[ "glyphname" := "B" ]};
    {[ "glyphname" := "Aacute"; "rightKerningGroup" := "A"; "leftKerningGroup" := "A" ]};
    {[ "glyphname" := "V"; "leftKerningGroup" := "A" ]} ].

(** *** The kerning scenario *)

(** A class pair and an explicit pair for one member of the class. *)
Definition scenario_kerning : list (string * list (string * Z)) :=
  [ ("@MMK_L_A", [("B", -40)]); ("A1", [("B", -10)]) ].

(** The same dictionary, iterated in the other order. *)
Definition scenario_kerning_rev : list (string * list (string * Z)) :=
  [ ("A1", [("B", -10)]); ("@MMK_L_A", [("B", -40)]) ].

(** A font with the group of the scenario and no kerning yet. *)
Definition scenario_font (i lb : gmap string value)
    (ly : gmap string (gmap string glyph_obj)) : font :=
  Font i lb {[ "public.kern1.A" := ["A1"; "A2"] ]} ∅ ly.

(** The outcome of a kerning load has the explicit pair, a direct entry for
    the other member, and a conflict warning for the pair ("A1", "B"). *)
Definition explicit_pair_claim (out : result unit * kstate) : Prop :=
  kerning out.2.1 !! ("A1", "B") = Some (-10) ∧
  kerning out.2.1 !! ("A2", "B") = Some (-40) ∧
  ∃ style_name existing_rule latter_rule,
    ConflictingRules style_name ("A1", "B") existing_rule latter_rule ∈ out.2.2.

(** * Further definitions *)

(** ** Vocabulary of the further theorems *)

(** The pen call made for a component that has a name. *)
Definition component_call (c : component) : pen_call :=
  AddComponent (default VNone (c_name c)) (default identity_transform (c_transform c)).

(** The anchor appended for a source anchor that has a position and a name. *)
Definition anchor_dict_of (a : anchor) : value :=
  let '(x, y) := default (0, 0) (a_position a) in
  VDict [("name", default VNone (a_name a)); ("x", VInt x); ("y", VInt y)].

Definition anchor_complete (a : anchor) : Prop :=
  is_Some (a_position a) ∧ is_Some (a_name a).

(** The exception raised for an incomplete anchor: the position is popped
    before the name. *)
Definition anchor_error (a : anchor) : exn :=
  match a_position a with
  | None => KeyError "position"
  | Some _ => KeyError "name"
  end.

(** The glyphs [g] and [g'] differ at most in their unicode, note and lib. *)
Definition same_outline (g g' : glyph_obj) : Prop :=
  g_width g' = g_width g ∧ g_guidelines g' = g_guidelines g ∧
  g_pen g' = g_pen g ∧ g_anchors g' = g_anchors g.

(** The font [u'] differs from [u] at most in the unicode, note and lib of
    the glyph at [h]. *)
Definition only_metadata_changed (h : glyph_ref) (u u' : font) : Prop :=
  info u' = info u ∧ lib u' = lib u ∧ groups u' = groups u ∧ kerning u' = kerning u ∧
  dom (layers u') = dom (layers u) ∧
  (∀ h', h' ≠ h → glyph_at h' u' = glyph_at h' u) ∧
  ∃ g g', glyph_at h u = Some g ∧ glyph_at h u' = Some g' ∧ same_outline g g'.

(** The name of the layer that holds the background of a glyph. *)
Definition background_layer_name (h : glyph_ref) : string :=
  if negb (String.eqb h.1 "public.default")
  then h.1 +:+ ".background" else "public.background".

(** The font [u'] differs from [u] at most in the glyph named like [h] in
    the background layer of [h]. *)
Definition only_background_changed (h : glyph_ref) (u u' : font) : Prop :=
  info u' = info u ∧ lib u' = lib u ∧ groups u' = groups u ∧ kerning u' = kerning u ∧
  (∀ name, name ≠ background_layer_name h → layers u' !! name = layers u !! name) ∧
  (∀ gn, gn ≠ h.2 →
     glyph_at (background_layer_name h, gn) u' = glyph_at (background_layer_name h, gn) u).

(** The glyph that holds the background of the glyph [h]. *)
Definition background_ref (h : glyph_ref) : glyph_ref :=
  (background_layer_name h, h.2).

(** *** Kerning keys *)

(** A left or right key of the kerning data after the class prefix was
    rewritten to the group name. *)
Definition resolve_left (key : string) : string :=
  from_option (λ g, "public.kern1." +:+ g) key (match_prefix_group "@MMK_L_" key).
Definition resolve_right (key : string) : string :=
  from_option (λ g, "public.kern2." +:+ g) key (match_prefix_group "@MMK_R_" key).

Definition left_is_class (key : string) : bool :=
  bool_decide (is_Some (match_prefix_group "@MMK_L_" key)).
Definition right_is_class (key : string) : bool :=
  bool_decide (is_Some (match_prefix_group "@MMK_R_" key)).

(** The pairs of the kerning data, in iteration order, under their rewritten
    keys. *)
Definition resolved_pairs (kerning_data : list (string * list (string * Z)))
  : list (string * string * Z) :=
  flat_map (λ '(left_key, pairs),
              map (λ '(right_key, v), (resolve_left left_key, resolve_right right_key, v))
                  pairs)
           kerning_data.

(** [kerning[pair] = v] for each of the pairs in turn. *)
Definition store_pairs (pairs : list (string * string * Z))
    (k : gmap (string * string) Z) : gmap (string * string) Z :=
  fold_left (λ k '(p, v), <[p := v]> k) pairs k.

(** No pair has a class on one side and a glyph on the other, and every
    class that is referred to is a declared group. *)
Definition unmixed_and_declared (u : font)
    (kerning_data : list (string * list (string * Z))) : Prop :=
  Forall (λ '(left_key, pairs),
            (left_is_class left_key = true → is_Some (groups u !! resolve_left left_key)) ∧
            Forall (λ '(right_key, _),
                      right_is_class right_key = left_is_class left_key ∧
                      (right_is_class right_key = true →
                       is_Some (groups u !! resolve_right right_key)))
                   pairs)
         kerning_data.

(** The test of [remove_rule_if_conflict] on one member of the class: the
    pair was established by a rule with another value and has no entry of
    its own in the kerning. *)
Definition conflicts (seen : gmap (string * string) rule)
    (kern : gmap (string * string) Z) (is_left_class : bool) (glyph : string) (val : Z)
    (member : string) : bool :=
  match seen !! side_pair is_left_class member glyph with
  | Some existing_rule =>
      negb (existing_rule.2 =? val) &&
      negb (bool_decide (is_Some (kern !! side_pair is_left_class member glyph)))
  | None => false
  end.

(** The body of the loop of [load_kerning] over the pairs of one left key;
    [left_key] is already rewritten. *)
Definition kerning_pair_step (left_key : string) (left_is_class : bool)
    (class_glyph_pairs : list (string * string * bool)) (pair : string * Z)
  : M kstate (list (string * string * bool)) :=
  let '(right_key, kerning_val) := pair in
  let m := match_prefix_group "@MMK_R_" right_key in
  let right_is_class := bool_decide (is_Some m) in
  let right_key := from_option (λ g, "public.kern2." +:+ g) right_key m in
  in_groups ← on_font (gets (λ u, bool_decide (is_Some (groups u !! right_key))));
  if right_is_class && negb in_groups
  then warn (NonExistentClass right_key);; mret class_glyph_pairs
  else
    let class_glyph_pairs :=
      if negb (eqb left_is_class right_is_class)
      then class_glyph_pairs ++
             [ if left_is_class then (left_key, right_key, true)
               else (right_key, left_key, false) ]
      else class_glyph_pairs in
    on_font (modify (set_kerning_map <[(left_key, right_key) := kerning_val]>));;
    mret class_glyph_pairs.

(** The body of the loop of [load_kerning] over the left keys. *)
Definition kerning_key_step (class_glyph_pairs : list (string * string * bool))
    (entry : string * list (string * Z)) : M kstate (list (string * string * bool)) :=
  let '(left_key, pairs) := entry in
  let m := match_prefix_group "@MMK_L_" left_key in
  let left_is_class := bool_decide (is_Some m) in
  let left_key := from_option (λ g, "public.kern1." +:+ g) left_key m in
  in_groups ← on_font (gets (λ u, bool_decide (is_Some (groups u !! left_key))));
  if left_is_class && negb in_groups
  then warn (NonExistentClass left_key);; mret class_glyph_pairs
  else for_fold pairs class_glyph_pairs (kerning_pair_step left_key left_is_class).

(** [m] only adds to the warnings: from a state with the warnings [ws] it
    does what it does from a state without warnings, and what it prints
    follows [ws]. *)
Definition appends_warnings {A} (m : M kstate A) : Prop :=
  ∀ u ws, m (u, ws) = ((m (u, [])).1, ((m (u, [])).2.1, ws ++ (m (u, [])).2.2)).

(** The second loop of [load_kerning], over the queued pairs. *)
Definition resolve_conflicts (class_glyph_pairs : list (string * string * bool))
  : M kstate unit :=
  for_fold (rev class_glyph_pairs) ∅ (λ seen '(classname, glyph, is_left_class),
    remove_rule_if_conflict seen classname glyph is_left_class);;
  mret tt.

(** The font [u] with the kerning [k]. *)
Definition with_kerning (k : gmap (string * string) Z) (u : font) : font :=
  Font (info u) (lib u) (groups u) k (layers u).

(** The pairs of the members [ms] recorded in [seen] under rule [r]. *)
Definition record_seen (is_left_class : bool) (glyph : string) (r : rule)
    (ms : list string) (seen : gmap (string * string) rule)
  : gmap (string * string) rule :=
  fold_left (λ seen m, <[side_pair is_left_class m glyph := r]> seen) ms seen.

(** The class value stored for each of the members [ms]. *)
Definition store_members (is_left_class : bool) (glyph : string) (val : Z)
    (ms : list string) (k : gmap (string * string) Z) : gmap (string * string) Z :=
  fold_left (λ k m, <[side_pair is_left_class m glyph := val]> k) ms k.

(** The body of the loop of [remove_rule_if_conflict] over the members of
    the class; [r] is the rule of the class pair. *)
Definition conflict_member_step (is_left_class : bool) (glyph : string) (val : Z)
    (r : rule)
  : list string * gmap (string * string) rule → string →
    M kstate (list string * gmap (string * string) rule) :=
  λ '(new_glyphs, seen) member,
  let pair := side_pair is_left_class member glyph in
  in_kerning ← on_font (gets (λ u, bool_decide (is_Some (kerning u !! pair))));
  match seen !! pair with
  | Some existing_rule =>
      if negb (existing_rule.2 =? val) && negb in_kerning
      then
        style_name ← on_font (gets (get_info "styleName"));
        warn (ConflictingRules style_name pair existing_rule r);;
        mret (new_glyphs, seen)
      else mret (new_glyphs ++ [member], <[pair := r]> seen)
  | None => mret (new_glyphs ++ [member], <[pair := r]> seen)
  end.

(** The warning printed for a member in conflict. *)
Definition conflict_warning (u : font) (seen : gmap (string * string) rule)
    (is_left_class : bool) (glyph : string) (r : rule) (member : string)
  : option warning :=
  existing_rule ← seen !! side_pair is_left_class member glyph;
  Some (ConflictingRules (get_info "styleName" u)
          (side_pair is_left_class member glyph) existing_rule r).

(** The members of a class that [remove_rule_if_conflict] keeps and drops,
    judged against the rules seen before the call. *)
Definition kept_members (seen : gmap (string * string) rule)
    (kern : gmap (string * string) Z) (is_left_class : bool) (glyph : string) (val : Z)
    (ms : list string) : list string :=
  filter (λ m, conflicts seen kern is_left_class glyph val m = false) ms.

Definition dropped_members (seen : gmap (string * string) rule)
    (kern : gmap (string * string) Z) (is_left_class : bool) (glyph : string) (val : Z)
    (ms : list string) : list string :=
  filter (λ m, conflicts seen kern is_left_class glyph val m = true) ms.

(** Invariant of the loop over the members: [seen] is [seen0] except at
    pairs of members without conflict, which carry the rule [r]. *)
Definition seen_inv (seen0 : gmap (string * string) rule)
    (kern : gmap (string * string) Z) (is_left_class : bool) (glyph : string) (val : Z)
    (r : rule) (seen : gmap (string * string) rule) : Prop :=
  ∀ m, seen !! side_pair is_left_class m glyph
       = seen0 !! side_pair is_left_class m glyph ∨
       (seen !! side_pair is_left_class m glyph = Some r ∧
        conflicts seen0 kern is_left_class glyph val m = false).

(** A class rule in conflict with an earlier glyph rule: the class
    [public.kern1.A] holds the glyphs a and b, it is kerned against x by 10,
    and the pair (a, x) was established by the rule (other, x, 5). *)
Definition conflict_font : font :=
  Font ∅ ∅ {[ "public.kern1.A" := ["a"; "b"] ]}
       {[ ("public.kern1.A", "x") := 10 ]} ∅.

Definition conflict_seen : gmap (string * string) rule :=
  {[ ("a", "x") := (("public.kern1.O", "x"), 5) ]}.

(** *** Sample inputs of the further theorems *)

Definition layer_with_guidelines (gls : list guideline) : layer :=
  Layer (Some (VInt 600)) None None None (Some gls) None None None None None None false.

Definition sample_guidelines : list guideline :=
  [Guideline (Some (10, 20)) (Some 90); Guideline (Some (0, 0)) None].

Definition sample_bad_guidelines : list guideline :=
  [Guideline (Some (10, 20)) (Some 90); Guideline None (Some 45)].

Definition sample_components : list component :=
  [Component (Some (VStr "A")) None None None;
   Component (Some (VStr "acute")) (Some (VList [VInt 1; VInt 0; VInt 0; VInt 1;
                                                 VInt 30; VInt 200])) None None].

Definition sample_nameless_component : component :=
  Component None None None None.

Definition sample_anchors : list anchor :=
  [Anchor (Some (250, 700)) (Some (VStr "top")); Anchor (Some (250, 0)) (Some (VStr "bottom"))].

Definition sample_nameless_anchor : anchor := Anchor (Some (100, 100)) None.

Definition layer_without_width : layer :=
  Layer None (Some []) None None None None None None None None None false.

(** The font above with a class on the right as well. *)
Definition conflict_font_with_kern2 : font :=
  Font ∅ ∅ {[ "public.kern1.A" := ["a"; "b"]; "public.kern2.A" := ["a"] ]}
       {[ ("public.kern1.A", "x") := 10 ]} ∅.

(** ** Writing a UFO *)

(** [s.endswith(suffix)] *)
Definition endswith (suffix s : string) : bool :=
  if (String.length suffix <=? String.length s)%nat
  then String.eqb (string_drop (String.length s - String.length suffix) s) suffix
  else false.

(** [os.path.join(a, b)] of [posixpath]: an absolute [b] replaces [a]. *)
Definition path_join (a b : string) : string :=
  if startswith "/" b then b
  else if negb (nonempty a) || endswith "/" a then a +:+ b
  else a +:+ "/" +:+ b.

(** The file name of a UFO: ['%s-%s.ufo'] of the two names without their
    spaces. *)
Definition ufo_file_name (family_name style_name : string) : string :=
  replace " " "" family_name +:+ "-" +:+ replace " " "" style_name +:+ ".ufo".

Definition build_ufo_path (out_dir family_name style_name : string) : string :=
  path_join out_dir (ufo_file_name family_name style_name).

(** [v.replace], looked up on a value that may not be a string. *)
Definition str_attr {S} (v : value) : M S string :=
  match v with
  | VStr s => mret s
  | _ => raise AttributeError
  end.

Section write_ufo.
(** The file system and the standard output are outside the builder:
    [os.path.exists], [shutil.rmtree], [ufo.save] and [print] act on a
    state [W] that the builder does not inspect otherwise. *)
Context {W : Type}.
Variable path_exists : string → W → bool.
Variable rmtree : string → M W unit.
Variable save : font → string → M W unit.
Variable print : string → M W unit.

Definition clean_ufo (path : string) : M W unit :=
  if endswith ".ufo" path
  then path_there ← gets (path_exists path);
       when path_there (rmtree path)
  else mret tt.

Definition write_ufo (ufo : font) (out_dir : string) : M W unit :=
  family_name ← str_attr (get_info "familyName" ufo);
  style_name ← str_attr (get_info "styleName" ufo);
  let out_path := build_ufo_path out_dir family_name style_name in
  print (">>> Writing " +:+ out_path);;
  clean_ufo out_path;;
  save ufo out_path.
End write_ufo.

(** ** Clearing data *)

(** What [clear_data(val)] leaves at the place of [val]: a list or a
    dictionary is returned after it was cleared in place, for anything else
    [True] is returned and [val] itself stays. *)
Definition cleared (val r : value) : value :=
  match val with
  | VList _ | VDict _ => r
  | _ => val
  end.

(** [clear_data(data)].  The loop over a dictionary deletes entries while it
    iterates over [data.items()]: where [items()] is a list of its own
    (Python 2) that is harmless, where it is a view of the dictionary
    (Python 3) the step after a deletion raises [RuntimeError], the [None]
    of this function.  [items_is_view] tells which of the two holds. *)
Fixpoint clear_data (items_is_view : bool) (data : value) : option value :=
  match data with
  | VDict d =>
      d' ← (fix loop (d : list (string * value)) : option (list (string * value)) :=
              match d with
              | [] => Some []
              | (key, val) :: rest =>
                  r ← clear_data items_is_view val;
                  if truthy r
                  then rest' ← loop rest; Some ((key, cleared val r) :: rest')
                  else if items_is_view then None else loop rest
              end) d;
      Some (VDict d')
  | VList l =>
      l' ← (fix loop (l : list value) : option (list value) :=
              match l with
              | [] => Some []
              | val :: rest =>
                  r ← clear_data items_is_view val;
                  rest' ← loop rest;
                  Some (if truthy r then cleared val r :: rest' else rest')
              end) l;
      Some (VList l')
  | _ => Some (VBool true)
  end.

(** The two loops of [clear_data] by themselves. *)
Fixpoint clear_items (items_is_view : bool) (d : list (string * value))
  : option (list (string * value)) :=
  match d with
  | [] => Some []
  | (key, val) :: rest =>
      r ← clear_data items_is_view val;
      if truthy r
      then rest' ← clear_items items_is_view rest; Some ((key, cleared val r) :: rest')
      else if items_is_view then None else clear_items items_is_view rest
  end.

Fixpoint clear_elements (items_is_view : bool) (l : list value) : option (list value) :=
  match l with
  | [] => Some []
  | val :: rest =>
      r ← clear_data items_is_view val;
      rest' ← clear_elements items_is_view rest;
      Some (if truthy r then cleared val r :: rest' else rest')
  end.

Definition is_container (v : value) : bool :=
  match v with
  | VList _ | VDict _ => true
  | _ => false
  end.

(** No list element and no dictionary value, at any depth, is an empty list
    or an empty dictionary. *)
Fixpoint no_empty (v : value) : bool :=
  match v with
  | VList l => forallb (λ x, (negb (is_container x) || truthy x) && no_empty x) l
  | VDict d => forallb (λ kv, (negb (is_container kv.2) || truthy kv.2) && no_empty kv.2) d
  | _ => true
  end.

(** The values of [v] that are neither lists nor dictionaries, in order. *)
Fixpoint leaves (v : value) : list value :=
  match v with
  | VList l => flat_map leaves l
  | VDict d => flat_map (λ kv, leaves kv.2) d
  | _ => [v]
  end.

(** Some dictionary in [data], at any depth, holds a value that
    [clear_data] leaves empty. *)
Fixpoint deletes_from_dict (data : value) : bool :=
  match data with
  | VDict d =>
      existsb (λ kv, deletes_from_dict kv.2 ||
                     match clear_data false kv.2 with
                     | Some r => negb (truthy r)
                     | None => false
                     end) d
  | VList l => existsb deletes_from_dict l
  | _ => false
  end.

(** What [clear_data] with a list of items does to [data]: anything but a
    list or a dictionary is answered by [True]; a list or a dictionary [r]
    is returned that has no empty list or dictionary inside, has the
    leaves of [data], and is left as it is by a second call. *)
Definition clear_data_post (data r : value) : Prop :=
  if is_container data
  then is_container r = true ∧ no_empty r = true ∧ leaves r = leaves data ∧
       clear_data false r = Some r
  else r = VBool true.

(** *** Sample inputs of the further theorems *)

(** A file system that only knows which UFOs were saved where. *)
Definition saved_exists (path : string) (w : gmap string font) : bool :=
  bool_decide (is_Some (w !! path)).
Definition saved_rmtree (path : string) : M (gmap string font) unit :=
  modify (delete path).
Definition saved_save (ufo : font) (path : string) : M (gmap string font) unit :=
  modify <[path := ufo]>.
Definition silent_print (line : string) : M (gmap string font) unit := mret tt.

(** Data with an empty list and an empty dictionary at two depths. *)
Definition sample_data : value :=
  VDict [("glyphs", VList [VDict [("layers", VList [])]; VInt 0]);
         ("kerning", VDict []);
         ("note", VStr "")].

(** ** Curved quotes *)

(** The four strings that [normalize_custom_param_name] replaces. *)
Definition curved_quotes : list string := [ "‘"; "’"; "“"; "”" ].

(** The character [r] occurs in [s]. *)
Fixpoint has_char (r : ascii) (s : string) : bool :=
  match s with
  | EmptyString => false
  | String c s' => Ascii.eqb c r || has_char r s'
  end.

(** [q] occurs in [s] at a place where [old] does not start. *)
Fixpoint occurs_unmatched (q old s : string) : bool :=
  (startswith q s && negb (startswith old s)) ||
  match s with
  | EmptyString => false
  | String _ s' => occurs_unmatched q old s'
  end.

(** ** Parsing custom parameters *)

(** What a custom parameter dictionary is after [name] and [value] were
    popped. *)
Definition stripped (p : value) : value :=
  match p with
  | VDict d => VDict (assoc_del "value" (assoc_del "name" d))
  | _ => p
  end.

(** [data] after the first loop of [parse_custom_params] went through the
    custom parameters [ps]. *)
Definition params_popped (ps : list value) (data : gmap string value)
  : gmap string value :=
  match data !! "customParameters" with
  | Some _ => <["customParameters" := VList (stripped <$> ps)]> data
  | None => data
  end.

(** ** Base fonts *)

(** A master dictionary: the alignment zones and the guidelines in the
    form the functions that read them take, all other entries as values. *)
Record master : Type := Master {
  m_alignmentZones : option (list (Z * Z));
  m_guideLines : option (list guideline);
  m_data : gmap string value
}.

(** The dictionary of a [.glyphs] source as far as the base fonts read
    it: the date, the masters, and all other entries as values. *)
Record source : Type := Source {
  s_date : option datetime;
  s_fontMaster : option (list master);
  s_data : gmap string value
}.

Definition set_m_data (f : gmap string value → gmap string value) (m : master) : master :=
  Master (m_alignmentZones m) (m_guideLines m) (f (m_data m)).

(** The state while one master is loaded: the master and its font. *)
Definition mstate : Type := master * font.

Definition on_ufo {A} (f : M font A) : M mstate A :=
  λ s, let '(r, u) := f s.2 in (r, (s.1, u)).

(** [master.pop(key)] and [master.pop(key, dflt)] *)
Definition master_pop (key : string) : M mstate value :=
  λ s, match m_data s.1 !! key with
       | Some v => (Ok v, (set_m_data (delete key) s.1, s.2))
       | None => (Raise (KeyError key), s)
       end.

Definition master_pop_default (key : string) (dflt : value) : M mstate value :=
  λ s, (Ok (default dflt (m_data s.1 !! key)), (set_m_data (delete key) s.1, s.2)).

(** [build_style_name(master, ...)]: the three keys are popped from the
    master. *)
Definition master_build_style_name (width_key weight_key custom_key : string)
    (italic : bool) : M mstate string :=
  λ s, let '(r, data) :=
         build_style_name (m_data s.1) width_key weight_key custom_key italic in
       (r, (set_m_data (λ _, data) s.1, s.2)).

(** [master.pop('alignmentZones', [])] *)
Definition master_pop_zones : M mstate (list (Z * Z)) :=
  λ s, (Ok (default [] (m_alignmentZones s.1)),
        (Master None (m_guideLines s.1) (m_data s.1), s.2)).

(** What [parse_custom_params(master, misc_keys)] leaves of the master. *)
Definition master_pop_misc (misc_keys : list string) : M mstate unit :=
  modify (λ s : mstate,
            (set_m_data (λ data, (parse_custom_params data misc_keys).2) s.1, s.2)).

(** The master as [set_guidelines] reads it: only [guideLines] is looked
    up. *)
Definition guidelines_of (m : master) : layer :=
  Layer None None None None (m_guideLines m) None None None None None None false.

Definition set_family_user_data (user_data : value) : M font unit :=
  match user_data with
  | VDict d => for_each d (λ '(key, val), set_lib key val)
  | _ => raise AttributeError
  end.

Definition set_master_user_data (user_data : value) : M font unit :=
  when (truthy user_data)
    (set_lib (GLYPHS_PREFIX +:+ "fontMaster.userData") user_data).

(** Python compares dictionary keys by value: [True] is the key [1]. *)
Definition key_eqb (a b : value) : bool :=
  match a, b with
  | VNone, VNone => true
  | VStr s, VStr t => String.eqb s t
  | VInt x, VInt y => x =? y
  | VBool x, VBool y => Bool.eqb x y
  | VInt x, VBool y | VBool y, VInt x => x =? (if y then 1 else 0)
  | _, _ => false
  end.

Definition hashable (v : value) : bool :=
  match v with
  | VList _ | VDict _ => false
  | _ => true
  end.

(** [ufos[key] = ufo]: the entry of an equal key is replaced where it is,
    a new key goes to the end. *)
Fixpoint dict_set (ufos : list (value * font)) (key : value) (ufo : font)
  : list (value * font) :=
  match ufos with
  | [] => [(key, ufo)]
  | (k, u) :: ufos' =>
      if key_eqb k key then (k, ufo) :: ufos' else (k, u) :: dict_set ufos' key ufo
  end.

(** The values [generate_base_fonts] pops from the source before the loop. *)
Record shared : Type := Shared {
  date_created : string;
  units_per_em : value;
  version_major : value;
  version_minor : value;
  user_data : value;
  copyright : value;
  designer : value;
  designer_url : value;
  manufacturer : value;
  manufacturer_url : value;
  custom_params : list (value * value)
}.

Section base_fonts.
(** [hasattr(ufo.info, name)] and the check of a value assigned to the info
    object are [defcon]'s. *)
Variable info_hasattr : string → bool.
Variable info_accepts : string → value → bool.

(** The body of the loop of [generate_base_fonts] over the masters, on a
    fresh font; it returns the master id.  The assignments to the info
    object made here and in [set_blue_values] carry the check of the info
    object.  [set_redundant_data], [set_guidelines] and [set_custom_params]
    are the functions above, which store without it: the first two assign
    classes of the code tables, style-map names, the names of the font and
    guidelines with an angle from 0 to 359; the custom parameters are
    assigned as the source has them. *)
Definition load_master (sh : shared) (family_name : value) : M mstate value :=
  on_ufo (assign_info info_accepts "openTypeHeadCreated" (VStr (date_created sh)));;
  on_ufo (assign_info info_accepts "unitsPerEm" (units_per_em sh));;
  on_ufo (assign_info info_accepts "versionMajor" (version_major sh));;
  on_ufo (assign_info info_accepts "versionMinor" (version_minor sh));;
  on_ufo (when (truthy (copyright sh))
            (assign_info info_accepts "copyright" (copyright sh)));;
  on_ufo (when (truthy (designer sh))
            (assign_info info_accepts "openTypeNameDesigner" (designer sh)));;
  on_ufo (when (truthy (designer_url sh))
            (assign_info info_accepts "openTypeNameDesignerURL" (designer_url sh)));;
  on_ufo (when (truthy (manufacturer sh))
            (assign_info info_accepts "openTypeNameManufacturer" (manufacturer sh)));;
  on_ufo (when (truthy (manufacturer_url sh))
            (assign_info info_accepts "openTypeNameManufacturerURL"
               (manufacturer_url sh)));;
  ascender ← master_pop "ascender";
  on_ufo (assign_info info_accepts "ascender" ascender);;
  cap_height ← master_pop "capHeight";
  on_ufo (assign_info info_accepts "capHeight" cap_height);;
  descender ← master_pop "descender";
  on_ufo (assign_info info_accepts "descender" descender);;
  x_height ← master_pop "xHeight";
  on_ufo (assign_info info_accepts "xHeight" x_height);;
  horizontal_stems ← master_pop_default "horizontalStems" VNone;
  vertical_stems ← master_pop_default "verticalStems" VNone;
  angle ← master_pop_default "italicAngle" (VInt 0);
  italic_angle ← lift (value_neg angle);
  on_ufo (when (truthy horizontal_stems)
            (assign_info info_accepts "postscriptStemSnapH" horizontal_stems));;
  on_ufo (when (truthy vertical_stems)
            (assign_info info_accepts "postscriptStemSnapV" vertical_stems));;
  on_ufo (when (truthy italic_angle)
            (assign_info info_accepts "italicAngle" italic_angle));;
  on_ufo (assign_info info_accepts "familyName" family_name);;
  style_name ← master_build_style_name "width" "weight" "custom" (truthy italic_angle);
  on_ufo (assign_info info_accepts "styleName" (VStr style_name));;
  on_ufo set_redundant_data;;
  zones ← master_pop_zones;
  on_ufo (set_blue_values info_accepts zones);;
  on_ufo (set_family_user_data (user_data sh));;
  master_user_data ← master_pop_default "userData" (VDict []);
  on_ufo (set_master_user_data master_user_data);;
  m ← gets fst;
  on_ufo (set_guidelines None (guidelines_of m) true);;
  on_ufo (set_custom_params info_hasattr (Some (custom_params sh)) None [] []);;
  let misc := ["customValue"; "weightValue"; "widthValue"] in
  m ← gets fst;
  master_pop_misc misc;;
  on_ufo (set_custom_params info_hasattr None (Some (m_data m)) misc misc);;
  master_id ← master_pop "id";
  on_ufo (set_lib (GLYPHS_PREFIX +:+ "fontMasterID") master_id);;
  mret master_id.

(** The loop over the masters: each master is loaded into a fresh font;
    the masters are returned as the loop leaves them. *)
Fixpoint load_masters (sh : shared) (family_name : value) (masters : list master)
    (ufos : list (value * font)) (master_id_order : list value)
  : result (list (value * font) * list value) * list master :=
  match masters with
  | [] => (Ok (ufos, master_id_order), [])
  | m :: masters' =>
      match load_master sh family_name (m, empty_font) with
      | (Raise e, (m', _)) => (Raise e, m' :: masters')
      | (Ok master_id, (m', ufo)) =>
          if hashable master_id
          then let '(r, rest) :=
                 load_masters sh family_name masters'
                   (dict_set ufos master_id ufo) (master_id_order ++ [master_id]) in
               (r, m' :: rest)
          else (Raise TypeError, m' :: masters')
      end
  end.

(** [data.pop(key)] on the entries of the source. *)
Definition source_pop (key : string) : M source value :=
  λ data, match s_data data !! key with
          | Some v => (Ok v, Source (s_date data) (s_fontMaster data)
                                    (delete key (s_data data)))
          | None => (Raise (KeyError key), data)
          end.

Definition source_pop_default (key : string) (dflt : value) : M source value :=
  λ data, (Ok (default dflt (s_data data !! key)),
           Source (s_date data) (s_fontMaster data) (delete key (s_data data))).

Definition generate_base_fonts (family_name : value)
  : M source (list (value * font) * list value) :=
  date ← ((λ data : source,
             match s_date data with
             | Some d => (Ok d, Source None (s_fontMaster data) (s_data data))
             | None => (Raise (KeyError "date"), data)
             end) : M source datetime);
  let date_created := to_ufo_time date in
  units_per_em ← source_pop "unitsPerEm";
  version_major ← source_pop "versionMajor";
  version_minor ← source_pop "versionMinor";
  user_data ← source_pop_default "userData" (VDict []);
  copyright ← source_pop_default "copyright" VNone;
  designer ← source_pop_default "designer" VNone;
  designer_url ← source_pop_default "designerURL" VNone;
  manufacturer ← source_pop_default "manufacturer" VNone;
  manufacturer_url ← source_pop_default "manufacturerURL" VNone;
  let misc := ["DisplayStrings"; "disablesAutomaticAlignment"; "disablesNiceNames"] in
  custom_params ← ((λ data : source,
                      let '(params, data') := parse_custom_params (s_data data) misc in
                      (params, Source (s_date data) (s_fontMaster data) data'))
                    : M source (list (value * value)));
  let sh := Shared date_created units_per_em version_major version_minor user_data
                   copyright designer designer_url manufacturer manufacturer_url
                   custom_params in
  ((λ data : source,
      match s_fontMaster data with
      | None => (Raise (KeyError "fontMaster"), data)
      | Some masters =>
          let '(r, masters') := load_masters sh family_name masters [] [] in
          (r, Source (s_date data) (Some masters') (s_data data))
      end) : M source (list (value * font) * list value)).
End base_fonts.

(** *** Vocabulary of the theorems on base fonts *)

(** A font that has only metadata: no groups, no kerning, and the layers
    of a fresh font. *)
Definition base_frame (u : font) : Prop :=
  groups u = ∅ ∧ kerning u = ∅ ∧ layers u = layers empty_font.

Definition fontMasterID_key : string := GLYPHS_PREFIX +:+ "fontMasterID".

(** The entry is absent or a string; absent or an integer. *)
Definition str_or_absent (o : option value) : Prop :=
  o = None ∨ ∃ s, o = Some (VStr s).
Definition int_or_absent (o : option value) : Prop :=
  o = None ∨ ∃ z, o = Some (VInt z).

(** A date that [datetime] can hold and that [strftime] formats in one
    way everywhere: the year has four digits and is not before 1900. *)
Definition datetime_ok (d : datetime) : Prop :=
  1900 ≤ Z.of_nat (year d) ≤ 9999 ∧
  (1 ≤ month d ≤ 12 ∧ 1 ≤ day d ≤ 31 ∧ hour d < 24 ∧ minute d < 60 ∧ second d < 60)%nat.

Section base_fonts_ready.
Variable info_hasattr : string → bool.
Variable info_accepts : string → value → bool.

(** The entry is there and the info object takes it for the attribute
    [name]. *)
Definition accepted_entry (name : string) (o : option value) : Prop :=
  ∃ v, o = Some v ∧ info_accepts name v = true.

(** The entry is absent or falsy, or the info object takes it. *)
Definition accepted_if_truthy (name : string) (o : option value) : Prop :=
  ∀ v, o = Some v → truthy v = true → info_accepts name v = true.

(** The parameter can be rewritten, and where [set_custom_params] places it
    in the info object, the info object takes it. *)
Definition param_ready (non_info : list string) (p : value * value) : Prop :=
  ∃ name val,
    rewrite_custom_param p = Ok (name, val) ∧
    (info_hasattr name && negb (str_in name non_info) = true →
     info_accepts name val = true).

(** The custom parameters of [data] are the dictionaries [ps], which hold
    the names and values [nvs]; these and the entries of [misc_keys] are
    all ready. *)
Definition params_ready (non_info : list string) (data : gmap string value)
    (misc_keys : list string) (ps : list value) (nvs : list (value * value)) : Prop :=
  (data !! "customParameters" = None ∧ ps = [] ∨
   data !! "customParameters" = Some (VList ps)) ∧
  Forall2 (λ p nv, ∃ d, p = VDict d ∧ assoc_get d "name" = Ok nv.1 ∧
                        assoc_get d "value" = Ok nv.2) ps nvs ∧
  Forall (param_ready non_info)
         (nvs ++ omap (λ key, (λ val, (VStr key, val)) <$> data !! key) misc_keys).

(** A master that [generate_base_fonts] can load, with its id: the four
    metrics are there, the style tokens are strings, the italic angle is an
    integer, the guidelines have positions, the id is hashable, and the
    info object takes every value that is assigned to it. *)
Definition master_ready (m : master) (master_id : value) : Prop :=
  accepted_entry "ascender" (m_data m !! "ascender") ∧
  accepted_entry "capHeight" (m_data m !! "capHeight") ∧
  accepted_entry "descender" (m_data m !! "descender") ∧
  accepted_entry "xHeight" (m_data m !! "xHeight") ∧
  accepted_if_truthy "postscriptStemSnapH" (m_data m !! "horizontalStems") ∧
  accepted_if_truthy "postscriptStemSnapV" (m_data m !! "verticalStems") ∧
  int_or_absent (m_data m !! "italicAngle") ∧
  (∀ z, m_data m !! "italicAngle" = Some (VInt z) → z ≠ 0 →
        info_accepts "italicAngle" (VInt (- z)) = true) ∧
  str_or_absent (m_data m !! "width") ∧ str_or_absent (m_data m !! "weight") ∧
  str_or_absent (m_data m !! "custom") ∧
  (let zones := blue_loop (sorted_zones (default [] (m_alignmentZones m))) [] [] in
   info_accepts "postscriptBlueValues" (VList (VInt <$> zones.1)) = true ∧
   info_accepts "postscriptOtherBlues" (VList (VInt <$> zones.2)) = true) ∧
  Forall (λ g, is_Some (gl_position g)) (default [] (m_guideLines m)) ∧
  (∃ ps nvs, params_ready ["customValue"; "weightValue"; "widthValue"] (m_data m)
               ["customValue"; "weightValue"; "widthValue"] ps nvs) ∧
  m_data m !! "id" = Some master_id ∧ hashable master_id = true.

(** A source that [generate_base_fonts] can load for the family name
    [family], with its masters and their ids. *)
Definition source_ready (family : string) (data : source) (masters : list master)
    (ids : list value) : Prop :=
  (∃ d, s_date data = Some d ∧ datetime_ok d ∧
        info_accepts "openTypeHeadCreated" (VStr (to_ufo_time d)) = true) ∧
  accepted_entry "unitsPerEm" (s_data data !! "unitsPerEm") ∧
  accepted_entry "versionMajor" (s_data data !! "versionMajor") ∧
  accepted_entry "versionMinor" (s_data data !! "versionMinor") ∧
  accepted_if_truthy "copyright" (s_data data !! "copyright") ∧
  accepted_if_truthy "openTypeNameDesigner" (s_data data !! "designer") ∧
  accepted_if_truthy "openTypeNameDesignerURL" (s_data data !! "designerURL") ∧
  accepted_if_truthy "openTypeNameManufacturer" (s_data data !! "manufacturer") ∧
  accepted_if_truthy "openTypeNameManufacturerURL" (s_data data !! "manufacturerURL") ∧
  (s_data data !! "userData" = None ∨ ∃ d, s_data data !! "userData" = Some (VDict d)) ∧
  (∃ ps nvs, params_ready [] (s_data data)
               ["DisplayStrings"; "disablesAutomaticAlignment"; "disablesNiceNames"]
               ps nvs) ∧
  info_accepts "familyName" (VStr family) = true ∧
  (∀ style_name, info_accepts "styleName" (VStr style_name) = true) ∧
  s_fontMaster data = Some masters ∧
  Forall2 master_ready masters ids.

(** The values popped from the source are ready for every master. *)
Definition shared_ready (family : string) (sh : shared) : Prop :=
  info_accepts "openTypeHeadCreated" (VStr (date_created sh)) = true ∧
  info_accepts "unitsPerEm" (units_per_em sh) = true ∧
  info_accepts "versionMajor" (version_major sh) = true ∧
  info_accepts "versionMinor" (version_minor sh) = true ∧
  (truthy (copyright sh) = true → info_accepts "copyright" (copyright sh) = true) ∧
  (truthy (designer sh) = true →
   info_accepts "openTypeNameDesigner" (designer sh) = true) ∧
  (truthy (designer_url sh) = true →
   info_accepts "openTypeNameDesignerURL" (designer_url sh) = true) ∧
  (truthy (manufacturer sh) = true →
   info_accepts "openTypeNameManufacturer" (manufacturer sh) = true) ∧
  (truthy (manufacturer_url sh) = true →
   info_accepts "openTypeNameManufacturerURL" (manufacturer_url sh) = true) ∧
  (∃ d, user_data sh = VDict d) ∧
  Forall (param_ready []) (custom_params sh) ∧
  info_accepts "familyName" (VStr family) = true ∧
  (∀ style_name, info_accepts "styleName" (VStr style_name) = true).
End base_fonts_ready.

(** The fonts stored one after the other under their ids. *)
Definition stored (ids : list value) (fonts : list font) : list (value * font) :=
  fold_left (λ ufos '(master_id, ufo), dict_set ufos master_id ufo) (zip ids fonts) [].

(** A source with two masters. *)
Definition sample_master (master_id weight : string) : master :=
  Master (Some [(0, -16); (700, 16)]) None
    {[ "ascender" := VInt 800; "capHeight" := VInt 700; "descender" := VInt (-200);
       "xHeight" := VInt 500; "weight" := VStr weight; "id" := VStr master_id;
       "weightValue" := VInt 400 ]}.

Definition sample_source : source :=
  Source (Some (Datetime 2016 7 4 12 30 5))
         (Some [sample_master "M1" "Regular"; sample_master "M2" "Bold"])
         {[ "unitsPerEm" := VInt 1000; "versionMajor" := VInt 1;
            "versionMinor" := VInt 0; "copyright" := VStr "(c) 2016";
            "customParameters" :=
              VList [VDict [("name", VStr "hheaAscender"); ("value", VInt 950)]] ]}.

(** No two of the keys are equal as dictionary keys. *)
Fixpoint distinct_keys (ids : list value) : bool :=
  match ids with
  | [] => true
  | k :: ks => forallb (λ k', negb (key_eqb k k')) ks && distinct_keys ks
  end.

(** [lib[key] = val] for each entry in turn. *)
Definition store_entries (d : list (string * value)) (lb : gmap string value)
  : gmap string value :=
  fold_left (λ lb '(key, val), <[key := val]> lb) d lb.

(** ** Entries of a glyph's lib *)

(** The glyph at [h] exists and its lib has the entry [v] at [key]. *)
Definition lib_entry (h : glyph_ref) (key : string) (v : option value) (u : font)
  : Prop :=
  ∃ g, glyph_at h u = Some g ∧ g_lib g !! key = v.

(** The keys of a glyph's lib that [load_glyph] writes apart from the
    metrics keys. *)
Definition other_glyph_lib_keys : list string :=
  [ glyphlib_prefix +:+ "lastChange"; glyphlib_prefix +:+ "ColorIndex";
    PUBLIC_PREFIX +:+ "markColor"; glyphlib_prefix +:+ "Export";
    PUBLIC_PREFIX +:+ "postscriptName";
    GLYPHS_PREFIX +:+ "annotations"; GLYPHS_PREFIX +:+ "hints";
    GLYPHS_PREFIX +:+ "componentsDisableAlignment";
    GLYPHS_PREFIX +:+ "componentsLocked" ].

(** The metrics key that [load_glyph] uses: the one of the layer if the
    layer has the entry, else the one of the glyph. *)
Definition metrics_key_of (layer_field : option value) (data_field : option value)
  : value :=
  match layer_field with
  | Some v => v
  | None => default VNone data_field
  end.

Definition metrics_keys (l : layer) (gd : glyph_metadata)
  : list (string * value) :=
  [ ("leftMetricsKey", metrics_key_of (l_leftMetricsKey l) (gd_leftMetricsKey gd));
    ("rightMetricsKey", metrics_key_of (l_rightMetricsKey l) (gd_rightMetricsKey gd));
    ("widthMetricsKey", metrics_key_of (l_widthMetricsKey l) (gd_widthMetricsKey gd)) ].

(** A layer whose left metrics key is empty, for a glyph that has one. *)
Definition layer_with_empty_metrics_key : layer :=
  Layer (Some (VInt 600)) None None None None None None None
        (Some (VStr "")) None None false.

Definition metadata_with_metrics_keys : glyph_metadata :=
  GlyphMetadata None None None None (Some (VStr "=H")) None None (Some (VStr "=H")) None.

(** ** The translation of a document *)

(** *** Whitespace and lines *)

(** The string of the bytes [codes]. *)
Definition bytes (codes : list nat) : string :=
  fold_right (λ n s, String (ascii_of_nat n) s) "" codes.

Definition newline : string := bytes [10%nat].

(** The characters that [str.isspace] takes for whitespace, in UTF-8:
    U+0009 to U+000D, U+001C to U+0020, U+0085, U+00A0, U+1680, U+2000 to
    U+200A, U+2028, U+2029, U+202F, U+205F and U+3000. *)
Definition whitespace : list string :=
  bytes <$> [ [9]; [10]; [11]; [12]; [13]; [28]; [29]; [30]; [31]; [32];
              [194; 133]; [194; 160]; [225; 154; 128];
              [226; 128; 128]; [226; 128; 129]; [226; 128; 130]; [226; 128; 131];
              [226; 128; 132]; [226; 128; 133]; [226; 128; 134]; [226; 128; 135];
              [226; 128; 136]; [226; 128; 137]; [226; 128; 138];
              [226; 128; 168]; [226; 128; 169]; [226; 128; 175];
              [226; 129; 159]; [227; 128; 128] ]%nat.

(** The line boundaries of [str.splitlines], in UTF-8: CR LF first, then
    LF, CR, VT, FF, U+001C to U+001E, U+0085, U+2028 and U+2029. *)
Definition line_boundaries : list string :=
  bytes <$> [ [13; 10]; [10]; [13]; [11]; [12]; [28]; [29]; [30];
              [194; 133]; [226; 128; 168]; [226; 128; 169] ]%nat.

(** Drop the strings of [chars] from the start of [s]; the fuel is the
    length of [s]. *)
Fixpoint lstrip_go (fuel : nat) (chars : list string) (s : string) : string :=
  match fuel with
  | O => s
  | S fuel' =>
      match match_alternatives chars s with
      | Some w =>
          if nonempty w then lstrip_go fuel' chars (string_drop (String.length w) s)
          else s
      | None => s
      end
  end.

(** [s.strip()] *)
Definition strip (s : string) : string :=
  let s := lstrip_go (String.length s) whitespace s in
  String.rev (lstrip_go (String.length s) (String.rev <$> whitespace) (String.rev s)).

(** [s.splitlines()]: [line] is the line read so far; the fuel is the
    length of [s]. *)
Fixpoint splitlines_go (fuel : nat) (line s : string) : list string :=
  match s with
  | EmptyString => if nonempty line then [line] else []
  | String c s' =>
      match fuel with
      | O => []
      | S fuel' =>
          match match_alternatives line_boundaries s with
          | Some b => line :: splitlines_go fuel' "" (string_drop (String.length b) s)
          | None => splitlines_go fuel' (line +:+ String c "") s'
          end
      end
  end.

Definition splitlines (s : string) : list string :=
  splitlines_go (String.length s) "" s.

(** *** The document *)

(** A feature prefix, a class or a feature of the source. *)
Record feature_dict : Type := FeatureDict {
  fd_name : option string;
  fd_code : option string;
  fd_automatic : option value;
  fd_disabled : option value;
  fd_notes : option string
}.

(** A layer of a glyph as [to_ufos] meets it: the three entries that
    [to_ufos] pops, and the rest of the dictionary, which [load_glyph] or
    [set_glyph_background] takes. *)
Record layer_dict : Type := LayerDict {
  ly_layerId : option string;
  ly_name : option string;
  ly_associatedMasterId : option string;
  ly_data : layer
}.

(** A glyph of the source: its name and its kerning groups, which are
    strings, its metadata, and its layers. *)
Record glyph_dict : Type := GlyphDict {
  gy_names : gmap string string;
  gy_metadata : glyph_metadata;
  gy_layers : option (list layer_dict)
}.

(** The dictionary of a [.glyphs] source as [to_ufos] reads it;
    [d_source] holds the entries that [generate_base_fonts] reads. *)
Record document : Type := Document {
  d_appVersion : option Z;
  d_familyName : option value;
  d_featurePrefixes : option (list feature_dict);
  d_classes : option (list feature_dict);
  d_features : option (list feature_dict);
  d_source : source;
  d_glyphs : option (list glyph_dict);
  d_kerning : option (list (string * list (string * list (string * Z))));
  d_instances : option value
}.

(** The lines that [to_ufos] and the kerning loader print as warnings, by
    the values formatted into their text. *)
Inductive message : Type :=
  | OutdatedVersion
  | IllegalGlyphName (glyph_name : string)
  | KerningWarning (w : warning).

(** The objects that [to_ufos] works on: the fonts by master id, the
    feature text of each font, the local variables of the function, and the
    warnings printed. *)
Record translation : Type := Translation {
  t_ufos : list (value * font);
  t_features : list (value * string);
  t_kerning_groups : gmap string (list string);
  t_glyph_order : list string;
  t_supplementary_bg_data : list (string * string * string * layer);
  t_stderr : list message
}.

Definition no_translation : translation := Translation [] [] ∅ [] [] [].

Definition set_ufos (f : list (value * font) → list (value * font)) (s : translation)
  : translation :=
  Translation (f (t_ufos s)) (t_features s) (t_kerning_groups s) (t_glyph_order s)
              (t_supplementary_bg_data s) (t_stderr s).
Definition set_features (f : list (value * string) → list (value * string))
    (s : translation) : translation :=
  Translation (t_ufos s) (f (t_features s)) (t_kerning_groups s) (t_glyph_order s)
              (t_supplementary_bg_data s) (t_stderr s).
Definition set_kerning_groups (f : gmap string (list string) → gmap string (list string))
    (s : translation) : translation :=
  Translation (t_ufos s) (t_features s) (f (t_kerning_groups s)) (t_glyph_order s)
              (t_supplementary_bg_data s) (t_stderr s).
Definition set_glyph_order (f : list string → list string) (s : translation)
  : translation :=
  Translation (t_ufos s) (t_features s) (t_kerning_groups s) (f (t_glyph_order s))
              (t_supplementary_bg_data s) (t_stderr s).
Definition set_supplementary_bg_data
    (f : list (string * string * string * layer) → list (string * string * string * layer))
    (s : translation) : translation :=
  Translation (t_ufos s) (t_features s) (t_kerning_groups s) (t_glyph_order s)
              (f (t_supplementary_bg_data s)) (t_stderr s).
Definition set_stderr (f : list message → list message) (s : translation)
  : translation :=
  Translation (t_ufos s) (t_features s) (t_kerning_groups s) (t_glyph_order s)
              (t_supplementary_bg_data s) (f (t_stderr s)).

(** [warn(message)] in [to_ufos] *)
Definition print_warning (m : message) : M translation unit :=
  modify (set_stderr (λ l, l ++ [m])).

(** [ufos[key]] *)
Fixpoint ufos_get (ufos : list (value * font)) (key : value) : option font :=
  match ufos with
  | [] => None
  | (k, u) :: ufos' => if key_eqb k key then Some u else ufos_get ufos' key
  end.

(** The text of a key that is a string. *)
Definition key_text (key : value) : string :=
  match key with
  | VStr s => s
  | _ => ""
  end.

(** Run [m] on the font object [ufos[master_id]], which is changed in
    place. *)
Definition on_ufos {A} (master_id : value) (m : M font A) : M translation A :=
  λ s, match ufos_get (t_ufos s) master_id with
       | None => (Raise (KeyError (key_text master_id)), s)
       | Some u =>
           let '(r, u') := m u in
           (r, set_ufos (λ ufos, dict_set ufos master_id u') s)
       end.

(** The glyph object of the name [glyph_name] in the default layer of a
    font. *)
Definition default_glyph (glyph_name : string) : glyph_ref :=
  ("public.default", glyph_name).

(** [re.match(r'^([A-Za-z_][\w.]*|\.notdef)$', glyph_name)], with [\w] on
    the ASCII characters; [$] matches at the end and before a line feed at
    the end. *)
Definition is_name_start (c : ascii) : bool :=
  let n := nat_of_ascii c in
  (Nat.leb 65 n && Nat.leb n 90) || (Nat.leb 97 n && Nat.leb n 122) || Nat.eqb n 95.

Definition is_name_char (c : ascii) : bool :=
  let n := nat_of_ascii c in
  is_name_start c || (Nat.leb 48 n && Nat.leb n 57) || Nat.eqb n 46.

Fixpoint all_chars (p : ascii → bool) (s : string) : bool :=
  match s with
  | EmptyString => true
  | String c s' => p c && all_chars p s'
  end.

Definition legal_glyph_name (glyph_name : string) : bool :=
  let name :=
    if endswith newline glyph_name
    then String.substring 0 (String.length glyph_name - 1) glyph_name
    else glyph_name in
  match name with
  | EmptyString => false
  | String c name' =>
      (is_name_start c && all_chars is_name_char name') || String.eqb name ".notdef"
  end.

(** *** The feature file *)

(** The tuples that [to_ufos] pops out of a feature prefix or a class, and
    out of a feature. *)
Definition pop_field {A} (key : string) (field : option A) : result A :=
  match field with
  | Some v => Ok v
  | None => Raise (KeyError key)
  end.

Definition pop_prefix_or_class (f : feature_dict) : result (string * string * value) :=
  name ← pop_field "name" (fd_name f);
  code ← pop_field "code" (fd_code f);
  Ok (name, code, default VNone (fd_automatic f)).

Definition pop_feature (f : feature_dict)
  : result (string * string * value * value * option string) :=
  name ← pop_field "name" (fd_name f);
  code ← pop_field "code" (fd_code f);
  Ok (name, code, default VNone (fd_automatic f), default VNone (fd_disabled f),
      fd_notes f).

Definition autostr (automatic : value) : string :=
  if truthy automatic then "# automatic" +:+ newline else "".

(** The text that [add_features_to_ufo] assigns to [ufo.features.text]. *)
Definition features_text (feature_prefixes classes : list (string * string * value))
    (features : list (string * string * value * value * option string)) : string :=
  let prefix_str :=
    join (newline +:+ newline)
      ((λ '(name, code, automatic),
          "# Prefix: " +:+ name +:+ newline +:+ autostr automatic +:+ strip code)
         <$> feature_prefixes) in
  let class_defs :=
    (λ '(name, code, automatic),
       let name := if startswith "@" name then name else "@" +:+ name in
       autostr automatic +:+ name +:+ " = [ " +:+ code +:+ " ];") <$> classes in
  let class_str := join (newline +:+ newline) class_defs in
  let feature_defs :=
    (λ '(name, code, automatic, disabled, notes),
       let code := strip code in
       let lines :=
         ["feature " +:+ name +:+ " {"]
         ++ (if nonempty (default "" notes)
             then "# notes:" :: ((λ line, "# " +:+ line) <$> splitlines (default "" notes))
             else [])
         ++ (if truthy automatic then ["# automatic"] else [])
         ++ (if truthy disabled
             then "# disabled" :: ((λ line, "#" +:+ line) <$> splitlines code)
             else [code])
         ++ ["} " +:+ name +:+ ";"] in
       join newline lines) <$> features in
  let fea_str := join (newline +:+ newline) feature_defs in
  let full_text := join (newline +:+ newline) [prefix_str; class_str; fea_str] in
  if nonempty (strip full_text) then full_text else "".

(** [add_features_to_ufo(ufo, ...)] for the font of the master
    [master_id]. *)
Definition add_features_to_ufo (master_id : value)
    (feature_prefixes classes : list (string * string * value))
    (features : list (string * string * value * value * option string))
  : M translation unit :=
  modify (set_features
            (λ fs, fs ++ [(master_id, features_text feature_prefixes classes features)])).

(** *** The loops of [to_ufos] *)

(** The body of the loop over the layers of a glyph. *)
Definition to_ufos_layer (glyph_name : string) (glyph_data : glyph_metadata)
    (layer : layer_dict) : M translation unit :=
  layer_id ← lift (pop_field "layerId" (ly_layerId layer));
  let layer_name := ly_name layer in
  match ly_associatedMasterId layer with
  | Some assoc_id =>
      match layer_name with
      | Some layer_name =>
          modify (set_supplementary_bg_data
                    (λ l, l ++ [(assoc_id, glyph_name, layer_name, ly_data layer)]))
      | None => mret tt
      end
  | None =>
      on_ufos (VStr layer_id)
        (newGlyph (default_glyph glyph_name);;
         load_glyph (default_glyph glyph_name) (ly_data layer) glyph_data)
  end.

(** The body of the loop over the glyphs. *)
Definition to_ufos_glyph (glyph : glyph_dict) : M translation unit :=
  names ← (λ s, match add_glyph_to_groups (t_kerning_groups s) (gy_names glyph) with
                | Ok (kerning_groups, names) =>
                    (Ok names, set_kerning_groups (λ _, kerning_groups) s)
                | Raise e => (Raise e, s)
                end);
  glyph_name ← lift (pop_field "glyphname" (names !! "glyphname"));
  modify (set_glyph_order (λ l, l ++ [glyph_name]));;
  when (negb (legal_glyph_name glyph_name)) (print_warning (IllegalGlyphName glyph_name));;
  layers ← lift (pop_field "layers" (gy_layers glyph));
  for_each layers (to_ufos_layer glyph_name (gy_metadata glyph)).

(** The body of the loop over the backgrounds from associated layers. *)
Definition to_ufos_background (bg : string * string * string * layer)
  : M translation unit :=
  let '(layer_id, glyph_name, bg_name, bg_data) := bg in
  on_ufos (VStr layer_id)
    (has_glyph ← gets (λ u, bool_decide (is_Some (glyph_at (default_glyph glyph_name) u)));
     if has_glyph : bool
     then set_glyph_background (default_glyph glyph_name) bg_name (Some bg_data)
     else raise (KeyError glyph_name)).

(** [load_kerning(ufos[master_id], kerning)]; the warnings go to the
    standard error. *)
Definition to_ufos_kerning (entry : string * list (string * list (string * Z)))
  : M translation unit :=
  let '(master_id, kerning) := entry in
  λ s, match ufos_get (t_ufos s) (VStr master_id) with
       | None => (Raise (KeyError master_id), s)
       | Some u =>
           let '(r, (u', ws)) := load_kerning kerning (u, []) in
           (r, set_stderr (λ l, l ++ (KerningWarning <$> ws))
                 (set_ufos (λ ufos, dict_set ufos (VStr master_id) u') s))
       end.

(** [[ufos[master_id] for master_id in master_id_order]] *)
Fixpoint ufos_list (ufos : list (value * font)) (master_id_order : list value)
  : result (list font) :=
  match master_id_order with
  | [] => Ok []
  | master_id :: order' =>
      match ufos_get ufos master_id with
      | Some u => rest ← ufos_list ufos order'; Ok (u :: rest)
      | None => Raise (KeyError (key_text master_id))
      end
  end.

Section to_ufos.
(** The attributes and the checks of the info object are [defcon]'s, and
    [propagate_font_anchors] is a function of [glyphsLib.anchors]. *)
Variable info_hasattr : string → bool.
Variable info_accepts : string → value → bool.
Variable propagate_font_anchors : M font unit.

(** The body of the loop over the fonts, for the font of the master
    [master_id]. *)
Definition to_ufos_finish (feature_prefixes classes : list (string * string * value))
    (features : list (string * string * value * value * option string))
    (master_id : value) : M translation unit :=
  on_ufos master_id propagate_font_anchors;;
  add_features_to_ufo master_id feature_prefixes classes features;;
  kerning_groups ← gets t_kerning_groups;
  on_ufos master_id (add_groups_to_ufo kerning_groups);;
  glyph_order ← gets t_glyph_order;
  on_ufos master_id (set_lib (PUBLIC_PREFIX +:+ "glyphOrder") (VList (VStr <$> glyph_order))).

(** [to_ufos(data, include_instances, family_name)] with [debug] off: the
    fonts in the order of the masters, and the instances, which the caller
    gets when [include_instances] is set.  [family_name = None] stands for
    the argument [None]. *)
Definition to_ufos (data : document) (family_name : option value)
  : M translation (list font * (value * value)) :=
  when (default 0 (d_appVersion data) <? 895) (print_warning OutdatedVersion);;
  source_family_name ← lift (pop_field "familyName" (d_familyName data));
  let family_name := default source_family_name family_name in
  feature_prefixes ← lift (mapM pop_prefix_or_class (default [] (d_featurePrefixes data)));
  classes ← lift (mapM pop_prefix_or_class (default [] (d_classes data)));
  features ← lift (mapM pop_feature (default [] (d_features data)));
  base ← lift (generate_base_fonts info_hasattr info_accepts family_name (d_source data)).1;
  modify (set_ufos (λ _, base.1));;
  let master_id_order := base.2 in
  glyphs ← lift (pop_field "glyphs" (d_glyphs data));
  for_each glyphs to_ufos_glyph;;
  supplementary_bg_data ← gets t_supplementary_bg_data;
  for_each supplementary_bg_data to_ufos_background;;
  ufos ← gets t_ufos;
  for_each ufos.*1 (to_ufos_finish feature_prefixes classes features);;
  for_each (default [] (d_kerning data)) to_ufos_kerning;;
  ufos ← gets t_ufos;
  result ← lift (ufos_list ufos master_id_order);
  mret (result, (source_family_name, default (VList []) (d_instances data))).
End to_ufos.

(** *** Vocabulary of the theorems on the translation *)

(** The dictionaries whose paths the translation draws for a layer of a
    glyph: a layer without [associatedMasterId] and its background; a layer
    with [associatedMasterId] and a name; nothing for a layer with
    [associatedMasterId] and no name. *)
Definition drawn_layers (l : layer_dict) : list layer :=
  match ly_associatedMasterId l with
  | None =>
      ly_data l :: match l_background (ly_data l) with
                   | Some background => [background]
                   | None => []
                   end
  | Some _ =>
      match ly_name l with
      | Some _ => [ly_data l]
      | None => []
      end
  end.

(** Some path of the dictionary is open and does not start with a line. *)
Definition has_bad_open (l : layer) : Prop :=
  Exists bad_open (default [] (l_paths l)).

(** Some layer of some glyph holds such a path. *)
Definition holds_bad_open (glyphs : list glyph_dict) : Prop :=
  Exists (λ g, Exists (λ l, has_bad_open (ly_data l)) (default [] (gy_layers g))) glyphs.

(** Some layer of some glyph holds such a path in a dictionary that is
    drawn. *)
Definition draws_bad_open (glyphs : list glyph_dict) : Prop :=
  Exists (λ g, Exists (λ l, Exists has_bad_open (drawn_layers l))
                      (default [] (gy_layers g))) glyphs.

(** A background queued by [to_ufos] that holds such a path. *)
Definition bad_background (bg : string * string * string * layer) : Prop :=
  has_bad_open bg.2.

(** Some background in the queue holds such a path. *)
Definition queued (s : translation) : Prop :=
  Exists bad_background (t_supplementary_bg_data s).

(** The translation returns [n] fonts, whatever the anchor propagation
    does, as long as it returns. *)
Definition translated (info_hasattr : string → bool)
    (info_accepts : string → value → bool) (data : document) (n : nat) : Prop :=
  ∀ propagate_font_anchors : M font unit,
    (∀ u, (propagate_font_anchors u).1 = Ok tt) →
    ∃ fonts instances s,
      to_ufos info_hasattr info_accepts propagate_font_anchors data None no_translation
      = (Ok (fonts, instances), s) ∧
      length fonts = n.

(** *** A sample document *)

Definition sample_master_layer (master_id : string) : layer_dict :=
  LayerDict (Some master_id) None None (layer_with_paths [sample_closed; sample_open]).

(** A layer that is associated with the master M1 and has no name; its
    path is open and starts with an off-curve point. *)
Definition sample_nameless_layer : layer_dict :=
  LayerDict (Some "L3") None (Some "M1") (layer_with_paths [sample_bad_open]).

(** The same layer with a name. *)
Definition sample_named_layer : layer_dict :=
  LayerDict (Some "L3") (Some "sketch") (Some "M1") (layer_with_paths [sample_bad_open]).

Definition sample_glyph_dict (layers : list layer_dict) : glyph_dict :=
  GlyphDict {[ "glyphname" := "A"; "rightKerningGroup" := "A" ]}
            (metadata_with_color 3) (Some layers).

Definition sample_document (layers : list layer_dict) : document :=
  Document (Some 1000) (Some (VStr "Noto Sans")) None None None sample_source
           (Some [sample_glyph_dict layers]) None None.

(** * Theorems *)

(** ** Rules for the effect monad *)

Section monad_rules.
Context {S : Type}.
Implicit Types (P I : S → Prop) (E : exn → S → Prop).

Lemma bind_ok {A B} (m : M S A) (f : A → M S B) s a s' :
  m s = (Ok a, s') → (m ≫= f) s = f a s'.
Proof. intros H. unfold mbind, M_bind. by rewrite H. Qed.

Lemma bind_raise {A B} (m : M S A) (f : A → M S B) s e s' :
  m s = (Raise e, s') → (m ≫= f) s = (Raise e, s').
Proof. intros H. unfold mbind, M_bind. by rewrite H. Qed.

Lemma triple_bind {A B} P (m : M S A) (f : A → M S B) R Q E :
  triple P m R E → (∀ a, triple (R a) (f a) Q E) → triple P (m ≫= f) Q E.
Proof.
  intros Hm Hf s Hs. specialize (Hm s Hs).
  unfold mbind, M_bind. destruct (m s) as [[a|e] s']; [|done].
  by apply Hf.
Qed.

Lemma triple_ret {A} (a : A) P (Q : A → S → Prop) E :
  (∀ s, P s → Q a s) → triple P (mret a) Q E.
Proof. intros H s Hs. by apply H. Qed.

Lemma triple_raise {A} e P (Q : A → S → Prop) E :
  (∀ s, P s → E e s) → triple P (raise e) Q E.
Proof. intros H s Hs. by apply H. Qed.

Lemma triple_modify (f : S → S) P (Q : unit → S → Prop) E :
  (∀ s, P s → Q tt (f s)) → triple P (modify f) Q E.
Proof. intros H s Hs. by apply H. Qed.

Lemma triple_gets {A} (f : S → A) P (Q : A → S → Prop) E :
  (∀ s, P s → Q (f s) s) → triple P (gets f) Q E.
Proof. intros H s Hs. by apply H. Qed.

Lemma triple_lift {A} (r : result A) P (Q : A → S → Prop) E :
  (∀ s, P s → match r with Ok a => Q a s | Raise e => E e s end) →
  triple P (lift r) Q E.
Proof. intros H s Hs. specialize (H s Hs). unfold lift. by destruct r. Qed.

Lemma triple_weaken {A} P P' (m : M S A) (Q Q' : A → S → Prop) E E' :
  triple P' m Q' E' →
  (∀ s, P s → P' s) → (∀ a s, Q' a s → Q a s) → (∀ e s, E' e s → E e s) →
  triple P m Q E.
Proof.
  intros Hm HP HQ HE s Hs. specialize (Hm s (HP s Hs)).
  destruct (m s) as [[a|e] s']; auto.
Qed.

Lemma triple_for_each {A} I (xs : list A) (body : A → M S unit) E :
  (∀ x, x ∈ xs → triple I (body x) (λ _, I) E) →
  triple I (for_each xs body) (λ _, I) E.
Proof.
  induction xs as [|x xs' IH]; intros Hbody; simpl.
  - by apply triple_ret.
  - eapply triple_bind.
    + apply Hbody. by left.
    + intros ?. apply IH. intros y Hy. apply Hbody. by right.
Qed.

Lemma preserves_bind {A B} I (m : M S A) (f : A → M S B) :
  preserves I m → (∀ a, preserves I (f a)) → preserves I (m ≫= f).
Proof. intros Hm Hf. by eapply triple_bind. Qed.

Lemma preserves_pure {A} I (m : M S A) :
  (∀ s, (m s).2 = s) → preserves I m.
Proof. intros H s Hs. specialize (H s). destruct (m s) as [[a|e] s']; by simplify_eq/=. Qed.

Lemma preserves_for_each {A} I (xs : list A) (body : A → M S unit) :
  (∀ x, preserves I (body x)) → preserves I (for_each xs body).
Proof. intros H. apply triple_for_each. intros x _. apply H. Qed.

Lemma preserves_when I (b : bool) (m : M S unit) :
  preserves I m → preserves I (when b m).
Proof. intros H. destruct b; [done|]. by apply triple_ret. Qed.

Lemma fails_bind_l {A B} (m : M S A) (f : A → M S B) :
  fails m → fails (m ≫= f).
Proof. intros Hm. eapply triple_bind; [exact Hm|]. intros a s []. Qed.

Lemma fails_bind_r {A B} (m : M S A) (f : A → M S B) :
  (∀ a, fails (f a)) → fails (m ≫= f).
Proof.
  intros Hf. eapply triple_bind; [|exact Hf].
  intros s _. by destruct (m s) as [[a|e] s'].
Qed.

Lemma fails_spec {A} (m : M S A) s : fails m → ∃ e, (m s).1 = Raise e.
Proof. intros H. specialize (H s I). destruct (m s) as [[a|e] s']; [done|by eexists]. Qed.
End monad_rules.

(** ** The outline transcriber *)

Lemma draw_nodes (ns : list node) (calls : list pen_call) :
  for_each ns (λ '(x, y, node_type, smooth),
      let node_type :=
        if str_in node_type ["line"; "curve"] then Some node_type else None in
      pen_do (AddPoint (x, y) node_type (Some smooth))) calls
  = (Ok tt, calls ++ map drawn_point ns).
Proof.
  revert calls. induction ns as [|[[[x y] t] sm] ns IH]; intros calls; simpl.
  - by rewrite app_nil_r.
  - erewrite bind_ok; [|reflexivity]. rewrite IH. by rewrite <-app_assoc.
Qed.

(** The calls made for one path, when it is drawn without an exception. *)
Lemma draw_paths_closed (p : path) (ns : list node) (rest : list path)
    (calls : list pen_call) :
  is_closed p = true → nodes p = Some ns →
  draw_paths (p :: rest) calls
  = draw_paths rest (calls ++ BeginPath :: map drawn_point ns ++ [EndPath]).
Proof.
  intros Hc Hn. unfold draw_paths at 1. simpl for_each.
  unfold is_closed in Hc. rewrite Hc. simpl negb. unfold path_nodes. rewrite Hn.
  erewrite bind_ok; [|].
  2:{ erewrite bind_ok; [|reflexivity].
      erewrite bind_ok; [|reflexivity].
      erewrite bind_ok; [|apply draw_nodes].
      reflexivity. }
  unfold draw_paths. f_equal. rewrite <-!app_assoc. reflexivity.
Qed.

Lemma draw_paths_open (p : path) (x y : Z) (sm : bool) (ns : list node)
    (rest : list path) (calls : list pen_call) :
  is_closed p = false → nodes p = Some ((x, y, "line", sm) :: ns) →
  draw_paths (p :: rest) calls
  = draw_paths rest
      (calls ++ BeginPath :: AddPoint (x, y) (Some "move") None
                            :: map drawn_point ns ++ [EndPath]).
Proof.
  intros Hc Hn. unfold draw_paths at 1. simpl for_each.
  unfold is_closed in Hc. rewrite Hc. simpl negb. unfold path_nodes. rewrite Hn.
  erewrite bind_ok; [|].
  2:{ erewrite bind_ok; [|reflexivity].
      erewrite bind_ok; [|reflexivity].
      erewrite bind_ok; [|apply draw_nodes].
      reflexivity. }
  unfold draw_paths. f_equal. rewrite <-!app_assoc. reflexivity.
Qed.

Lemma drawn_point_not_move (n : node) :
  is_add_point (drawn_point n) ∧ is_move (drawn_point n) = false.
Proof.
  destruct n as [[[x y] t] sm]. split; [by repeat eexists|].
  unfold drawn_point, is_move.
  destruct (str_in t ["line"; "curve"]) eqn:Hin; [|done].
  simpl in Hin. rewrite !orb_true_iff in Hin.
  destruct Hin as [H|[H|H]]; [| |done]; apply String.eqb_eq in H; by subst t.
Qed.

(** Claim C4.  A path with N nodes that is marked closed is drawn as
    [beginPath], exactly N [addPoint] calls, none of them a "move", and
    [endPath].  A path that is not marked closed and whose first node has
    type "line" is drawn as [beginPath], that node as a "move" point, exactly
    N-1 further [addPoint] calls, and [endPath].  In both cases [draw_paths]
    goes on with the remaining paths. *)
Theorem draw_paths_point_count (p : path) (ns : list node) (rest : list path)
    (calls : list pen_call) :
  nodes p = Some ns →
  (is_closed p = true →
     ∃ points,
       draw_paths (p :: rest) calls
       = draw_paths rest (calls ++ BeginPath :: points ++ [EndPath]) ∧
       length points = length ns ∧
       Forall (λ c, is_add_point c ∧ is_move c = false) points) ∧
  (is_closed p = false →
     ∀ x y sm ns', ns = (x, y, "line", sm) :: ns' →
     ∃ points,
       draw_paths (p :: rest) calls
       = draw_paths rest
           (calls ++ BeginPath :: AddPoint (x, y) (Some "move") None
                                 :: points ++ [EndPath]) ∧
       length points = (length ns - 1)%nat ∧
       Forall is_add_point points).
Proof.
  intros Hn. split.
  - intros Hc. exists (map drawn_point ns). split_and!.
    + by apply draw_paths_closed.
    + by rewrite length_map.
    + apply Forall_forall. intros c [n [-> _]]%list_elem_of_fmap.
      apply drawn_point_not_move.
  - intros Hc x y sm ns' ->. exists (map drawn_point ns'). split_and!.
    + by apply (draw_paths_open p x y sm).
    + rewrite length_map. simpl. lia.
    + apply Forall_forall. intros c [n [-> _]]%list_elem_of_fmap.
      apply drawn_point_not_move.
Qed.

Lemma draw_paths_point_count_witness :
  (∃ points,
     draw_paths [sample_closed] [] = (Ok tt, BeginPath :: points ++ [EndPath]) ∧
     length points = 4%nat ∧
     Forall (λ c, is_add_point c ∧ is_move c = false) points) ∧
  (∃ points,
     draw_paths [sample_open] []
     = (Ok tt, BeginPath :: AddPoint (0, 0) (Some "move") None :: points ++ [EndPath]) ∧
     length points = 2%nat ∧ Forall is_add_point points).
Proof.
  split.
  - apply (proj1 (draw_paths_point_count sample_closed _ [] [] eq_refl) eq_refl).
  - apply (proj2 (draw_paths_point_count sample_open _ [] [] eq_refl) eq_refl
             0 0 false _ eq_refl).
Defined.

Lemma draw_paths_bad_open (p : path) (rest : list path) (calls : list pen_call) :
  bad_open p →
  draw_paths (p :: rest) calls
  = (Raise (AssertionError "Open path starts with off-curve points"),
     calls ++ [BeginPath]).
Proof.
  intros [Hc (x & y & t & sm & ns & Hn & Ht)].
  unfold draw_paths. simpl for_each.
  unfold is_closed in Hc. rewrite Hc. simpl negb. unfold path_nodes. rewrite Hn.
  apply String.eqb_neq in Ht.
  erewrite bind_raise; [reflexivity|].
  erewrite bind_ok; [|reflexivity].
  erewrite bind_raise; [reflexivity|].
  erewrite bind_ok; [|reflexivity]. cbv beta iota.
  erewrite bind_raise; [reflexivity|].
  rewrite Ht. reflexivity.
Qed.

Lemma draw_paths_fails (paths : list path) :
  Exists bad_open paths → fails (draw_paths paths).
Proof.
  induction 1 as [p rest Hp|p rest _ IH].
  - intros calls _. by rewrite draw_paths_bad_open.
  - unfold draw_paths. simpl for_each. apply fails_bind_r. intros _. exact IH.
Qed.

Lemma draw_paths_no_assertion (paths : list path) :
  Forall open_starts_with_line paths →
  triple (λ _, True) (draw_paths paths) (λ _ _, True)
         (λ e _, ∀ msg, e ≠ AssertionError msg).
Proof.
  intros Hall. apply triple_for_each. intros p Hp calls _.
  rewrite Forall_forall in Hall. specialize (Hall p Hp).
  unfold open_starts_with_line, is_closed in Hall.
  destruct p as [c ns]. simpl in *.
  erewrite bind_ok; [|reflexivity].
  destruct (default false c); simpl negb; cbv iota.
  - unfold path_nodes. simpl. destruct ns as [ns|].
    + erewrite bind_ok; [|reflexivity].
      erewrite bind_ok; [|apply draw_nodes]. done.
    + erewrite bind_raise; [|reflexivity]. done.
  - unfold path_nodes. simpl. destruct ns as [[|[[[x y] t] sm] ns]|].
    + erewrite bind_raise; [|reflexivity]. done.
    + rewrite (Hall eq_refl x y t sm ns eq_refl).
      erewrite bind_ok; [|reflexivity].
      erewrite bind_ok; [|apply draw_nodes]. done.
    + erewrite bind_raise; [|reflexivity]. done.
Qed.

Lemma fails_on_pen {A} (h : glyph_ref) (m : M (list pen_call) A) :
  fails m → fails (on_pen h m).
Proof.
  intros Hm u _. unfold on_pen.
  specialize (Hm (from_option g_pen [] (glyph_at h u)) I).
  by destruct (m _) as [[a|e] calls].
Qed.

Lemma load_glyph_fails (h : glyph_ref) (l : layer) (gd : glyph_metadata) :
  Exists bad_open (default [] (l_paths l)) → fails (load_glyph h l gd).
Proof.
  intros Hbad. unfold load_glyph.
  do 9 (apply fails_bind_r; intros ?).
  apply fails_bind_l, fails_on_pen, draw_paths_fails, Hbad.
Qed.

Lemma set_glyph_background_fails (h : glyph_ref) (key : string) (bg : layer) :
  Exists bad_open (default [] (l_paths bg)) →
  fails (set_glyph_background h key (Some bg)).
Proof.
  intros Hbad. unfold set_glyph_background.
  assert (layer_is_empty bg = false) as ->.
  { destruct bg as [w [ps|]]; [by destruct w|by inv Hbad]. }
  do 5 (apply fails_bind_r; intros ?).
  apply fails_bind_l, fails_on_pen, draw_paths_fails, Hbad.
Qed.

(** ** The glyph loader *)

Lemma glyph_at_upd (h h' : glyph_ref) (f : glyph_obj → glyph_obj) (u : font) :
  glyph_at h (upd_glyph h' f u).2
  = if decide (h' = h) then f <$> glyph_at h u else glyph_at h u.
Proof.
  destruct h as [ln gn], h' as [ln' gn'], u as [i lb gr k ly].
  unfold glyph_at, upd_glyph, modify, set_layers_map. simpl.
  rewrite lookup_alter. destruct (decide (ln' = ln)) as [->|Hln].
  - destruct (ly !! ln) as [glyphs|] eqn:Hly; simpl.
    + rewrite lookup_alter. destruct (decide (gn' = gn)) as [->|Hgn].
      * by rewrite decide_True.
      * rewrite decide_False; [done|congruence].
    + by case_decide.
  - rewrite decide_False; [done|congruence].
Qed.

Lemma glyph_at_newGlyph (h h' : glyph_ref) (u : font) :
  h'.1 ≠ h.1 → glyph_at h (newGlyph h' u).2 = glyph_at h u.
Proof.
  intros Hne. destruct u as [i lb gr k ly].
  unfold glyph_at, newGlyph, modify, set_layers_map. simpl.
  by rewrite lookup_alter_ne.
Qed.

Lemma glyph_at_newLayer (h : glyph_ref) (name : string) (u : font) :
  name ≠ h.1 → glyph_at h (newLayer name u).2 = glyph_at h u.
Proof.
  intros Hne. destruct u as [i lb gr k ly].
  unfold glyph_at, newLayer, modify, set_layers_map. simpl.
  by rewrite lookup_insert_ne.
Qed.

Lemma glyph_at_set_info (h : glyph_ref) (name : string) (v : value) (u : font) :
  glyph_at h (set_info name v u).2 = glyph_at h u.
Proof. by destruct u. Qed.

Section color_invariant.
Variables (h : glyph_ref) (a b : option value).

Lemma preserves_upd_glyph (h' : glyph_ref) (f : glyph_obj → glyph_obj) :
  (h' = h → keeps_color f) → preserves (color_inv h a b) (upd_glyph h' f).
Proof.
  intros Hf u (g & Hg & Ha & Hb).
  change (color_inv h a b (upd_glyph h' f u).2).
  unfold color_inv. rewrite glyph_at_upd. case_decide as Hh; [|by eauto].
  rewrite Hg. simpl. exists (f g). destruct (Hf Hh g) as [-> ->]. eauto.
Qed.

Lemma preserves_set_glyph_lib (h' : glyph_ref) (key : string) (v : value) :
  (h' = h → key ≠ ColorIndex_key ∧ key ≠ markColor_key) →
  preserves (color_inv h a b) (set_glyph_lib h' key v).
Proof.
  intros Hk. apply preserves_upd_glyph. intros Hh g. destruct (Hk Hh).
  simpl. by rewrite !lookup_insert_ne.
Qed.

Lemma preserves_on_pen {A} (h' : glyph_ref) (m : M (list pen_call) A) :
  preserves (color_inv h a b) (on_pen h' m).
Proof.
  intros u Hu. unfold on_pen.
  destruct (m _) as [r calls].
  pose proof (preserves_upd_glyph h' (with_pen calls) (λ _ g, conj eq_refl eq_refl) u Hu) as H.
  simpl in H. by destruct r.
Qed.

Lemma preserves_add_anchors (h' : glyph_ref) (anchors : list anchor) :
  preserves (color_inv h a b) (add_anchors_to_glyph h' anchors).
Proof.
  apply preserves_for_each. intros [[[x y]|] [name|]];
    try (by apply triple_raise).
  by apply preserves_upd_glyph.
Qed.

Lemma preserves_set_guidelines (obj : option glyph_ref) (l : layer) (is_global : bool) :
  preserves (color_inv h a b) (set_guidelines obj l is_global).
Proof.
  unfold set_guidelines. destruct (l_guideLines l) as [[|gl gls]|];
    try (by apply triple_ret).
  apply preserves_bind; [by apply preserves_pure|]. intros new.
  destruct is_global, obj as [h'|]; try (by apply triple_raise).
  - intros u (g & Hg & Hab). change (color_inv h a b (set_info "guidelines" (VList new) u).2).
    exists g. by rewrite glyph_at_set_info.
  - by apply preserves_upd_glyph.
Qed.
End color_invariant.

Ltac str_ne := let H := fresh in intros H; vm_compute in H; discriminate H.

Lemma string_length_app (s1 s2 : string) :
  String.length (s1 +:+ s2) = (String.length s1 + String.length s2)%nat.
Proof.
  induction s1 as [|c s1 IH]; [done|].
  change (S (String.length (s1 +:+ s2)) = S (String.length s1 + String.length s2)).
  by rewrite IH.
Qed.

(** The background of a layer never lives in the layer itself. *)
Lemma background_layer_name_ne (name : string) :
  (if negb (String.eqb name "public.default")
   then name +:+ ".background" else "public.background") ≠ name.
Proof.
  destruct (String.eqb name "public.default") eqn:Heq; simpl.
  - apply String.eqb_eq in Heq. subst name. str_ne.
  - intros H. apply (f_equal String.length) in H.
    rewrite string_length_app in H. simpl in H. lia.
Qed.

Section color_invariant_loader.
Variables (h : glyph_ref) (a b : option value).

Lemma preserves_set_components_attributes (h' : glyph_ref) (l : layer) :
  preserves (color_inv h a b) (set_components_attributes h' l).
Proof.
  unfold set_components_attributes. simpl for_each.
  repeat (apply preserves_bind; [|intros ?]); try (by apply triple_ret);
    apply preserves_when;
    (apply preserves_bind; [by apply preserves_pure|intros key']);
    apply preserves_set_glyph_lib; intros _; split; str_ne.
Qed.

Lemma preserves_set_glyph_background (key : string) (bg : option layer) :
  preserves (color_inv h a b) (set_glyph_background h key bg).
Proof.
  unfold set_glyph_background. destruct bg as [bg|]; [|by apply triple_ret].
  destruct (layer_is_empty bg); [by apply triple_ret|].
  pose proof (background_layer_name_ne h.1) as Hne.
  set (layer_name := if negb (String.eqb h.1 "public.default")
                     then h.1 +:+ ".background" else "public.background") in *.
  assert (Hh : (layer_name, h.2) = h → False).
  { intros Hh. apply Hne. by apply (f_equal fst) in Hh. }
  apply preserves_bind; [by apply preserves_pure|]. intros has_layer.
  apply preserves_bind.
  { apply preserves_when. intros u (g & Hg & Hab).
    change (color_inv h a b (newLayer layer_name u).2).
    exists g. by rewrite glyph_at_newLayer. }
  intros _. apply preserves_bind.
  { intros u (g & Hg & Hab).
    change (color_inv h a b (newGlyph (layer_name, h.2) u).2).
    exists g. by rewrite glyph_at_newGlyph. }
  intros _. apply preserves_bind; [by apply preserves_pure|]. intros glyph_width.
  apply preserves_bind; [by apply preserves_upd_glyph|]. intros _.
  apply preserves_bind; [apply preserves_on_pen|]. intros _.
  apply preserves_bind; [apply preserves_on_pen|]. intros _.
  apply preserves_bind; [apply preserves_add_anchors|]. intros _.
  apply preserves_bind; [apply preserves_set_guidelines|]. intros _.
  apply preserves_set_components_attributes.
Qed.

Lemma preserves_load_glyph_libdata (l : layer) :
  preserves (color_inv h a b) (load_glyph_libdata h l).
Proof.
  unfold load_glyph_libdata.
  apply preserves_bind; [apply preserves_set_guidelines|]. intros _.
  apply preserves_bind; [apply preserves_set_glyph_background|]. intros _.
  apply preserves_bind; [|intros _; apply preserves_set_components_attributes].
  simpl for_each.
  repeat (apply preserves_bind; [|intros ?]); try (by apply triple_ret);
    (destruct (_ l); [|by apply triple_ret]);
    apply preserves_set_glyph_lib; intros _; split; str_ne.
Qed.

Lemma preserves_metadata_entry (o : option value) (key : string) :
  key ≠ ColorIndex_key → key ≠ markColor_key →
  preserves (color_inv h a b)
    (match o with
     | Some v => set_glyph_lib h key v
     | None => mret tt
     end).
Proof.
  intros ??. destruct o; [|by apply triple_ret]. by apply preserves_set_glyph_lib.
Qed.

Lemma preserves_metrics_keys (l : layer) (gd : glyph_metadata) :
  preserves (color_inv h a b)
    (for_each [ ("leftMetricsKey", l_leftMetricsKey, gd_leftMetricsKey);
                ("rightMetricsKey", l_rightMetricsKey, gd_rightMetricsKey);
                ("widthMetricsKey", l_widthMetricsKey, gd_widthMetricsKey) ]
       (λ '(key, layer_field, data_field),
         let glyph_metrics_key :=
           match layer_field l with
           | Some v => v
           | None => default VNone (data_field gd)
           end in
         when (truthy glyph_metrics_key)
           (set_glyph_lib h (glyphlib_prefix +:+ key) glyph_metrics_key))).
Proof.
  simpl for_each.
  repeat (apply preserves_bind; [|intros ?]); try (by apply triple_ret);
    apply preserves_when, preserves_set_glyph_lib; intros _; split; str_ne.
Qed.

Lemma preserves_set_width (l : layer) :
  preserves (color_inv h a b)
    (match l_width l with
     | Some width => upd_glyph h (with_width width)
     | None => raise (KeyError "width")
     end).
Proof.
  destruct (l_width l); [by apply preserves_upd_glyph|by apply triple_raise].
Qed.
End color_invariant_loader.

(** The steps of [load_glyph] that follow the color index keep the color
    entries of the glyph's lib. *)
Ltac load_glyph_tail_preserves :=
  repeat first
    [ apply preserves_add_anchors
    | apply preserves_on_pen
    | apply preserves_load_glyph_libdata
    | apply preserves_set_width
    | apply preserves_metrics_keys
    | apply preserves_metadata_entry; str_ne
    | apply preserves_bind; [|intros _] ].

Lemma load_glyph_no_color (h : glyph_ref) (a b : option value) (l : layer)
    (gd : glyph_metadata) (c : Z) :
  gd_color gd = Some c → c < 0 →
  preserves (color_inv h a b) (load_glyph h l gd).
Proof.
  intros Hc Hneg. unfold load_glyph. rewrite Hc.
  assert ((c >=? 0) = false) as -> by lia.
  apply preserves_bind; [|intros _].
  { destruct (get_not_none _); [by apply preserves_upd_glyph|by apply triple_ret]. }
  apply preserves_bind; [|intros _].
  { destruct (get_not_none _); [by apply preserves_upd_glyph|by apply triple_ret]. }
  apply preserves_bind; [|intros _].
  { destruct (gd_lastChange gd); [|by apply triple_ret].
    apply preserves_set_glyph_lib; intros _; split; str_ne. }
  apply preserves_bind; [by apply triple_ret|intros _].
  load_glyph_tail_preserves.
Qed.

Lemma triple_upd_glyph_exists (h h' : glyph_ref) (f : glyph_obj → glyph_obj) E :
  triple (λ u, is_Some (glyph_at h u)) (upd_glyph h' f)
         (λ _ u, is_Some (glyph_at h u)) E.
Proof.
  intros u Hu. change (is_Some (glyph_at h (upd_glyph h' f u).2)).
  rewrite glyph_at_upd. case_decide; [|done]. by apply fmap_is_Some.
Qed.

Lemma triple_opt_upd_glyph_exists {A} (h h' : glyph_ref) (o : option A)
    (f : A → glyph_obj → glyph_obj) E :
  triple (λ u, is_Some (glyph_at h u))
         (match o with Some v => upd_glyph h' (f v) | None => mret tt end)
         (λ _ u, is_Some (glyph_at h u)) E.
Proof. destruct o; [apply triple_upd_glyph_exists|by apply triple_ret]. Qed.

Lemma load_glyph_color_in_range (h : glyph_ref) (l : layer) (gd : glyph_metadata)
    (c : Z) (u : font) :
  is_Some (glyph_at h u) → gd_color gd = Some c → 0 ≤ c ≤ 11 →
  ∃ color, GLYPHS_COLORS !! Z.to_nat c = Some color ∧
    color_inv h (Some (VInt c)) (Some (VStr color)) (load_glyph h l gd u).2.
Proof.
  intros Hu Hc Hrange.
  destruct (lookup_lt_is_Some_2 GLYPHS_COLORS (Z.to_nat c)) as [color Hcolor].
  { simpl. lia. }
  exists color. split; [done|].
  set (I := color_inv h (Some (VInt c)) (Some (VStr color))).
  assert (triple (λ u, is_Some (glyph_at h u)) (load_glyph h l gd) (λ _, I) (λ _, I)) as H.
  { unfold load_glyph. rewrite Hc, Hcolor.
    assert ((c >=? 0) = true) as -> by lia.
    eapply triple_bind; [apply triple_opt_upd_glyph_exists|intros ?].
    eapply triple_bind; [apply triple_opt_upd_glyph_exists|intros ?].
    eapply triple_bind; [apply (triple_opt_upd_glyph_exists h h _ (λ v, with_lib _))|intros ?].
    eapply (triple_bind _ _ _ (λ _, I)).
    { intros s [g Hg]. simpl.
      change (I (upd_glyph h (with_lib <[markColor_key := VStr color]>)
                  (upd_glyph h (with_lib <[ColorIndex_key := VInt c]>) s).2).2).
      unfold I, color_inv. rewrite !glyph_at_upd, !decide_True, Hg by done. simpl.
      eexists. split; [done|]. unfold with_lib. simpl g_lib. split.
      - rewrite lookup_insert_ne by str_ne. by rewrite lookup_insert_eq.
      - by rewrite lookup_insert_eq. }
    intros ?. subst I. load_glyph_tail_preserves. }
  specialize (H u Hu). by destruct (load_glyph h l gd u) as [[[]|e] u'].
Qed.

Lemma load_glyph_color_out_of_range (h : glyph_ref) (l : layer) (gd : glyph_metadata)
    (c : Z) (u : font) :
  gd_color gd = Some c → 12 ≤ c → (load_glyph h l gd u).1 = Raise IndexError.
Proof.
  intros Hc Hrange.
  assert (triple (λ _, True) (load_glyph h l gd) (λ _ _, False) (λ e _, e = IndexError)) as H.
  { unfold load_glyph. rewrite Hc.
    assert ((c >=? 0) = true) as -> by lia.
    rewrite (lookup_ge_None_2 GLYPHS_COLORS (Z.to_nat c)) by (simpl; lia).
    eapply (triple_bind _ _ _ (λ _ _, True)); [|intros ?].
    { destruct (get_not_none _); by intros ??. }
    eapply (triple_bind _ _ _ (λ _ _, True)); [|intros ?].
    { destruct (get_not_none _); by intros ??. }
    eapply (triple_bind _ _ _ (λ _ _, True)); [|intros ?].
    { destruct (gd_lastChange _); by intros ??. }
    eapply (triple_bind _ _ _ (λ _ _, False)); [|by intros ??[]].
    intros s _. reflexivity. }
  specialize (H u I).
  destruct (load_glyph h l gd u) as [[[]|e] u']; simpl in *; [done|by subst].
Qed.

(** Claim C10.  For a glyph whose metadata carries the color index [c]:
    if 0 <= c <= 11, [load_glyph] leaves in the glyph's lib the index under
    [ColorIndex] and the [c]-th entry of the 12-entry table [GLYPHS_COLORS]
    under [markColor], whatever happens afterwards; if c < 0, the two lib
    entries are as they were before the call; if c >= 12, [load_glyph] raises
    [IndexError], the table lookup being guarded from below only. *)
Theorem load_glyph_color (h : glyph_ref) (l : layer) (gd : glyph_metadata)
    (u : font) (g : glyph_obj) (c : Z) :
  glyph_at h u = Some g → gd_color gd = Some c →
  length GLYPHS_COLORS = 12%nat ∧
  (0 ≤ c ≤ 11 →
     ∃ color g',
       GLYPHS_COLORS !! Z.to_nat c = Some color ∧
       glyph_at h (load_glyph h l gd u).2 = Some g' ∧
       g_lib g' !! ColorIndex_key = Some (VInt c) ∧
       g_lib g' !! markColor_key = Some (VStr color)) ∧
  (c < 0 →
     ∃ g',
       glyph_at h (load_glyph h l gd u).2 = Some g' ∧
       g_lib g' !! ColorIndex_key = g_lib g !! ColorIndex_key ∧
       g_lib g' !! markColor_key = g_lib g !! markColor_key) ∧
  (12 ≤ c → (load_glyph h l gd u).1 = Raise IndexError).
Proof.
  intros Hg Hc. split_and!; [done| | |].
  - intros Hrange.
    destruct (load_glyph_color_in_range h l gd c u) as (color & Hcolor & g' & ?);
      [by eexists|done..|]. by exists color, g'.
  - intros Hneg.
    pose proof (load_glyph_no_color h _ _ l gd c Hc Hneg u
                  (ex_intro _ g (conj Hg (conj eq_refl eq_refl)))) as H.
    by destruct (load_glyph h l gd u) as [[[]|e] u'].
  - by apply load_glyph_color_out_of_range.
Qed.

Lemma load_glyph_color_witness :
  (∃ g', glyph_at sample_glyph
           (load_glyph sample_glyph (layer_with_paths [sample_closed])
              (metadata_with_color 3) sample_glyph_font).2 = Some g' ∧
         g_lib g' !! ColorIndex_key = Some (VInt 3) ∧
         g_lib g' !! markColor_key = Some (VStr "0.97,1,0,1")) ∧
  (∃ g', glyph_at sample_glyph
           (load_glyph sample_glyph (layer_with_paths [sample_closed])
              (metadata_with_color (-1)) sample_glyph_font).2 = Some g' ∧
         g_lib g' !! ColorIndex_key = None ∧
         g_lib g' !! markColor_key = None) ∧
  (load_glyph sample_glyph (layer_with_paths [sample_closed])
     (metadata_with_color 12) sample_glyph_font).1 = Raise IndexError.
Proof.
  split_and!.
  - destruct (load_glyph_color sample_glyph (layer_with_paths [sample_closed])
                (metadata_with_color 3) sample_glyph_font empty_glyph 3)
      as (_ & Hin & _ & _); [vm_compute; reflexivity..|].
    destruct Hin as (color & g' & Hcolor & Hg' & Hci & Hmc); [lia|].
    vm_compute in Hcolor. injection Hcolor as <-. by exists g'.
  - destruct (load_glyph_color sample_glyph (layer_with_paths [sample_closed])
                (metadata_with_color (-1)) sample_glyph_font empty_glyph (-1))
      as (_ & _ & Hneg & _); [vm_compute; reflexivity..|].
    destruct Hneg as (g' & Hg' & Hci & Hmc); [lia|]. by exists g'.
  - destruct (load_glyph_color sample_glyph (layer_with_paths [sample_closed])
                (metadata_with_color 12) sample_glyph_font empty_glyph 12)
      as (_ & _ & _ & Hout); [vm_compute; reflexivity..|].
    apply Hout. lia.
Defined.

(** ** Blue values *)

Global Instance zone_le_trans : Transitive zone_le.
Proof. intros [a1 a2] [b1 b2] [c1 c2]; unfold zone_le; simpl; lia. Qed.
Global Instance zone_le_total : Total zone_le.
Proof. intros [a1 a2] [b1 b2]; unfold zone_le; simpl; lia. Qed.
Global Instance zone_le_antisymm : AntiSymm (=) zone_le.
Proof.
  intros [a1 a2] [b1 b2]; unfold zone_le; simpl; intros ??.
  f_equal; lia.
Qed.

Lemma sorted_zones_sorted (zones : list (Z * Z)) :
  StronglySorted zone_le (sorted_zones zones).
Proof. apply StronglySorted_merge_sort; apply _. Qed.

Lemma sorted_zones_perm (zones : list (Z * Z)) : sorted_zones zones ≡ₚ zones.
Proof. apply merge_sort_Permutation. Qed.

(** Sorting does not depend on the order of the input. *)
Lemma sorted_zones_canonical (zones zones' : list (Z * Z)) :
  zones ≡ₚ zones' → sorted_zones zones = sorted_zones zones'.
Proof.
  intros Hp. apply (StronglySorted_unique zone_le); try apply sorted_zones_sorted.
  by rewrite !sorted_zones_perm.
Qed.

(** Any other sorting algorithm gives the list of [sorted_zones]. *)
Lemma sorted_zones_unique (zones sorted : list (Z * Z)) :
  sorted ≡ₚ zones → StronglySorted zone_le sorted → sorted = sorted_zones zones.
Proof.
  intros Hp Hs. apply (StronglySorted_unique zone_le); [done|apply sorted_zones_sorted|].
  by rewrite sorted_zones_perm.
Qed.

Lemma sorted_by_position (zones : list (Z * Z)) :
  StronglySorted zone_le zones → StronglySorted (λ a b, a.1 ≤ b.1) zones.
Proof.
  induction 1 as [|z zs _ IH Hz]; constructor; [done|].
  eapply Forall_impl; [exact Hz|]. intros [b1 b2]. unfold zone_le. simpl. lia.
Qed.

Lemma sorted_ints_pair (a b : Z) : sorted_ints [a; b] = [Z.min a b; Z.max a b].
Proof.
  unfold sorted_ints, merge_sort. simpl.
  unfold decide_rel. destruct (Z.le_dec a b); simpl; f_equal; try f_equal; lia.
Qed.

Lemma blue_loop_spec (zones : list (Z * Z)) (blue other : list Z) :
  blue_loop zones blue other
  = (blue ++ flat_map endpoints (filter (λ z, is_primary z = true) zones),
     other ++ flat_map endpoints (filter (λ z, is_primary z = false) zones)).
Proof.
  revert blue other. induction zones as [|[pos size] zones IH]; intros blue other.
  - simpl. by rewrite !app_nil_r.
  - simpl blue_loop. rewrite sorted_ints_pair.
    change ((pos =? 0) || (size >=? 0)) with (is_primary (pos, size)).
    destruct (is_primary (pos, size)) eqn:Hp; rewrite IH.
    + rewrite filter_cons_True, filter_cons_False by congruence.
      simpl flat_map. by rewrite <-app_assoc.
    + rewrite filter_cons_False, filter_cons_True by congruence.
      simpl flat_map. by rewrite <-app_assoc.
Qed.

(** Claim C3.  [set_blue_values] walks the zones sorted by position (ties
    by size), puts a zone into the primary list when its position is 0 or its
    size is not negative and into the secondary list otherwise, and appends
    the two ends [pos] and [pos + size] of the zone, lower end first.  The
    two lists are then assigned to the info object, the primary one first;
    an assignment that the info object refuses raises [ValueError], and the
    list is not stored.  Every permutation of the zones gives the same two
    lists, and so the same outcome. *)
Theorem set_blue_values_sorted_zones (info_accepts : string → value → bool)
    (zones : list (Z * Z)) (u : font) :
  let sorted := sorted_zones zones in
  let blue_values :=
    VList (VInt <$> flat_map endpoints (filter (λ z, is_primary z = true) sorted)) in
  let other_blues :=
    VList (VInt <$> flat_map endpoints (filter (λ z, is_primary z = false) sorted)) in
  sorted ≡ₚ zones ∧
  StronglySorted (λ a b, a.1 ≤ b.1) sorted ∧
  set_blue_values info_accepts zones u
  = (if info_accepts "postscriptBlueValues" blue_values
     then if info_accepts "postscriptOtherBlues" other_blues
          then (Ok tt,
                set_info_map (λ i, <["postscriptOtherBlues" := other_blues]>
                                     (<["postscriptBlueValues" := blue_values]> i)) u)
          else (Raise ValueError,
                set_info_map <["postscriptBlueValues" := blue_values]> u)
     else (Raise ValueError, u)) ∧
  ∀ zones', zones' ≡ₚ zones →
    set_blue_values info_accepts zones' u = set_blue_values info_accepts zones u.
Proof.
  split_and!.
  - apply sorted_zones_perm.
  - apply sorted_by_position, sorted_zones_sorted.
  - unfold set_blue_values, assign_info. rewrite blue_loop_spec. simpl app.
    destruct (info_accepts "postscriptBlueValues" _); [|done].
    destruct (info_accepts "postscriptOtherBlues" _); by destruct u.
  - intros zones' Hp. unfold set_blue_values. by rewrite (sorted_zones_canonical _ _ Hp).
Qed.

Lemma set_blue_values_sorted_zones_witness :
  [(0, -10); (800, 10); (-200, -15); (500, 12)]
  ≡ₚ [(800, 10); (0, -10); (-200, -15); (500, 12)] ∧
  set_blue_values blues_info_accepts [(0, -10); (800, 10); (-200, -15); (500, 12)] empty_font
  = set_blue_values blues_info_accepts [(800, 10); (0, -10); (-200, -15); (500, 12)]
      empty_font.
Proof.
  split; [apply perm_swap|].
  apply (proj2 (proj2 (proj2 (set_blue_values_sorted_zones blues_info_accepts
           [(800, 10); (0, -10); (-200, -15); (500, 12)] empty_font)))).
  apply perm_swap.
Defined.

(** ** Kerning groups *)

Lemma kern1_ne_kern2 (v w : string) : kern1 v ≠ kern2 w.
Proof. unfold kern1, kern2. intros H. cbv [String.append] in H. discriminate H. Qed.

Global Instance kern1_inj : Inj (=) (=) kern1.
Proof. unfold kern1. apply _. Qed.

Global Instance kern2_inj : Inj (=) (=) kern2.
Proof. unfold kern2. apply _. Qed.

Lemma add_glyph_to_groups_eq (kg : gmap string (list string))
    (gd : gmap string string) (name : string) :
  gd !! "glyphname" = Some name →
  ∃ gd', add_glyph_to_groups kg gd
         = Ok (add_member (add_member kg (kern1 <$> gd !! "rightKerningGroup") name)
                          (kern2 <$> gd !! "leftKerningGroup") name, gd').
Proof.
  intros Hname. unfold add_glyph_to_groups. rewrite Hname. simpl fold_left.
  destruct (gd !! "rightKerningGroup") as [r|] eqn:Hr; simpl.
  - rewrite lookup_delete_ne by done.
    destruct (gd !! "leftKerningGroup") as [lf|] eqn:Hl; simpl; by eexists.
  - destruct (gd !! "leftKerningGroup") as [lf|] eqn:Hl; simpl; by eexists.
Qed.

Lemma lookup_add_member (kg : gmap string (list string)) (group : option string)
    (name k : string) :
  default [] (add_member kg group name !! k)
  = default [] (kg !! k) ++ (if decide (group = Some k) then [name] else []).
Proof.
  destruct group as [group|]; simpl.
  - destruct (decide (group = k)) as [->|Hne].
    + by rewrite lookup_insert_eq, decide_True.
    + rewrite lookup_insert_ne, decide_False, app_nil_r by congruence. done.
  - by rewrite app_nil_r.
Qed.

Lemma decide_fmap_Some (f : string → string) `{!Inj (=) (=) f}
    (o : option string) (v : string) {B} (x y : B) :
  (if decide (f <$> o = Some (f v)) then x else y)
  = (if decide (o = Some v) then x else y).
Proof.
  destruct o as [w|].
  - change (f <$> Some w) with (Some (f w)).
    destruct (decide (w = v)) as [->|Hne].
    + by rewrite !decide_True.
    + rewrite (decide_False (P := Some w = Some v)) by congruence.
      apply decide_False. intros H%(inj Some)%(inj f). by apply Hne.
  - change (f <$> None) with (@None string). by rewrite !decide_False.
Qed.

Lemma add_glyph_to_groups_members (kg : gmap string (list string))
    (gd : gmap string string) (name : string) :
  gd !! "glyphname" = Some name →
  ∃ kg' gd', add_glyph_to_groups kg gd = Ok (kg', gd') ∧
    ∀ v,
      default [] (kg' !! kern1 v)
      = default [] (kg !! kern1 v) ++ members_of "rightKerningGroup" v [gd] ∧
      default [] (kg' !! kern2 v)
      = default [] (kg !! kern2 v) ++ members_of "leftKerningGroup" v [gd].
Proof.
  intros Hname. destruct (add_glyph_to_groups_eq kg gd name Hname) as [gd' Heq].
  eexists _, gd'. split; [exact Heq|]. intros v.
  rewrite !lookup_add_member. unfold members_of. simpl omap. rewrite Hname.
  split.
  - rewrite (decide_False (P := kern2 <$> _ = Some (kern1 v))), app_nil_r.
    2:{ destruct (gd !! "leftKerningGroup"); simpl; [|done].
        by intros H%(inj Some)%symmetry%kern1_ne_kern2. }
    f_equal. rewrite (decide_fmap_Some kern1). by case_decide.
  - rewrite (decide_False (P := kern1 <$> _ = Some (kern2 v))), app_nil_r.
    2:{ destruct (gd !! "rightKerningGroup"); simpl; [|done].
        by intros H%(inj Some)%kern1_ne_kern2. }
    f_equal. rewrite (decide_fmap_Some kern2). by case_decide.
Qed.

Lemma members_of_cons (key v : string) (g : gmap string string)
    (glyphs : list (gmap string string)) :
  members_of key v (g :: glyphs) = members_of key v [g] ++ members_of key v glyphs.
Proof.
  unfold members_of. simpl.
  by destruct (if decide _ then _ else _).
Qed.

Lemma to_ufos_kerning_groups_members (kg : gmap string (list string))
    (glyphs : list (gmap string string)) :
  Forall (λ g : gmap string string, is_Some (g !! "glyphname")) glyphs →
  ∃ kg', to_ufos_kerning_groups kg glyphs = Ok kg' ∧
    ∀ v,
      default [] (kg' !! kern1 v)
      = default [] (kg !! kern1 v) ++ members_of "rightKerningGroup" v glyphs ∧
      default [] (kg' !! kern2 v)
      = default [] (kg !! kern2 v) ++ members_of "leftKerningGroup" v glyphs.
Proof.
  intros Hall. revert kg. induction Hall as [|g glyphs [name Hname] _ IH]; intros kg.
  - exists kg. split; [done|]. intros v. by rewrite !app_nil_r.
  - destruct (add_glyph_to_groups_members kg g name Hname) as (kg1 & gd' & Heq & H1).
    destruct (IH kg1) as (kg' & Heq' & H').
    exists kg'. split.
    + simpl. rewrite Heq. exact Heq'.
    + intros v. destruct (H1 v) as [H1r H1l], (H' v) as [Hr Hl].
      rewrite Hr, Hl, H1r, H1l, !(members_of_cons _ v g glyphs), <-!app_assoc. done.
Qed.

(** Claim C7.  A glyph that declares the right kerning group [v] is
    appended to the group [public.kern1.v], and a glyph that declares the
    left kerning group [v] is appended to [public.kern2.v].  After the loop
    over the glyphs each group lists its members in the order in which the
    glyphs are declared. *)
Theorem kerning_groups_from_glyphs :
  (∀ (kg : gmap string (list string)) (gd : gmap string string) name,
     gd !! "glyphname" = Some name →
     ∃ kg' gd', add_glyph_to_groups kg gd = Ok (kg', gd') ∧
       (∀ v, gd !! "rightKerningGroup" = Some v →
             kg' !! kern1 v = Some (default [] (kg !! kern1 v) ++ [name])) ∧
       (∀ v, gd !! "leftKerningGroup" = Some v →
             kg' !! kern2 v = Some (default [] (kg !! kern2 v) ++ [name]))) ∧
  (∀ glyphs : list (gmap string string),
     Forall (λ g : gmap string string, is_Some (g !! "glyphname")) glyphs →
     ∃ kg, to_ufos_kerning_groups ∅ glyphs = Ok kg ∧
       ∀ v, default [] (kg !! kern1 v) = members_of "rightKerningGroup" v glyphs ∧
            default [] (kg !! kern2 v) = members_of "leftKerningGroup" v glyphs).
Proof.
  split.
  - intros kg gd name Hname.
    destruct (add_glyph_to_groups_eq kg gd name Hname) as [gd' Heq].
    eexists _, gd'. split; [exact Heq|]. split; intros v Hv; rewrite Hv; simpl.
    + destruct (gd !! "leftKerningGroup"); simpl.
      * rewrite lookup_insert_ne by (by intros ?%symmetry%kern1_ne_kern2).
        by rewrite lookup_insert_eq.
      * by rewrite lookup_insert_eq.
    + rewrite lookup_insert_eq. do 2 f_equal.
      destruct (gd !! "rightKerningGroup"); simpl; [|done].
      by rewrite lookup_insert_ne by apply kern1_ne_kern2.
  - intros glyphs Hall.
    destruct (to_ufos_kerning_groups_members ∅ glyphs Hall) as (kg & Heq & H).
    exists kg. split; [done|]. intros v. destruct (H v) as [-> ->].
    by rewrite !lookup_empty.
Qed.

Lemma kerning_groups_from_glyphs_witness :
  ∃ kg, to_ufos_kerning_groups ∅ sample_glyphs = Ok kg ∧
        default [] (kg !! kern1 "A") = ["A"; "Aacute"] ∧
        default [] (kg !! kern2 "A") = ["A"; "Aacute"; "V"].
Proof.
  destruct kerning_groups_from_glyphs as [_ Hall].
  destruct (Hall sample_glyphs) as (kg & Hkg & Hmembers).
  { repeat constructor; vm_compute; by eexists. }
  exists kg. split; [exact Hkg|]. exact (Hmembers "A").
Defined.

(** ** Custom parameters *)

Lemma rewrite_hheaAscender :
  rewrite_custom_param (VStr "hheaAscender", VInt 950)
  = Ok ("openTypeHheaAscender", VInt 950).
Proof. vm_compute. reflexivity. Qed.

(** Claim C8.  The custom parameter ("hheaAscender", 950) is renamed to
    [openTypeHheaAscender]; when the info object has an attribute of that
    name and the name is not excluded by [non_info], [set_custom_params]
    assigns the value to that info attribute and leaves the lib as it was.
    This holds for a parameter given in [parsed] and for one parsed from
    [data]. *)
Theorem hheaAscender_goes_to_info (info_hasattr : string → bool)
    (misc_keys non_info : list string) (u : font) :
  info_hasattr "openTypeHheaAscender" = true →
  str_in "openTypeHheaAscender" non_info = false →
  rewrite_custom_param (VStr "hheaAscender", VInt 950)
  = Ok ("openTypeHheaAscender", VInt 950) ∧
  ∃ u',
    set_custom_params info_hasattr (Some [(VStr "hheaAscender", VInt 950)]) None
      misc_keys non_info u = (Ok tt, u') ∧
    set_custom_params info_hasattr None
      (Some {[ "customParameters" :=
                 VList [VDict [("name", VStr "hheaAscender"); ("value", VInt 950)]] ]})
      [] non_info u = (Ok tt, u') ∧
    info u' = <["openTypeHheaAscender" := VInt 950]> (info u) ∧
    lib u' = lib u.
Proof.
  intros Hattr Hin. split; [apply rewrite_hheaAscender|].
  exists (set_info_map <["openTypeHheaAscender" := VInt 950]> u).
  assert (set_custom_param info_hasattr non_info (VStr "hheaAscender", VInt 950) u
          = (Ok tt, set_info_map <["openTypeHheaAscender" := VInt 950]> u)) as Hstep.
  { unfold set_custom_param. rewrite rewrite_hheaAscender.
    erewrite bind_ok; [|reflexivity]. cbv beta iota. by rewrite Hattr, Hin. }
  split_and!; [| |done..].
  - unfold set_custom_params.
    erewrite bind_ok; [|reflexivity]. simpl for_each.
    erewrite bind_ok; [|exact Hstep]. done.
  - unfold set_custom_params.
    erewrite bind_ok; [|reflexivity]. simpl for_each.
    erewrite bind_ok; [|exact Hstep]. done.
Qed.

Lemma hheaAscender_goes_to_info_witness :
  ∃ u',
    set_custom_params hhea_info_hasattr (Some [(VStr "hheaAscender", VInt 950)]) None
      [] [] empty_font = (Ok tt, u') ∧
    info u' !! "openTypeHheaAscender" = Some (VInt 950) ∧
    lib u' = ∅.
Proof.
  destruct (hheaAscender_goes_to_info hhea_info_hasattr [] [] empty_font)
    as (_ & u' & Hparsed & _ & Hinfo & Hlib); [reflexivity..|].
  exists u'. split_and!; [exact Hparsed| |exact Hlib].
  rewrite Hinfo. apply lookup_insert_eq.
Defined.

(** ** Redundant metadata *)

Lemma match_alternatives_in (alts : list string) (s a : string) :
  match_alternatives alts s = Some a → a ∈ alts.
Proof.
  induction alts as [|b alts IH]; simpl; [done|].
  destruct (startswith b s); [intros [= ->]; by left|]. intros H. right. by apply IH.
Qed.

Lemma re_search_in (alts : list string) (s a : string) :
  re_search alts s = Some a → a ∈ alts.
Proof.
  induction s as [|c s IH]; simpl.
  - destruct (match_alternatives alts "") eqn:Hm; [|done].
    intros [= ->]. by eapply match_alternatives_in.
  - destruct (match_alternatives alts (String c s)) eqn:Hm; [|exact IH].
    intros [= ->]. by eapply match_alternatives_in.
Qed.

Lemma parsed_attr_in_table (codes : list (string * Z)) (name : string) :
  (∀ a, a ∈ "" :: filter (λ k, nonempty k = true) (keys codes) →
        ∃ c, dict_get codes a = Ok c) →
  ∃ c, dict_get codes
         (default "" (re_search (filter (λ k, nonempty k = true) (keys codes)) name))
       = Ok c.
Proof.
  intros Hall. apply Hall.
  destruct (re_search _ name) as [a|] eqn:Ea; simpl; [|by left].
  right. by eapply re_search_in.
Qed.

(** The parsed attributes are keys of the code tables. *)
Lemma parse_style_attrs_codes (name : string) :
  ∃ width weight width_class weight_class,
    parse_style_attrs name = [width; weight] ∧
    dict_get WIDTH_CODES width = Ok width_class ∧
    dict_get WEIGHT_CODES weight = Ok weight_class.
Proof.
  destruct (parsed_attr_in_table WIDTH_CODES name) as [wc Hw].
  { intros a Ha. vm_compute in Ha.
    repeat (apply elem_of_cons in Ha as [->|Ha]); try (by eexists).
    by apply elem_of_nil in Ha. }
  destruct (parsed_attr_in_table WEIGHT_CODES name) as [gc Hg].
  { intros a Ha. vm_compute in Ha.
    repeat (apply elem_of_cons in Ha as [->|Ha]); try (by eexists).
    by apply elem_of_nil in Ha. }
  by eexists _, _, wc, gc.
Qed.

Lemma joined_style_in (weight style_name : string) :
  joined_style weight style_name ∈ style_map_names.
Proof.
  unfold joined_style.
  destruct (String.eqb weight "Bold"), (contains "Italic" style_name);
    vm_compute; set_solver.
Qed.

Lemma str_in_elem_of (x : string) (xs : list string) :
  str_in x xs = true → x ∈ xs.
Proof.
  unfold str_in. intros (y & Hy & Heq)%existsb_exists.
  apply String.eqb_eq in Heq. subst y. by apply list_elem_of_In.
Qed.

Ltac lookup_inserted :=
  repeat split; repeat (rewrite lookup_insert_ne by done); by rewrite lookup_insert_eq.

Lemma set_redundant_data_style_map (u : font) (family_name : value) (style_name : string) :
  info u !! "familyName" = Some family_name →
  info u !! "styleName" = Some (VStr style_name) →
  ∃ width weight,
    parse_style_attrs style_name = [width; weight] ∧
    if str_in (lower style_name) style_map_names
    then ∃ u', set_redundant_data u = (Ok tt, u') ∧
           info u' !! "styleMapStyleName" = Some (VStr (lower style_name)) ∧
           info u' !! "styleMapFamilyName" = Some family_name
    else match family_name with
         | VStr family =>
             ∃ u', set_redundant_data u = (Ok tt, u') ∧
               info u' !! "styleMapStyleName"
               = Some (VStr (joined_style weight style_name)) ∧
               info u' !! "styleMapFamilyName"
               = Some (VStr (join " " (family :: split (replace "Italic" ""
                                                          (replace "Bold" "" style_name)))))
         | _ =>
             ∃ u', set_redundant_data u = (Raise TypeError, u') ∧
               info u' !! "styleMapStyleName"
               = Some (VStr (joined_style weight style_name))
         end.
Proof.
  intros Hfam Hsty.
  destruct (parse_style_attrs_codes style_name) as (w & g & wc & gc & Hp & Hw & Hg).
  exists w, g. split; [done|].
  unfold set_redundant_data.
  cbv [mbind M_bind gets get_info as_str lift set_info set_lib when modify mret M_ret].
  rewrite Hfam, Hsty. cbv [default from_option id]. rewrite Hp, Hw, Hg.
  fold style_map_names. fold (joined_style g style_name).
  destruct (str_in (lower style_name) style_map_names).
  - destruct (nonempty g && negb (String.eqb g "Regular")), (nonempty w);
      eexists; (split; [reflexivity|]); destruct u; simpl; lookup_inserted.
  - destruct family_name;
      destruct (nonempty g && negb (String.eqb g "Regular")), (nonempty w);
      eexists; (split; [reflexivity|]); destruct u; simpl; lookup_inserted.
Qed.

(** Claim C9.  After [set_redundant_data] on a font whose family name and
    style name are set, the style-map style name is one of "regular",
    "bold", "italic" and "bold italic": the lowercased style name in the
    first branch, the joined "bold"/"italic" tokens or "regular" in the
    second. *)
Theorem style_map_style_name_canonical (u : font) (family style_name : string) :
  info u !! "familyName" = Some (VStr family) →
  info u !! "styleName" = Some (VStr style_name) →
  ∃ u' width weight s,
    set_redundant_data u = (Ok tt, u') ∧
    parse_style_attrs style_name = [width; weight] ∧
    info u' !! "styleMapStyleName" = Some (VStr s) ∧
    s = (if str_in (lower style_name) style_map_names
         then lower style_name else joined_style weight style_name) ∧
    s ∈ style_map_names.
Proof.
  intros Hfam Hsty.
  destruct (set_redundant_data_style_map u _ _ Hfam Hsty) as (w & g & Hp & H).
  destruct (str_in (lower style_name) style_map_names) eqn:Hin.
  - destruct H as (u' & Hrun & Hs & _).
    exists u', w, g, (lower style_name). split_and!; try done.
    by apply str_in_elem_of.
  - destruct H as (u' & Hrun & Hs & _).
    exists u', w, g, (joined_style g style_name). split_and!; try done.
    apply joined_style_in.
Qed.

Lemma style_map_style_name_canonical_witness :
  ∃ u', set_redundant_data (master_font "My Font" "Condensed Bold Italic") = (Ok tt, u') ∧
        info u' !! "styleMapStyleName" = Some (VStr "bold italic").
Proof.
  destruct (style_map_style_name_canonical
              (master_font "My Font" "Condensed Bold Italic")
              "My Font" "Condensed Bold Italic")
    as (u' & w & g & s & Hrun & Hp & Hs & -> & _);
    [vm_compute; reflexivity..|].
  exists u'. split; [exact Hrun|].
  vm_compute in Hp. injection Hp as <- <-. exact Hs.
Defined.

(** Claim C6 fails as stated: the style name "Bold" passes the
    case-insensitive test and the style-map style is "bold", not "Bold". *)
Lemma style_map_verbatim_counterexample :
  str_in (lower "Bold") style_map_names = true ∧
  ¬ style_map_verbatim (master_font "My Font" "Bold") "Bold".
Proof.
  split; [reflexivity|]. intros (u' & Hrun & Hs & _).
  vm_compute in Hrun. injection Hrun as <-. vm_compute in Hs. discriminate Hs.
Qed.

(** Claim C6, amended.  When the lowercased style name is one of "regular",
    "bold", "italic" and "bold italic", the style-map style name is the
    lowercased style name (the style name itself only if it has no capital
    letter), and the style-map family name is the family name. *)
Theorem style_map_lowercased (u : font) (family_name : value) (style_name : string) :
  info u !! "familyName" = Some family_name →
  info u !! "styleName" = Some (VStr style_name) →
  str_in (lower style_name) style_map_names = true →
  ∃ u', set_redundant_data u = (Ok tt, u') ∧
        info u' !! "styleMapStyleName" = Some (VStr (lower style_name)) ∧
        info u' !! "styleMapFamilyName" = Some family_name.
Proof.
  intros Hfam Hsty Hin.
  destruct (set_redundant_data_style_map u _ _ Hfam Hsty) as (w & g & Hp & H).
  by rewrite Hin in H.
Qed.

Lemma style_map_lowercased_witness :
  ∃ u', set_redundant_data (master_font "My Font" "Bold Italic") = (Ok tt, u') ∧
        info u' !! "styleMapStyleName" = Some (VStr "bold italic") ∧
        info u' !! "styleMapFamilyName" = Some (VStr "My Font").
Proof.
  apply (style_map_lowercased (master_font "My Font" "Bold Italic") (VStr "My Font")
           "Bold Italic"); vm_compute; reflexivity.
Defined.

(** ** Style names *)

Ltac in_list :=
  vm_compute; repeat first [apply list_elem_of_here | apply list_elem_of_further].

(** Claim C2 fails as stated: "Narrow" with "Regular" builds the name
    "Narrow", which parses to an empty weight; "Condensed" with "Bold"
    parses to the width "Cond", the first alternative that matches. *)
Lemma style_round_trip_counterexample :
  "Narrow" ∈ keys WIDTH_CODES ∧ "Condensed" ∈ keys WIDTH_CODES ∧
  "Regular" ∈ keys WEIGHT_CODES ∧ "Bold" ∈ keys WEIGHT_CODES ∧
  ¬ style_round_trip "Narrow" "Regular" ∧
  ¬ style_round_trip "Condensed" "Bold".
Proof.
  split_and!; [in_list..| |].
  - intros (name & data & Hb & Hp). vm_compute in Hb. injection Hb as <- _.
    vm_compute in Hp. discriminate Hp.
  - intros (name & data & Hb & Hp). vm_compute in Hb. injection Hb as <- _.
    vm_compute in Hp. discriminate Hp.
Qed.

(** Claim C2, amended.  For a width token other than "Condensed" and a
    weight token, both from the code tables, parsing the style name built
    from them gives the width token back, and the weight token as well,
    except that the weight "Regular" next to a non-empty width comes back
    empty: [build_style_name] leaves that weight out of the name. *)
Theorem style_round_trip_up_to_regular (width weight : string) :
  width ∈ keys WIDTH_CODES → weight ∈ keys WEIGHT_CODES → width ≠ "Condensed" →
  ∃ name data,
    build_style_name (master_tokens width weight) "width" "weight" "custom" false
    = (Ok name, data) ∧
    parse_style_attrs name
    = [width; if String.eqb weight "Regular" && nonempty width then "" else weight].
Proof.
  intros Hw Hg Hne. vm_compute in Hw, Hg.
  repeat (apply elem_of_cons in Hw as [->|Hw]); try (by apply elem_of_nil in Hw);
    try done;
    repeat (apply elem_of_cons in Hg as [->|Hg]); try (by apply elem_of_nil in Hg);
    eexists _, _; (split; [vm_compute; reflexivity|vm_compute; reflexivity]).
Qed.

Lemma style_round_trip_up_to_regular_witness :
  ∃ name data,
    build_style_name (master_tokens "SemiCondensed" "ExtraBold")
      "width" "weight" "custom" false = (Ok name, data) ∧
    parse_style_attrs name = ["SemiCondensed"; "ExtraBold"].
Proof.
  apply (style_round_trip_up_to_regular "SemiCondensed" "ExtraBold").
  - in_list.
  - in_list.
  - discriminate.
Defined.

(** ** Kerning *)

(** Claim C1 fails as stated: the load makes no entry ("A2", "B") and prints
    no warning. *)
Lemma explicit_pair_claim_counterexample :
  ¬ explicit_pair_claim (load_kerning scenario_kerning (scenario_font ∅ ∅ ∅, [])) ∧
  ¬ explicit_pair_claim (load_kerning scenario_kerning_rev (scenario_font ∅ ∅ ∅, [])) ∧
  (load_kerning scenario_kerning (scenario_font ∅ ∅ ∅, [])).2.2 = [] ∧
  (load_kerning scenario_kerning_rev (scenario_font ∅ ∅ ∅, [])).2.2 = [].
Proof.
  split_and!; [| |reflexivity..];
    intros (_ & H & _); vm_compute in H; discriminate H.
Qed.

(** Claim C1, amended.  In the scenario, in either iteration order of the
    kerning dictionary, the load ends without a warning and the kerning map
    holds exactly the explicit pair ("A1", "B") = -10 and the class pair
    ("public.kern1.A", "B") = -40.  The class pair is kept, so "A2" has the
    value -40 through its class and no entry ("A2", "B") is made: an explicit
    glyph pair of the kerning data is not a conflict. *)
Theorem explicit_pair_keeps_class_rule (i lb : gmap string value)
    (ly : gmap string (gmap string glyph_obj)) (ws : list warning) :
  let loaded :=
    Font i lb {[ "public.kern1.A" := ["A1"; "A2"] ]}
         {[ ("A1", "B") := -10; ("public.kern1.A", "B") := -40 ]} ly in
  load_kerning scenario_kerning (scenario_font i lb ly, ws) = (Ok tt, (loaded, ws)) ∧
  load_kerning scenario_kerning_rev (scenario_font i lb ly, ws) = (Ok tt, (loaded, ws)) ∧
  kerning loaded !! ("A1", "B") = Some (-10) ∧
  kerning loaded !! ("public.kern1.A", "B") = Some (-40) ∧
  kerning loaded !! ("A2", "B") = None.
Proof.
  split_and!; vm_compute; reflexivity.
Qed.

(** Two class rules that disagree on a glyph pair do produce the warning,
    and the later-processed rule loses the member. *)
Example class_rules_conflict :
  load_kerning [ ("@MMK_L_A", [("B", -40)]); ("@MMK_L_C", [("B", -10)]) ]
    (Font ∅ ∅ {[ "public.kern1.A" := ["A1"; "A2"]; "public.kern1.C" := ["A1"] ]} ∅ ∅, [])
  = (Ok tt,
     (Font ∅ ∅ {[ "public.kern1.A" := ["A1"; "A2"]; "public.kern1.C" := ["A1"] ]}
           {[ ("A2", "B") := -40; ("public.kern1.C", "B") := -10 ]} ∅,
      [ ConflictingRules VNone ("A1", "B") ("public.kern1.C", "B", -10)
                         ("public.kern1.A", "B", -40) ])).
Proof. vm_compute. reflexivity. Qed.

(** ** The embedding on sample inputs *)

Example parse_style_attrs_sample :
  parse_style_attrs "Extra Condensed SemiBold Italic" = ["Extra Condensed"; "SemiBold"] ∧
  parse_style_attrs "Condensed Bold" = ["Cond"; "Bold"] ∧
  parse_style_attrs "Display" = [""; ""].
Proof. split_and!; vm_compute; reflexivity. Qed.

Example build_style_name_sample :
  (build_style_name {[ "width" := VStr "Narrow"; "custom" := VStr "Display" ]}
     "width" "weight" "custom" true).1 = Ok "Narrow Display Italic" ∧
  (build_style_name ∅ "width" "weight" "custom" false).1 = Ok "Regular".
Proof. split; vm_compute; reflexivity. Qed.

Example normalize_custom_param_name_sample :
  normalize_custom_param_name "Don’t" = "Don't".
Proof. vm_compute. reflexivity. Qed.

Example rewrite_custom_param_sample :
  rewrite_custom_param (VStr "winDescent", VInt (-200)) = Ok ("openTypeOS2WinDescent", VInt 200) ∧
  rewrite_custom_param (VStr "underlinePosition", VInt (-100))
  = Ok ("postscriptUnderlinePosition", VInt (-100)) ∧
  rewrite_custom_param (VStr "disablesNiceNames", VBool true) = Ok ("useNiceNames", VInt 0).
Proof. split_and!; vm_compute; reflexivity. Qed.

Example set_blue_values_sample :
  let r := set_blue_values blues_info_accepts
             [(800, 10); (0, -10); (-200, -15); (500, 12)] empty_font in
  r.1 = Ok tt ∧
  info r.2 !! "postscriptBlueValues"
  = Some (VList (VInt <$> [-10; 0; 500; 512; 800; 810])) ∧
  info r.2 !! "postscriptOtherBlues" = Some (VList (VInt <$> [-215; -200])).
Proof. split_and!; vm_compute; reflexivity. Qed.

(** Eight zones in the primary list make sixteen blue values, which an info
    object with the limits of the UFO specification refuses. *)
Example set_blue_values_too_many :
  set_blue_values blues_info_accepts eight_zones empty_font = (Raise ValueError, empty_font).
Proof. vm_compute. reflexivity. Qed.

Example draw_paths_sample :
  draw_paths [sample_open; sample_closed] []
  = (Ok tt,
     [ BeginPath;
       AddPoint (0, 0) (Some "move") None;
       AddPoint (10, 0) None (Some false);
       AddPoint (10, 10) (Some "curve") (Some true);
       EndPath;
       BeginPath;
       AddPoint (0, 0) (Some "line") (Some false);
       AddPoint (10, 0) None (Some false);
       AddPoint (10, 10) (Some "curve") (Some true);
       AddPoint (0, 10) None (Some false);
       EndPath ]).
Proof. vm_compute. reflexivity. Qed.

Example to_ufo_time_sample :
  to_ufo_time (Datetime 2016 3 7 9 5 0) = "2016/03/07 09:05:00".
Proof. vm_compute. reflexivity. Qed.

(** * Further theorems *)

(** ** Open paths in the translation of a document *)

Lemma fails_lift_ok {S A B} (a : A) (f : A → M S B) :
  fails (f a) → fails (lift (Ok a) ≫= f).
Proof. intros Hf s Hs. exact (Hf s Hs). Qed.

Lemma triple_lift_ok_bind {S A B} (a : A) (f : A → M S B) (P : S → Prop)
    (Q : B → S → Prop) (E : exn → S → Prop) :
  triple P (f a) Q E → triple P (lift (Ok a) ≫= f) Q E.
Proof. intros Hf s Hs. exact (Hf s Hs). Qed.

Lemma fails_triple {S A} (m : M S A) (P Q : S → Prop) :
  fails m → triple P m (λ _, Q) (λ _ _, True).
Proof.
  intros Hm s _. specialize (Hm s I). by destruct (m s) as [[a|e] s'].
Qed.

Lemma fails_for_each {S A} (P : A → Prop) (xs : list A) (body : A → M S unit) :
  (∀ x, P x → fails (body x)) → Exists P xs → fails (for_each xs body).
Proof.
  intros Hbody Hex. induction Hex as [x xs Hx|x xs _ IH]; cbn [for_each].
  - by apply fails_bind_l, Hbody.
  - apply fails_bind_r. intros _. exact IH.
Qed.

(** A loop establishes [Q] when the body establishes it for some element
    and keeps it for all. *)
Lemma triple_for_each_exists {S A} (P : A → Prop) (Q : S → Prop) (xs : list A)
    (body : A → M S unit) :
  (∀ x, P x → triple (λ _, True) (body x) (λ _, Q) (λ _ _, True)) →
  (∀ x, triple Q (body x) (λ _, Q) (λ _ _, True)) →
  Exists P xs →
  triple (λ _, True) (for_each xs body) (λ _, Q) (λ _ _, True).
Proof.
  intros Hest Hkeep Hex. induction Hex as [x xs Hx|x xs _ IH]; cbn [for_each].
  - eapply triple_bind; [by apply Hest|]. intros ?.
    apply triple_for_each. intros y ?. apply Hkeep.
  - apply (triple_bind _ _ _ (λ _ _, True)); [|intros ?; exact IH].
    intros s _. by destruct (body x s) as [[a|e] s'].
Qed.

Lemma fails_on_ufos {A} (master_id : value) (m : M font A) :
  fails m → fails (on_ufos master_id m).
Proof.
  intros Hm s _. unfold on_ufos.
  destruct (ufos_get (t_ufos s) master_id) as [u|]; [|done].
  specialize (Hm u I). by destruct (m u) as [[a|e] u'].
Qed.

Lemma load_glyph_fails_background (h : glyph_ref) (l background : layer)
    (gd : glyph_metadata) :
  l_background l = Some background → has_bad_open background →
  fails (load_glyph h l gd).
Proof.
  intros Hbg Hbad. unfold load_glyph.
  do 8 (apply fails_bind_r; intros ?).
  apply fails_bind_l. unfold load_glyph_libdata.
  apply fails_bind_r. intros _. apply fails_bind_l.
  rewrite Hbg. by apply set_glyph_background_fails.
Qed.

(** *** The loop over the layers *)

Lemma on_ufos_keeps_queue {A} (master_id : value) (m : M font A) :
  triple queued (on_ufos master_id m) (λ _, queued) (λ _ _, True).
Proof.
  intros s Hs. unfold on_ufos.
  destruct (ufos_get (t_ufos s) master_id) as [u|]; [|done].
  by destruct (m u) as [[a|e] u'].
Qed.

Lemma to_ufos_layer_keeps_queue (glyph_name : string) (glyph_data : glyph_metadata)
    (l : layer_dict) :
  triple queued (to_ufos_layer glyph_name glyph_data l) (λ _, queued) (λ _ _, True).
Proof.
  unfold to_ufos_layer.
  destruct (ly_layerId l) as [layer_id|]; [|by intros s Hs].
  apply triple_lift_ok_bind.
  destruct (ly_associatedMasterId l) as [assoc_id|].
  - destruct (ly_name l) as [layer_name|]; [|by apply triple_ret].
    apply triple_modify. intros s Hs. unfold queued in *. cbn. apply Exists_app. by left.
  - apply on_ufos_keeps_queue.
Qed.

Lemma to_ufos_layer_queues (glyph_name : string) (glyph_data : glyph_metadata)
    (l : layer_dict) :
  Exists has_bad_open (drawn_layers l) →
  triple (λ _, True) (to_ufos_layer glyph_name glyph_data l) (λ _, queued)
         (λ _ _, True).
Proof.
  intros Hbad. unfold to_ufos_layer, drawn_layers in *.
  destruct (ly_layerId l) as [layer_id|]; [|by intros s Hs].
  apply triple_lift_ok_bind.
  destruct (ly_associatedMasterId l) as [assoc_id|].
  - destruct (ly_name l) as [layer_name|]; [|by inv Hbad].
    apply Exists_cons in Hbad as [Hbad|Hbad]; [|by inv Hbad].
    apply triple_modify. intros s _. unfold queued. cbn. apply Exists_app. right.
    by apply Exists_cons_hd.
  - apply fails_triple, fails_on_ufos, fails_bind_r. intros ?.
    apply Exists_cons in Hbad as [Hbad|Hbad].
    + by apply load_glyph_fails.
    + destruct (l_background (ly_data l)) as [background|] eqn:Hbg; [|by inv Hbad].
      apply Exists_cons in Hbad as [Hbad|Hbad]; [|by inv Hbad].
      by apply (load_glyph_fails_background _ _ background).
Qed.

Lemma to_ufos_glyph_keeps_queue (glyph : glyph_dict) :
  triple queued (to_ufos_glyph glyph) (λ _, queued) (λ _ _, True).
Proof.
  unfold to_ufos_glyph.
  apply (triple_bind _ _ _ (λ _, queued)).
  { intros s Hs. destruct (add_glyph_to_groups _ _) as [[kg names]|e]; [exact Hs|done]. }
  intros names.
  apply (triple_bind _ _ _ (λ _, queued)); [by apply triple_lift; intros s Hs; destruct (pop_field _ _)|].
  intros glyph_name.
  apply (triple_bind _ _ _ (λ _, queued)); [by apply triple_modify|]. intros ?.
  apply (triple_bind _ _ _ (λ _, queued)).
  { destruct (negb _); [by apply triple_modify|by apply triple_ret]. }
  intros ?.
  apply (triple_bind _ _ _ (λ _, queued)); [by apply triple_lift; intros s Hs; destruct (pop_field _ _)|].
  intros layers. apply triple_for_each. intros l _. apply to_ufos_layer_keeps_queue.
Qed.

Lemma to_ufos_glyph_queues (glyph : glyph_dict) :
  Exists (λ l, Exists has_bad_open (drawn_layers l)) (default [] (gy_layers glyph)) →
  triple (λ _, True) (to_ufos_glyph glyph) (λ _, queued) (λ _ _, True).
Proof.
  intros Hbad. unfold to_ufos_glyph.
  destruct (gy_layers glyph) as [layers|]; [|by inv Hbad]. cbn [default] in Hbad.
  apply (triple_bind _ _ _ (λ _ _, True)).
  { intros s _. by destruct (add_glyph_to_groups _ _) as [[kg names]|e]. }
  intros names.
  apply (triple_bind _ _ _ (λ _ _, True));
    [by apply triple_lift; intros s Hs; destruct (pop_field _ _)|].
  intros glyph_name.
  apply (triple_bind _ _ _ (λ _ _, True)); [by apply triple_modify|]. intros ?.
  apply (triple_bind _ _ _ (λ _ _, True)).
  { destruct (negb _); [by apply triple_modify|by apply triple_ret]. }
  intros ?. apply triple_lift_ok_bind.
  apply (triple_for_each_exists (λ l, Exists has_bad_open (drawn_layers l)));
    [|intros l; apply to_ufos_layer_keeps_queue|exact Hbad].
  intros l Hl. by apply to_ufos_layer_queues.
Qed.

Lemma to_ufos_background_fails (bg : string * string * string * layer) :
  bad_background bg → fails (to_ufos_background bg).
Proof.
  destruct bg as [[[layer_id glyph_name] bg_name] bg_data]. intros Hbad.
  unfold to_ufos_background. apply fails_on_ufos.
  intros u _. erewrite bind_ok; [|reflexivity].
  destruct (bool_decide _); [|done].
  by apply (set_glyph_background_fails _ _ bg_data Hbad u I).
Qed.

(** The two loops of [to_ufos] over the glyphs and over the queued
    backgrounds raise when a path that is drawn is open and does not start
    with a line. *)
Lemma to_ufos_loops_fail {A} (glyphs : list glyph_dict) (rest : M translation A) :
  draws_bad_open glyphs →
  fails (for_each glyphs to_ufos_glyph;;
         supplementary_bg_data ← gets t_supplementary_bg_data;
         for_each supplementary_bg_data to_ufos_background;;
         rest).
Proof.
  intros Hbad.
  apply (triple_bind _ _ _ (λ _, queued)).
  { apply (triple_for_each_exists
             (λ g, Exists (λ l, Exists has_bad_open (drawn_layers l))
                          (default [] (gy_layers g))));
      [|intros g; apply to_ufos_glyph_keeps_queue|exact Hbad].
    intros g Hg. by apply to_ufos_glyph_queues. }
  intros ? s Hs. erewrite bind_ok; [|reflexivity].
  pose proof (fails_for_each bad_background (t_supplementary_bg_data s)
                to_ufos_background to_ufos_background_fails Hs) as Hloop.
  by apply (fails_bind_l _ (λ _, rest) Hloop s I).
Qed.

Section to_ufos_fails.
Variable info_hasattr : string → bool.
Variable info_accepts : string → value → bool.
Variable propagate_font_anchors : M font unit.

Lemma to_ufos_fails (data : document) (family_name : option value)
    (glyphs : list glyph_dict) :
  d_glyphs data = Some glyphs → draws_bad_open glyphs →
  fails (to_ufos info_hasattr info_accepts propagate_font_anchors data family_name).
Proof.
  intros Hglyphs Hbad. unfold to_ufos.
  do 7 (apply fails_bind_r; intros ?).
  rewrite Hglyphs. apply fails_lift_ok.
  by apply to_ufos_loops_fail.
Qed.
End to_ufos_fails.

(** *** A layer that is skipped *)

Lemma to_ufos_layer_skips (glyph_name : string) (glyph_data : glyph_metadata)
    (l : layer_dict) (layer_id assoc_id : string) (s : translation) :
  ly_layerId l = Some layer_id → ly_associatedMasterId l = Some assoc_id →
  ly_name l = None →
  to_ufos_layer glyph_name glyph_data l s = (Ok tt, s).
Proof. intros Hid Hassoc Hname. unfold to_ufos_layer. by rewrite Hid, Hassoc, Hname. Qed.

(** *** The fonts are finished whenever the anchor propagation returns *)

Lemma dict_set_keys (ufos : list (value * font)) (key : value) (u : font) :
  is_Some (ufos_get ufos key) → (dict_set ufos key u).*1 = ufos.*1.
Proof.
  induction ufos as [|[k u'] ufos IH]; cbn [ufos_get dict_set]; [by intros [? ?]|].
  destruct (key_eqb k key); [done|]. intros H. cbn. by rewrite IH.
Qed.

Lemma ufos_get_keys (ufos ufos' : list (value * font)) (key : value) :
  ufos'.*1 = ufos.*1 → is_Some (ufos_get ufos key) → is_Some (ufos_get ufos' key).
Proof.
  revert ufos'. induction ufos as [|[k u] ufos IH]; intros [|[k' u'] ufos'] Hkeys;
    cbn [ufos_get]; try done.
  injection Hkeys as -> Hkeys. destruct (key_eqb k key); [by eexists|]. by apply IH.
Qed.

Lemma on_ufos_returns (master_id : value) (m : M font unit) (s : translation) :
  (∀ u, (m u).1 = Ok tt) → is_Some (ufos_get (t_ufos s) master_id) →
  ∃ s', on_ufos master_id m s = (Ok tt, s') ∧ (t_ufos s').*1 = (t_ufos s).*1 ∧
        t_kerning_groups s' = t_kerning_groups s ∧ t_glyph_order s' = t_glyph_order s.
Proof.
  intros Hm Hkey. unfold on_ufos. destruct Hkey as [u Hu]. rewrite Hu.
  specialize (Hm u). destruct (m u) as [r u']. cbn in Hm. subst r.
  eexists. split; [reflexivity|]. split; [|done].
  cbn. apply dict_set_keys. by eexists.
Qed.

Section finish.
Variable propagate_font_anchors : M font unit.
Hypothesis propagate_returns : ∀ u, (propagate_font_anchors u).1 = Ok tt.

Lemma to_ufos_finish_returns (feature_prefixes classes : list (string * string * value))
    (features : list (string * string * value * value * option string))
    (master_id : value) (s : translation) :
  is_Some (ufos_get (t_ufos s) master_id) →
  ∃ s', to_ufos_finish propagate_font_anchors feature_prefixes classes features
          master_id s = (Ok tt, s') ∧
        (t_ufos s').*1 = (t_ufos s).*1.
Proof.
  intros Hkey. unfold to_ufos_finish.
  destruct (on_ufos_returns master_id propagate_font_anchors s propagate_returns Hkey)
    as (s1 & Hrun1 & Hkeys1 & _).
  erewrite bind_ok; [|exact Hrun1].
  erewrite bind_ok; [|reflexivity].
  erewrite bind_ok; [|reflexivity].
  set (s2 := set_features _ s1).
  destruct (on_ufos_returns master_id (add_groups_to_ufo (t_kerning_groups s2)) s2)
    as (s3 & Hrun3 & Hkeys3 & _); [done| |].
  { eapply ufos_get_keys; [|exact Hkey]. exact Hkeys1. }
  erewrite bind_ok; [|exact Hrun3].
  erewrite bind_ok; [|reflexivity].
  destruct (on_ufos_returns master_id
              (set_lib (PUBLIC_PREFIX +:+ "glyphOrder") (VList (VStr <$> t_glyph_order s3)))
              s3)
    as (s5 & Hrun5 & Hkeys5 & _); [done| |].
  { eapply ufos_get_keys; [|exact Hkey]. by rewrite Hkeys3. }
  exists s5. split; [exact Hrun5|]. by rewrite Hkeys5, Hkeys3.
Qed.

Lemma to_ufos_finish_all (feature_prefixes classes : list (string * string * value))
    (features : list (string * string * value * value * option string))
    (master_ids : list value) (s : translation) :
  Forall (λ master_id, is_Some (ufos_get (t_ufos s) master_id)) master_ids →
  ∃ s', for_each master_ids
          (to_ufos_finish propagate_font_anchors feature_prefixes classes features) s
        = (Ok tt, s') ∧
        (t_ufos s').*1 = (t_ufos s).*1.
Proof.
  revert s. induction master_ids as [|master_id master_ids IH]; intros s Hkeys.
  - by exists s.
  - apply Forall_cons in Hkeys as [Hkey Hkeys].
    destruct (to_ufos_finish_returns feature_prefixes classes features master_id s Hkey)
      as (s1 & Hrun1 & Hkeys1).
    destruct (IH s1) as (s2 & Hrun2 & Hkeys2).
    { eapply Forall_impl; [exact Hkeys|]. intros k. by apply ufos_get_keys. }
    exists s2. cbn [for_each]. erewrite bind_ok; [|exact Hrun1].
    split; [exact Hrun2|]. by rewrite Hkeys2.
Qed.
End finish.

Lemma ufos_list_returns (ufos : list (value * font)) (master_id_order : list value) :
  Forall (λ master_id, is_Some (ufos_get ufos master_id)) master_id_order →
  ∃ fonts, ufos_list ufos master_id_order = Ok fonts ∧
           length fonts = length master_id_order.
Proof.
  induction 1 as [|master_id order [u Hu] _ (fonts & Hrest & Hlen)]; [by exists []|].
  exists (u :: fonts). cbn [ufos_list]. rewrite Hu, Hrest. split; [done|].
  cbn. by rewrite Hlen.
Qed.

Lemma run_eq {S A} (m : M S A) (s : S) (a : A) :
  (m s).1 = Ok a → m s = (Ok a, (m s).2).
Proof. destruct (m s) as [r s']. by intros [= ->]. Qed.

Section to_ufos_returns.
Variable info_hasattr : string → bool.
Variable info_accepts : string → value → bool.
Variable propagate_font_anchors : M font unit.
Hypothesis propagate_returns : ∀ u, (propagate_font_anchors u).1 = Ok tt.

(** [to_ufos] returns one font for each master when the entries it pops are
    there, the base fonts are generated, the two loops over the glyphs and
    over the queued backgrounds return, the source has no kerning, and the
    anchor propagation returns. *)
Lemma to_ufos_returns (data : document) (family_name : option value)
    (source_family_name : value)
    (feature_prefixes classes : list (string * string * value))
    (features : list (string * string * value * value * option string))
    (base : list (value * font) * list value) (glyphs : list glyph_dict)
    (s : translation) :
  d_familyName data = Some source_family_name →
  mapM pop_prefix_or_class (default [] (d_featurePrefixes data)) = Ok feature_prefixes →
  mapM pop_prefix_or_class (default [] (d_classes data)) = Ok classes →
  mapM pop_feature (default [] (d_features data)) = Ok features →
  (generate_base_fonts info_hasattr info_accepts
     (default source_family_name family_name) (d_source data)).1 = Ok base →
  d_glyphs data = Some glyphs →
  d_kerning data = None →
  let s0 := set_ufos (λ _, base.1)
              (if default 0 (d_appVersion data) <? 895
               then set_stderr (λ l, l ++ [OutdatedVersion]) s else s) in
  let s1 := (for_each glyphs to_ufos_glyph s0).2 in
  let s2 := (for_each (t_supplementary_bg_data s1) to_ufos_background s1).2 in
  (for_each glyphs to_ufos_glyph s0).1 = Ok tt →
  (for_each (t_supplementary_bg_data s1) to_ufos_background s1).1 = Ok tt →
  Forall (λ master_id, is_Some (ufos_get (t_ufos s2) master_id))
         ((t_ufos s2).*1 ++ base.2) →
  ∃ fonts instances s',
    to_ufos info_hasattr info_accepts propagate_font_anchors data family_name s
    = (Ok (fonts, instances), s') ∧
    length fonts = length base.2.
Proof.
  intros Hfam Hfp Hcl Hfe Hbase Hglyphs Hkern s0 s1 s2 Hloop1 Hloop2 Hkeys.
  apply Forall_app in Hkeys as [Hkeys Horder].
  unfold to_ufos. cbv zeta.
  rewrite (bind_ok _ _ s tt
             (if default 0 (d_appVersion data) <? 895
              then set_stderr (λ l, l ++ [OutdatedVersion]) s else s))
    by (by destruct (_ <? _)).
  rewrite Hfam, Hfp, Hcl, Hfe, Hglyphs, Hkern.
  do 4 (erewrite bind_ok; [|reflexivity]).
  rewrite Hbase.
  do 3 (erewrite bind_ok; [|reflexivity]).
  erewrite bind_ok.
  2:{ apply run_eq. destruct (_ <? _); exact Hloop1. }
  erewrite bind_ok; [|reflexivity].
  erewrite bind_ok.
  2:{ apply run_eq. destruct (_ <? _); exact Hloop2. }
  erewrite bind_ok; [|reflexivity].
  assert ((if default 0 (d_appVersion data) <? 895
           then set_ufos (λ _, base.1) (set_stderr (λ l, l ++ [OutdatedVersion]) s)
           else set_ufos (λ _, base.1) s) = s0) as Hs0 by (unfold s0; by destruct (_ <? _)).
  assert (∀ {B} (f : translation → B),
            f (if default 0 (d_appVersion data) <? 895
               then set_ufos (λ _, base.1) (set_stderr (λ l, l ++ [OutdatedVersion]) s)
               else set_ufos (λ _, base.1) s) = f s0) as Hf
    by (intros B f; by rewrite Hs0).
  clear Hs0.
  destruct (to_ufos_finish_all propagate_font_anchors propagate_returns
              feature_prefixes classes features (t_ufos s2).*1 s2 Hkeys)
    as (s3 & Hrun3 & Hkeys3).
  assert (∃ fonts, ufos_list (t_ufos s3) base.2 = Ok fonts ∧
                   length fonts = length base.2) as (fonts & Hfonts & Hlen).
  { apply ufos_list_returns. eapply Forall_impl; [exact Horder|].
    intros k. by apply ufos_get_keys. }
  exists fonts. eexists _, s3. split; [|exact Hlen].
  destruct (default 0 (d_appVersion data) <? 895);
    (erewrite bind_ok; [|exact Hrun3]);
    (erewrite bind_ok; [|reflexivity]);
    (erewrite bind_ok; [|reflexivity]);
    cbn [for_each]; rewrite Hfonts; reflexivity.
Qed.
End to_ufos_returns.

(** Claim C5, as the code has it.  When a path that the translation draws is
    not marked closed and does not start with a node of type "line",
    [to_ufos] raises and returns no font: the path may be in a layer without
    [associatedMasterId], in the background of such a layer, or in a layer
    with [associatedMasterId] and a name.  At the offending path
    [draw_paths] raises the failed assertion.  A layer with
    [associatedMasterId] and without a name is skipped, whatever its paths
    are.  When every open path starts with a "line" node, [draw_paths] never
    raises the assertion error. *)
Theorem open_path_must_start_with_line :
  (∀ (info_hasattr : string → bool) (info_accepts : string → value → bool)
     (propagate_font_anchors : M font unit) (data : document)
     (family_name : option value) (glyphs : list glyph_dict) (s : translation),
     d_glyphs data = Some glyphs → draws_bad_open glyphs →
     ∃ e, (to_ufos info_hasattr info_accepts propagate_font_anchors data family_name s).1
          = Raise e) ∧
  (∀ (p : path) rest calls, bad_open p →
     draw_paths (p :: rest) calls
     = (Raise (AssertionError "Open path starts with off-curve points"),
        calls ++ [BeginPath])) ∧
  (∀ glyph_name glyph_data (l : layer_dict) layer_id assoc_id (s : translation),
     ly_layerId l = Some layer_id → ly_associatedMasterId l = Some assoc_id →
     ly_name l = None →
     to_ufos_layer glyph_name glyph_data l s = (Ok tt, s)) ∧
  (∀ (paths : list path) calls msg, Forall open_starts_with_line paths →
     (draw_paths paths calls).1 ≠ Raise (AssertionError msg)).
Proof.
  split_and!.
  - intros info_hasattr info_accepts propagate data family_name glyphs s Hglyphs Hbad.
    by apply fails_spec, (to_ufos_fails _ _ _ _ _ glyphs).
  - intros. by apply draw_paths_bad_open.
  - intros. by eapply to_ufos_layer_skips.
  - intros paths calls msg Hall Hr.
    pose proof (draw_paths_no_assertion paths Hall calls I) as H.
    destruct (draw_paths paths calls) as [[a|e] s]; simplify_eq/=. by eapply H.
Qed.

Lemma sample_bad_open_is_bad : bad_open sample_bad_open.
Proof.
  split; [reflexivity|].
  exists 0, 0, "offcurve", false, [(5, 5, "line", false)].
  split; [reflexivity|discriminate].
Qed.

Lemma open_path_must_start_with_line_witness :
  (∃ e, (to_ufos hhea_info_hasattr blues_info_accepts (mret tt)
           (sample_document [sample_named_layer; sample_master_layer "M1";
                             sample_master_layer "M2"])
           None no_translation).1 = Raise e) ∧
  draw_paths [sample_bad_open] []
  = (Raise (AssertionError "Open path starts with off-curve points"), [BeginPath]) ∧
  to_ufos_layer "A" (metadata_with_color 3) sample_nameless_layer no_translation
  = (Ok tt, no_translation) ∧
  (draw_paths [sample_open; sample_closed] []).1
  ≠ Raise (AssertionError "Open path starts with off-curve points").
Proof.
  destruct open_path_must_start_with_line as (Hfail & Hassert & Hskip & Hconv).
  split_and!.
  - apply (Hfail _ _ _ _ _ [sample_glyph_dict [sample_named_layer; sample_master_layer "M1";
                                                sample_master_layer "M2"]]).
    + reflexivity.
    + apply Exists_cons_hd, Exists_cons_hd, Exists_cons_hd, Exists_cons_hd.
      exact sample_bad_open_is_bad.
  - apply (Hassert sample_bad_open [] []). exact sample_bad_open_is_bad.
  - apply (Hskip "A" (metadata_with_color 3) sample_nameless_layer "L3" "M1");
      reflexivity.
  - apply Hconv. repeat constructor.
    + intros _ x y t sm ns Hn. injection Hn as _ _ <- _ _. reflexivity.
    + intros Hc. discriminate Hc.
Defined.

(** Claim C5 fails as stated: the document has a glyph with a layer for
    each of its two masters and a third layer with [associatedMasterId] and
    without a name; the path of the third layer is open and starts with an
    off-curve point, and [to_ufos] returns the two fonts. *)
Lemma open_path_in_skipped_layer_counterexample :
  holds_bad_open
    [sample_glyph_dict [sample_master_layer "M1"; sample_master_layer "M2";
                        sample_nameless_layer]] ∧
  translated hhea_info_hasattr blues_info_accepts
    (sample_document [sample_master_layer "M1"; sample_master_layer "M2";
                      sample_nameless_layer]) 2.
Proof.
  split.
  - apply Exists_cons_hd. cbn [gy_layers sample_glyph_dict default].
    apply Exists_cons_tl, Exists_cons_tl, Exists_cons_hd, Exists_cons_hd.
    exact sample_bad_open_is_bad.
  - intros propagate Hprop.
    set (base := match (generate_base_fonts hhea_info_hasattr blues_info_accepts
                          (VStr "Noto Sans") sample_source).1 with
                 | Ok base => base
                 | Raise _ => ([], [])
                 end).
    destruct (to_ufos_returns hhea_info_hasattr blues_info_accepts propagate Hprop
                (sample_document [sample_master_layer "M1"; sample_master_layer "M2";
                                  sample_nameless_layer])
                None (VStr "Noto Sans") [] [] [] base
                [sample_glyph_dict [sample_master_layer "M1"; sample_master_layer "M2";
                                    sample_nameless_layer]]
                no_translation) as (fonts & instances & s' & Hrun & Hlen);
      [reflexivity|reflexivity|reflexivity|reflexivity|vm_compute; reflexivity
      |reflexivity|reflexivity|vm_compute; reflexivity|vm_compute; reflexivity
      |apply (bool_decide_unpack _); vm_compute; exact I|].
    exists fonts, instances, s'. split; [exact Hrun|]. rewrite Hlen.
    vm_compute. reflexivity.
Qed.

Lemma preserves_final {S A} (I : S → Prop) (m : M S A) (s : S) :
  preserves I m → I s → I (m s).2.
Proof. intros H Hs. specialize (H s Hs). by destruct (m s) as [[a|e] s']. Qed.

(** ** Guidelines *)

Lemma new_guidelines_ok (gls : list guideline) :
  Forall (λ g, is_Some (gl_position g)) gls →
  ∃ new, new_guidelines gls = Ok new ∧
    length new = length gls ∧
    ∀ i v, new !! i = Some v →
      ∃ src x y a,
        gls !! i = Some src ∧ gl_position src = Some (x, y) ∧
        v = VDict [("x", VInt x); ("y", VInt y); ("angle", VInt a)] ∧
        0 ≤ a < 360 ∧
        (360 - a) `mod` 360 = default 0 (gl_angle src) `mod` 360.
Proof.
  induction 1 as [|g gls [[x y] Hpos] _ (new & Hnew & Hlen & Hall)].
  - exists []. split_and!; [done..|]. intros i v Hi. by rewrite lookup_nil in Hi.
  - eexists. simpl. rewrite Hpos, Hnew. simpl. split_and!; [done|simpl; by rewrite Hlen|].
    intros [|i] v Hi; simpl in Hi.
    + injection Hi as <-. exists g, x, y, ((360 - default 0 (gl_angle g)) `mod` 360).
      split_and!; try done.
      * apply Z.mod_pos_bound. lia.
      * apply Z.mod_pos_bound. lia.
      * rewrite Zminus_mod_idemp_r.
        replace (360 - (360 - default 0 (gl_angle g))) with (default 0 (gl_angle g)) by lia.
        done.
    + by apply Hall.
Qed.

Lemma new_guidelines_missing_position (gls : list guideline) :
  Exists (λ g, gl_position g = None) gls →
  new_guidelines gls = Raise (KeyError "position").
Proof.
  induction 1 as [g gls Hg|g gls _ IH]; simpl.
  - by rewrite Hg.
  - destruct (gl_position g) as [[x y]|]; [|done]. by rewrite IH.
Qed.

(** [set_guidelines] on a glyph, for guidelines that all have a position:
    the glyph gets exactly the new guidelines, one for each source
    guideline and in the same order; each carries the position of its
    source and an angle between 0 and 359 that is the source angle, 0 when
    absent, mirrored modulo 360. *)
Theorem set_guidelines_angles (h : glyph_ref) (l : layer) (gls : list guideline)
    (u : font) (g : glyph_obj) :
  glyph_at h u = Some g →
  l_guideLines l = Some gls → gls ≠ [] →
  Forall (λ gl, is_Some (gl_position gl)) gls →
  ∃ new,
    glyph_at h (set_guidelines (Some h) l false u).2 = Some (with_guidelines new g) ∧
    (set_guidelines (Some h) l false u).1 = Ok tt ∧
    length new = length gls ∧
    ∀ i v, new !! i = Some v →
      ∃ src x y a,
        gls !! i = Some src ∧ gl_position src = Some (x, y) ∧
        v = VDict [("x", VInt x); ("y", VInt y); ("angle", VInt a)] ∧
        0 ≤ a < 360 ∧
        (360 - a) `mod` 360 = default 0 (gl_angle src) `mod` 360.
Proof.
  intros Hg Hl Hne Hpos.
  destruct (new_guidelines_ok gls Hpos) as (new & Hnew & Hlen & Hall).
  exists new. unfold set_guidelines. rewrite Hl.
  destruct gls as [|gl gls']; [done|].
  erewrite bind_ok; [|by unfold lift; rewrite Hnew].
  split_and!; [|done..].
  rewrite glyph_at_upd, decide_True by done. by rewrite Hg.
Qed.

(** [set_guidelines] changes nothing when the data has no guidelines or an
    empty list of them.  When some guideline has no position it raises
    [KeyError] for "position" and the font is left as it was: the target
    is assigned only after every guideline was converted. *)
Theorem set_guidelines_all_or_nothing (obj : option glyph_ref) (l : layer)
    (is_global : bool) (u : font) :
  (l_guideLines l = None ∨ l_guideLines l = Some [] →
     set_guidelines obj l is_global u = (Ok tt, u)) ∧
  (∀ gls, l_guideLines l = Some gls → Exists (λ g, gl_position g = None) gls →
     set_guidelines obj l is_global u = (Raise (KeyError "position"), u)).
Proof.
  split.
  - intros [H|H]; unfold set_guidelines; by rewrite H.
  - intros gls Hl Hex. unfold set_guidelines. rewrite Hl.
    destruct gls as [|gl gls']; [by inv Hex|].
    erewrite bind_raise; [done|].
    unfold lift. by rewrite (new_guidelines_missing_position _ Hex).
Qed.

(** ** Components and anchors *)

Lemma draw_components_named (cs : list component) (calls : list pen_call) :
  Forall (λ c, is_Some (c_name c)) cs →
  draw_components cs calls = (Ok tt, calls ++ map component_call cs).
Proof.
  intros Hall. revert calls. induction Hall as [|c cs [name Hname] _ IH]; intros calls.
  - simpl. by rewrite app_nil_r.
  - unfold draw_components. simpl for_each. rewrite Hname.
    erewrite bind_ok; [|reflexivity]. unfold draw_components in IH. rewrite IH.
    simpl map.
    assert (component_call c
            = AddComponent name (default identity_transform (c_transform c))) as ->
      by (unfold component_call; by rewrite Hname).
    by rewrite <-app_assoc.
Qed.

(** [draw_components] sends one [addComponent] call for each component, in
    order, with the identity transformation where the component has none.
    At the first component without a name it raises [KeyError] for "name";
    the calls for the components before it were already made. *)
Theorem draw_components_calls (cs : list component) (calls : list pen_call) :
  (Forall (λ c, is_Some (c_name c)) cs →
     draw_components cs calls = (Ok tt, calls ++ map component_call cs)) ∧
  (∀ named c rest,
     cs = named ++ c :: rest →
     Forall (λ c, is_Some (c_name c)) named → c_name c = None →
     draw_components cs calls
     = (Raise (KeyError "name"), calls ++ map component_call named)).
Proof.
  split; [apply draw_components_named|].
  intros named c rest -> Hall Hc. revert calls.
  induction Hall as [|c' cs' [name Hname] _ IH]; intros calls.
  - unfold draw_components. simpl. rewrite Hc. by rewrite app_nil_r.
  - unfold draw_components. simpl for_each. rewrite Hname.
    erewrite bind_ok; [|reflexivity]. unfold draw_components in IH. rewrite IH.
    simpl map.
    assert (component_call c'
            = AddComponent name (default identity_transform (c_transform c'))) as ->
      by (unfold component_call; by rewrite Hname).
    by rewrite <-app_assoc.
Qed.

Lemma add_anchor_step (h : glyph_ref) (a : anchor) (u : font) (g : glyph_obj) :
  glyph_at h u = Some g → anchor_complete a →
  ∃ u', (match a_position a with
         | None => raise (KeyError "position")
         | Some (x, y) =>
             match a_name a with
             | None => raise (KeyError "name")
             | Some name =>
                 let anchor_dict := VDict [("name", name); ("x", VInt x); ("y", VInt y)] in
                 upd_glyph h (with_anchors (λ l, l ++ [anchor_dict]))
             end
         end) u = (Ok tt, u') ∧
        glyph_at h u' = Some (with_anchors (λ l, l ++ [anchor_dict_of a]) g).
Proof.
  intros Hg [[[x y] Hpos] [name Hname]].
  exists (upd_glyph h (with_anchors (λ l, l ++ [anchor_dict_of a])) u).2.
  split.
  - unfold anchor_dict_of. by rewrite Hpos, Hname.
  - by rewrite glyph_at_upd, decide_True, Hg.
Qed.

(** [add_anchors_to_glyph] appends one anchor for each source anchor, in
    order, after the anchors the glyph already has.  At the first anchor
    that lacks its position or its name it raises [KeyError], for
    "position" first; the anchors before it were already appended. *)
Theorem add_anchors_to_glyph_appends (h : glyph_ref) (anchors : list anchor)
    (u : font) (g : glyph_obj) :
  glyph_at h u = Some g →
  (Forall anchor_complete anchors →
     ∃ g',
       (add_anchors_to_glyph h anchors u).1 = Ok tt ∧
       glyph_at h (add_anchors_to_glyph h anchors u).2 = Some g' ∧
       g_anchors g' = g_anchors g ++ map anchor_dict_of anchors) ∧
  (∀ complete a rest,
     anchors = complete ++ a :: rest →
     Forall anchor_complete complete → ¬ anchor_complete a →
     ∃ g',
       (add_anchors_to_glyph h anchors u).1 = Raise (anchor_error a) ∧
       glyph_at h (add_anchors_to_glyph h anchors u).2 = Some g' ∧
       g_anchors g' = g_anchors g ++ map anchor_dict_of complete).
Proof.
  intros Hg. split.
  - intros Hall. revert u g Hg.
    induction Hall as [|a anchors Ha _ IH]; intros u g Hg.
    + exists g. simpl. by rewrite app_nil_r.
    + destruct (add_anchor_step h a u g Hg Ha) as (u1 & Hstep & Hg1).
      destruct (IH u1 _ Hg1) as (g' & Hok & Hg' & Hanchors).
      exists g'. unfold add_anchors_to_glyph in *. simpl for_each.
      erewrite bind_ok; [|exact Hstep]. split_and!; [done..|].
      rewrite Hanchors. simpl. by rewrite <-app_assoc.
  - intros complete a rest -> Hall Hbad. revert u g Hg.
    induction Hall as [|a' complete Ha' _ IH]; intros u g Hg.
    + exists g. unfold add_anchors_to_glyph, anchor_error. simpl.
      destruct (a_position a) as [[x y]|] eqn:Hpos.
      * destruct (a_name a) as [name|] eqn:Hname.
        -- exfalso. apply Hbad. split; by eexists.
        -- erewrite bind_raise; [|reflexivity]. by rewrite app_nil_r.
      * erewrite bind_raise; [|reflexivity]. by rewrite app_nil_r.
    + destruct (add_anchor_step h a' u g Hg Ha') as (u1 & Hstep & Hg1).
      destruct (IH u1 _ Hg1) as (g' & Hok & Hg' & Hanchors).
      exists g'. unfold add_anchors_to_glyph in *. simpl for_each.
      erewrite bind_ok; [|exact Hstep]. split_and!; [done..|].
      rewrite Hanchors. simpl. by rewrite <-app_assoc.
Qed.

(** ** Backgrounds *)

Lemma glyph_at_newGlyph_other (ln gn gn' : string) (u : font) :
  gn' ≠ gn → glyph_at (ln, gn) (newGlyph (ln, gn') u).2 = glyph_at (ln, gn) u.
Proof.
  intros Hne. destruct u as [i lb gr k ly].
  unfold glyph_at, newGlyph, modify, set_layers_map. simpl.
  rewrite lookup_alter_eq. destruct (ly !! ln); simpl; [|done].
  by rewrite lookup_insert_ne.
Qed.

Section background_frame.
Variables (h : glyph_ref) (u0 : font).

Lemma only_background_changed_refl : only_background_changed h u0 u0.
Proof. by repeat split. Qed.

Lemma frame_upd_glyph (f : glyph_obj → glyph_obj) :
  preserves (only_background_changed h u0) (upd_glyph (background_ref h) f).
Proof.
  intros u (Hi & Hl & Hg & Hk & Hly & Hgl).
  change (only_background_changed h u0 (upd_glyph (background_ref h) f u).2).
  split_and!; try done.
  - intros name Hne. rewrite <-Hly by done. destruct u. simpl.
    by rewrite lookup_alter_ne.
  - intros gn Hne. rewrite <-Hgl by done. rewrite glyph_at_upd.
    rewrite decide_False; [done|]. unfold background_ref. congruence.
Qed.

Lemma frame_on_pen {A} (m : M (list pen_call) A) :
  preserves (only_background_changed h u0) (on_pen (background_ref h) m).
Proof.
  intros u Hu. unfold on_pen. destruct (m _) as [r calls].
  pose proof (frame_upd_glyph (with_pen calls) u Hu) as H. simpl in H.
  by destruct r.
Qed.

Lemma frame_newGlyph :
  preserves (only_background_changed h u0) (newGlyph (background_ref h)).
Proof.
  intros u (Hi & Hl & Hg & Hk & Hly & Hgl).
  change (only_background_changed h u0 (newGlyph (background_ref h) u).2).
  split_and!; try done.
  - intros name Hne. rewrite <-Hly by done. destruct u. simpl.
    by rewrite lookup_alter_ne.
  - intros gn Hne. rewrite <-Hgl by done. by apply glyph_at_newGlyph_other.
Qed.

Lemma frame_newLayer (u : font) :
  layers u !! background_layer_name h = None →
  only_background_changed h u0 u →
  only_background_changed h u0 (newLayer (background_layer_name h) u).2.
Proof.
  intros Hnone (Hi & Hl & Hg & Hk & Hly & Hgl).
  split_and!; try done.
  - intros name Hne. rewrite <-Hly by done. destruct u. simpl.
    by rewrite lookup_insert_ne.
  - intros gn Hne. rewrite <-Hgl by done. destruct u as [i lb gr k ly].
    unfold glyph_at. simpl in *. by rewrite lookup_insert_eq, Hnone.
Qed.

Lemma frame_add_anchors (anchors : list anchor) :
  preserves (only_background_changed h u0) (add_anchors_to_glyph (background_ref h) anchors).
Proof.
  apply preserves_for_each. intros [[[x y]|] [name|]];
    try (by apply triple_raise).
  apply frame_upd_glyph.
Qed.

Lemma frame_set_guidelines (l : layer) :
  preserves (only_background_changed h u0) (set_guidelines (Some (background_ref h)) l false).
Proof.
  unfold set_guidelines. destruct (l_guideLines l) as [[|gl gls]|];
    try (by apply triple_ret).
  apply preserves_bind; [by apply preserves_pure|]. intros new.
  apply frame_upd_glyph.
Qed.

Lemma frame_set_components_attributes (l : layer) :
  preserves (only_background_changed h u0) (set_components_attributes (background_ref h) l).
Proof.
  unfold set_components_attributes. simpl for_each.
  repeat (apply preserves_bind; [|intros ?]); try (by apply triple_ret);
    apply preserves_when;
    (apply preserves_bind; [by apply preserves_pure|intros key']);
    apply frame_upd_glyph.
Qed.

Lemma frame_set_glyph_background (key : string) (background : option layer) :
  preserves (only_background_changed h u0) (set_glyph_background h key background).
Proof.
  unfold set_glyph_background. destruct background as [b|]; [|by apply triple_ret].
  destruct (layer_is_empty b); [by apply triple_ret|].
  fold (background_layer_name h). fold (background_ref h).
  intros u Hu. unfold mbind at 1, M_bind at 1, gets at 1.
  set (has_layer := bool_decide (is_Some (layers u !! background_layer_name h))).
  set (rest := λ _ : unit, _).
  assert (preserves (only_background_changed h u0) (rest tt)) as Hrest.
  { unfold rest.
    apply preserves_bind; [apply frame_newGlyph|]. intros _.
    apply preserves_bind; [by apply preserves_pure|]. intros glyph_width.
    apply preserves_bind; [apply frame_upd_glyph|]. intros _.
    apply preserves_bind; [apply frame_on_pen|]. intros _.
    apply preserves_bind; [apply frame_on_pen|]. intros _.
    apply preserves_bind; [apply frame_add_anchors|]. intros _.
    apply preserves_bind; [apply frame_set_guidelines|]. intros _.
    apply frame_set_components_attributes. }
  unfold mbind, M_bind at 1. unfold when.
  destruct has_layer eqn:Hhas; simpl negb; cbv iota.
  - apply (Hrest u Hu).
  - change (newLayer (background_layer_name h) u)
      with (Ok tt, (newLayer (background_layer_name h) u).2).
    cbv iota beta. apply Hrest, frame_newLayer; [|done].
    apply bool_decide_eq_false in Hhas.
    by apply eq_None_not_Some.
Qed.
End background_frame.

(** [set_glyph_background] touches nothing but the glyph of the same name in
    the background layer, also when it raises: info, lib, groups, kerning
    and all other layers and glyphs are as before, and so is the glyph
    itself.  Without a background, or with an empty one, the font is
    unchanged. *)
Theorem set_glyph_background_frame (h : glyph_ref) (key : string)
    (background : option layer) (u : font) :
  let out := set_glyph_background h key background u in
  only_background_changed h u out.2 ∧
  glyph_at h out.2 = glyph_at h u ∧
  (background = None ∨ (∃ b, background = Some b ∧ layer_is_empty b = true) →
   out = (Ok tt, u)).
Proof.
  pose proof (frame_set_glyph_background h u key background u
                (only_background_changed_refl h u)) as H.
  assert (only_background_changed h u (set_glyph_background h key background u).2) as Hf.
  { by destruct (set_glyph_background h key background u) as [[[]|e] u']. }
  split_and!; [done| |].
  - destruct Hf as (_ & _ & _ & _ & Hly & _).
    unfold glyph_at. rewrite Hly; [done|].
    intros Heq. by apply (background_layer_name_ne h.1).
  - intros [->|(b & -> & Hb)]; [done|]. unfold set_glyph_background. by rewrite Hb.
Qed.

Lemma on_pen_ok {A} (r : glyph_ref) (m : M (list pen_call) A) (u : font)
    (g : glyph_obj) (a : A) (calls : list pen_call) :
  glyph_at r u = Some g → m (g_pen g) = (Ok a, calls) →
  ∃ u', on_pen r m u = (Ok a, u') ∧ glyph_at r u' = Some (with_pen calls g).
Proof.
  intros Hg Hm. unfold on_pen. rewrite Hg. simpl. rewrite Hm.
  eexists. split; [reflexivity|].
  change (glyph_at r (upd_glyph r (with_pen calls) u).2 = Some (with_pen calls g)).
  by rewrite glyph_at_upd, decide_True, Hg.
Qed.

Lemma newGlyph_fresh (r : glyph_ref) (u : font) :
  is_Some (layers u !! r.1) → glyph_at r (newGlyph r u).2 = Some empty_glyph.
Proof.
  intros [glyphs Hl]. destruct u as [i lb gr k ly], r as [ln gn].
  unfold glyph_at, newGlyph, modify, set_layers_map. simpl in *.
  rewrite lookup_alter_eq, Hl. simpl. by rewrite lookup_insert_eq.
Qed.

(** For a non-empty background whose paths and components can be drawn,
    [set_glyph_background] leaves a fresh glyph in the background layer: its
    width is the width of the background, or of the glyph when the
    background has none; its outline is made of the calls for the paths
    followed by those for the components; it has no unicode and no note. *)
Theorem set_glyph_background_rebuilds (h : glyph_ref) (key : string) (b : layer)
    (u : font) (g : glyph_obj) (calls1 calls2 : list pen_call) :
  glyph_at h u = Some g →
  layer_is_empty b = false →
  draw_paths (default [] (l_paths b)) [] = (Ok tt, calls1) →
  draw_components (default [] (l_components b)) calls1 = (Ok tt, calls2) →
  ∃ g',
    glyph_at (background_ref h) (set_glyph_background h key (Some b) u).2 = Some g' ∧
    g_width g' = default (g_width g) (l_width b) ∧
    g_pen g' = calls2 ∧
    g_unicode g' = VNone ∧ g_note g' = VNone.
Proof.
  intros Hg Hb Hpaths Hcomps.
  set (I := λ u' : font, ∃ g', glyph_at (background_ref h) u' = Some g' ∧
              g_width g' = default (g_width g) (l_width b) ∧ g_pen g' = calls2 ∧
              g_unicode g' = VNone ∧ g_note g' = VNone).
  assert (∀ f, (∀ g', g_width (f g') = g_width g' ∧ g_pen (f g') = g_pen g' ∧
                      g_unicode (f g') = g_unicode g' ∧ g_note (f g') = g_note g') →
               preserves I (upd_glyph (background_ref h) f)) as Hupd.
  { intros f Hf u' (g' & Hg' & Hw & Hp & Hu & Hn).
    change (I (upd_glyph (background_ref h) f u').2).
    exists (f g'). rewrite glyph_at_upd, decide_True, Hg' by done.
    destruct (Hf g') as (-> & -> & -> & ->). done. }
  assert (I (set_glyph_background h key (Some b) u).2) as H; [|exact H].
  unfold set_glyph_background. rewrite Hb.
  fold (background_layer_name h). fold (background_ref h).
  unfold mbind at 1, M_bind at 1, gets at 1.
  set (has_layer := bool_decide (is_Some (layers u !! background_layer_name h))).
  set (u1 := if has_layer then u else (newLayer (background_layer_name h) u).2).
  assert (is_Some (layers u1 !! background_layer_name h)) as Hlayer.
  { unfold u1. destruct has_layer eqn:Hhas.
    - by apply bool_decide_eq_true in Hhas.
    - destruct u. simpl. rewrite lookup_insert_eq. by eexists. }
  assert (glyph_at h u1 = Some g) as Hg1.
  { unfold u1. destruct has_layer; [done|].
    rewrite glyph_at_newLayer; [done|]. apply background_layer_name_ne. }
  assert ((when (negb has_layer) (newLayer (background_layer_name h))) u = (Ok tt, u1))
    as Hwhen by (unfold u1; by destruct has_layer).
  erewrite bind_ok; [|exact Hwhen].
  set (u2 := (newGlyph (background_ref h) u1).2).
  erewrite bind_ok; [|exact (eq_refl : newGlyph (background_ref h) u1 = (Ok tt, u2))].
  assert (glyph_at (background_ref h) u2 = Some empty_glyph) as Hfresh
    by (by apply newGlyph_fresh).
  assert (glyph_at h u2 = Some g) as Hg2.
  { unfold u2. rewrite glyph_at_newGlyph; [done|]. apply background_layer_name_ne. }
  erewrite bind_ok; [|by unfold gets; rewrite Hg2].
  simpl from_option.
  set (u3 := (upd_glyph (background_ref h)
                (with_width (default (g_width g) (l_width b))) u2).2).
  erewrite bind_ok;
    [|exact (eq_refl : upd_glyph (background_ref h)
                         (with_width (default (g_width g) (l_width b))) u2 = (Ok tt, u3))].
  assert (glyph_at (background_ref h) u3
          = Some (with_width (default (g_width g) (l_width b)) empty_glyph)) as Hg3.
  { unfold u3. by rewrite glyph_at_upd, decide_True, Hfresh. }
  destruct (on_pen_ok _ _ u3 _ tt calls1 Hg3 Hpaths) as (u4 & Hrun4 & Hg4).
  erewrite bind_ok; [|exact Hrun4].
  destruct (on_pen_ok _ (draw_components (default [] (l_components b))) u4 _ tt calls2 Hg4)
    as (u5 & Hrun5 & Hg5); [exact Hcomps|].
  erewrite bind_ok; [|exact Hrun5].
  assert (I u5) as H5 by (eexists; split; [exact Hg5|done]).
  assert (preserves I
            (add_anchors_to_glyph (background_ref h) (default [] (l_anchors b));;
             set_guidelines (Some (background_ref h)) b false;;
             set_components_attributes (background_ref h) b)) as Hrest.
  { apply preserves_bind.
    { apply preserves_for_each. intros [[[x y]|] [name|]];
        try (by apply triple_raise). by apply Hupd. }
    intros _. apply preserves_bind.
    { unfold set_guidelines. destruct (l_guideLines b) as [[|gl gls]|];
        try (by apply triple_ret).
      apply preserves_bind; [by apply preserves_pure|]. intros new. by apply Hupd. }
    intros _. unfold set_components_attributes. simpl for_each.
    repeat (apply preserves_bind; [|intros ?]); try (by apply triple_ret);
      apply preserves_when;
      (apply preserves_bind; [by apply preserves_pure|intros key']);
      by apply Hupd. }
  exact (preserves_final _ _ _ Hrest H5).
Qed.

(** ** The glyph loader: a layer without a width *)

Lemma triple_upd_metadata (h : glyph_ref) (u0 : font) (f : glyph_obj → glyph_obj) E :
  (∀ g, same_outline g (f g)) →
  triple (only_metadata_changed h u0) (upd_glyph h f)
         (λ _, only_metadata_changed h u0) E.
Proof.
  intros Hf u (Hi & Hl & Hgr & Hk & Hdom & Hother & g & g' & Hg & Hg' & Hsame).
  change (only_metadata_changed h u0 (upd_glyph h f u).2).
  split_and!; try done.
  - rewrite <-Hdom. destruct u. simpl. by rewrite dom_alter_L.
  - intros h' Hne. rewrite <-Hother by done. rewrite glyph_at_upd.
    by rewrite decide_False.
  - exists g, (f g'). rewrite glyph_at_upd, decide_True, Hg' by done.
    split_and!; [done..|]. unfold same_outline in *.
    destruct (Hf g') as (-> & -> & -> & ->). exact Hsame.
Qed.

Lemma triple_set_lib_metadata (h : glyph_ref) (u0 : font) (key : string) (v : value) E :
  triple (only_metadata_changed h u0) (set_glyph_lib h key v)
         (λ _, only_metadata_changed h u0) E.
Proof. by apply triple_upd_metadata. Qed.

Lemma triple_opt_metadata {A} (h : glyph_ref) (u0 : font) (o : option A)
    (f : A → glyph_obj → glyph_obj) E :
  (∀ a g, same_outline g (f a g)) →
  triple (only_metadata_changed h u0)
         (match o with Some a => upd_glyph h (f a) | None => mret tt end)
         (λ _, only_metadata_changed h u0) E.
Proof.
  intros Hf. destruct o; [by apply triple_upd_metadata|by apply triple_ret].
Qed.

(** [load_glyph] for a glyph of the font, on a layer without a width and
    with a color index below 12 if there is one, raises [KeyError] for
    "width".  By then the metadata was already written: the glyph may
    differ in its unicode, its note and its lib, but its width, guidelines,
    outline and anchors, and the rest of the font, are as before. *)
Theorem load_glyph_missing_width (h : glyph_ref) (l : layer) (gd : glyph_metadata)
    (u : font) (g : glyph_obj) :
  glyph_at h u = Some g →
  l_width l = None →
  (∀ c, gd_color gd = Some c → c < 12) →
  (load_glyph h l gd u).1 = Raise (KeyError "width") ∧
  only_metadata_changed h u (load_glyph h l gd u).2.
Proof.
  intros Hg Hw Hc.
  assert (triple (only_metadata_changed h u) (load_glyph h l gd) (λ _ _, False)
            (λ e s, e = KeyError "width" ∧ only_metadata_changed h u s)) as H.
  { unfold load_glyph. rewrite Hw.
    eapply triple_bind; [by apply triple_opt_metadata|intros ?].
    eapply triple_bind; [by apply triple_opt_metadata|intros ?].
    eapply triple_bind;
      [by apply (triple_opt_metadata h u _ (λ v, with_lib _))|intros ?].
    eapply (triple_bind _ _ _ (λ _, only_metadata_changed h u)); [|intros ?].
    { destruct (gd_color gd) as [c|] eqn:Hcol; [|by apply triple_ret].
      specialize (Hc c eq_refl).
      destruct (c >=? 0) eqn:Hge; [|by apply triple_ret]. simpl when.
      destruct (lookup_lt_is_Some_2 GLYPHS_COLORS (Z.to_nat c)) as [color ->].
      { simpl. lia. }
      eapply triple_bind; [by apply triple_set_lib_metadata|intros ?].
      by apply triple_set_lib_metadata. }
    eapply triple_bind;
      [by apply (triple_opt_metadata h u _ (λ v, with_lib _))|intros ?].
    eapply triple_bind;
      [by apply (triple_opt_metadata h u _ (λ v, with_lib _))|intros ?].
    eapply (triple_bind _ _ _ (λ _, only_metadata_changed h u)); [|intros ?].
    { apply triple_for_each. intros [[key lf] gf] _.
      destruct (truthy _); [by apply triple_set_lib_metadata|by apply triple_ret]. }
    eapply (triple_bind _ _ _ (λ _ _, False)); [|by intros ? ? []].
    by apply triple_raise. }
  specialize (H u).
  destruct (load_glyph h l gd u) as [[[]|e] u']; simpl.
  - destruct H. repeat split; try done. by exists g, g.
  - destruct H as [-> H]; [|done]. repeat split; try done. by exists g, g.
Qed.

(** ** The further theorems on sample inputs *)

Lemma set_guidelines_angles_witness :
  ∃ new,
    glyph_at sample_glyph
      (set_guidelines (Some sample_glyph) (layer_with_guidelines sample_guidelines)
         false sample_glyph_font).2 = Some (with_guidelines new empty_glyph) ∧
    length new = 2%nat.
Proof.
  destruct (set_guidelines_angles sample_glyph (layer_with_guidelines sample_guidelines)
              sample_guidelines sample_glyph_font empty_glyph)
    as (new & Hg & _ & Hlen & _).
  - vm_compute. reflexivity.
  - reflexivity.
  - discriminate.
  - repeat constructor; by eexists.
  - exists new. split; [exact Hg|exact Hlen].
Defined.

Lemma set_guidelines_all_or_nothing_witness :
  set_guidelines (Some sample_glyph) (layer_with_guidelines []) false sample_glyph_font
  = (Ok tt, sample_glyph_font) ∧
  set_guidelines (Some sample_glyph) (layer_with_guidelines sample_bad_guidelines)
    false sample_glyph_font
  = (Raise (KeyError "position"), sample_glyph_font).
Proof.
  split.
  - apply (set_guidelines_all_or_nothing (Some sample_glyph) (layer_with_guidelines [])).
    right. reflexivity.
  - apply (proj2 (set_guidelines_all_or_nothing (Some sample_glyph)
                    (layer_with_guidelines sample_bad_guidelines) false sample_glyph_font)
             sample_bad_guidelines).
    + reflexivity.
    + apply Exists_cons_tl, Exists_cons_hd. reflexivity.
Defined.

Lemma draw_components_calls_witness :
  draw_components sample_components [] = (Ok tt, map component_call sample_components) ∧
  draw_components (sample_components ++ [sample_nameless_component]) []
  = (Raise (KeyError "name"), map component_call sample_components).
Proof.
  split.
  - apply (draw_components_calls sample_components []).
    repeat constructor; by eexists.
  - apply (proj2 (draw_components_calls
                    (sample_components ++ [sample_nameless_component]) [])
             sample_components sample_nameless_component []).
    + reflexivity.
    + repeat constructor; by eexists.
    + reflexivity.
Defined.

Lemma add_anchors_to_glyph_appends_witness :
  (∃ g',
     (add_anchors_to_glyph sample_glyph sample_anchors sample_glyph_font).1 = Ok tt ∧
     glyph_at sample_glyph
       (add_anchors_to_glyph sample_glyph sample_anchors sample_glyph_font).2 = Some g' ∧
     g_anchors g' = g_anchors empty_glyph ++ map anchor_dict_of sample_anchors) ∧
  (∃ g',
     (add_anchors_to_glyph sample_glyph (sample_anchors ++ [sample_nameless_anchor])
        sample_glyph_font).1 = Raise (KeyError "name") ∧
     glyph_at sample_glyph
       (add_anchors_to_glyph sample_glyph (sample_anchors ++ [sample_nameless_anchor])
          sample_glyph_font).2 = Some g' ∧
     g_anchors g' = g_anchors empty_glyph ++ map anchor_dict_of sample_anchors).
Proof.
  split.
  - apply (add_anchors_to_glyph_appends sample_glyph sample_anchors sample_glyph_font
             empty_glyph).
    + vm_compute. reflexivity.
    + repeat constructor; by eexists.
  - apply (proj2 (add_anchors_to_glyph_appends sample_glyph
                    (sample_anchors ++ [sample_nameless_anchor]) sample_glyph_font
                    empty_glyph ltac:(vm_compute; reflexivity))
             sample_anchors sample_nameless_anchor []).
    + reflexivity.
    + repeat constructor; by eexists.
    + intros [_ [v Hv]]. discriminate Hv.
Defined.

Lemma set_glyph_background_frame_witness :
  set_glyph_background sample_glyph "background" None sample_glyph_font
  = (Ok tt, sample_glyph_font).
Proof.
  apply (set_glyph_background_frame sample_glyph "background" None sample_glyph_font).
  left. reflexivity.
Defined.

Lemma set_glyph_background_rebuilds_witness :
  ∃ g',
    glyph_at (background_ref sample_glyph)
      (set_glyph_background sample_glyph "background"
         (Some (layer_with_paths [sample_closed])) sample_glyph_font).2 = Some g' ∧
    g_width g' = VInt 600 ∧
    g_pen g' = (draw_paths [sample_closed] []).2.
Proof.
  destruct (set_glyph_background_rebuilds sample_glyph "background"
              (layer_with_paths [sample_closed]) sample_glyph_font empty_glyph
              (draw_paths [sample_closed] []).2 (draw_paths [sample_closed] []).2)
    as (g' & Hg' & Hw & Hp & _).
  - vm_compute. reflexivity.
  - reflexivity.
  - vm_compute. reflexivity.
  - vm_compute. reflexivity.
  - exists g'. split; [exact Hg'|]. split; [exact Hw|exact Hp].
Defined.

Lemma load_glyph_missing_width_witness :
  (load_glyph sample_glyph layer_without_width (metadata_with_color 3)
     sample_glyph_font).1 = Raise (KeyError "width") ∧
  only_metadata_changed sample_glyph sample_glyph_font
    (load_glyph sample_glyph layer_without_width (metadata_with_color 3)
       sample_glyph_font).2.
Proof.
  apply (load_glyph_missing_width sample_glyph layer_without_width
           (metadata_with_color 3) sample_glyph_font empty_glyph).
  - vm_compute. reflexivity.
  - reflexivity.
  - intros c [= <-]. lia.
Defined.

(** ** The kerning loader *)

Lemma for_fold_app {S A B} (xs ys : list A) (acc : B) (body : B → A → M S B) (s : S) :
  for_fold (xs ++ ys) acc body s
  = (for_fold xs acc body ≫= λ acc', for_fold ys acc' body) s.
Proof.
  revert acc s. induction xs as [|x xs IH]; intros acc s; simpl.
  - done.
  - unfold mbind, M_bind. destruct (body acc x s) as [[acc'|e] s']; [|done].
    apply IH.
Qed.

Lemma bind_same {S A B} (m m' : M S A) (f : A → M S B) (s s' : S) :
  m s = m' s' → (m ≫= f) s = (m' ≫= f) s'.
Proof. intros H. unfold mbind, M_bind. by rewrite H. Qed.

Lemma load_kerning_loops (kerning_data : list (string * list (string * Z))) :
  load_kerning kerning_data
  = (class_glyph_pairs ← for_fold kerning_data [] kerning_key_step;
     resolve_conflicts class_glyph_pairs).
Proof. reflexivity. Qed.

Lemma kerning_key_step_undeclared (acc : list (string * string * bool))
    (left_key group : string) (pairs : list (string * Z)) (u : font) (ws : list warning) :
  match_prefix_group "@MMK_L_" left_key = Some group →
  groups u !! ("public.kern1." +:+ group) = None →
  kerning_key_step acc (left_key, pairs) (u, ws)
  = (Ok acc, (u, ws ++ [NonExistentClass ("public.kern1." +:+ group)])).
Proof.
  intros Hm Hg. unfold kerning_key_step. rewrite Hm. simpl from_option.
  erewrite bind_ok; [|reflexivity]. cbn [fst snd]. rewrite Hg.
  rewrite bool_decide_eq_true_2 by (by eexists).
  rewrite (bool_decide_eq_false_2 (is_Some None)) by (by intros [? ?]).
  reflexivity.
Qed.

(** *** The warnings are only added to *)

Lemma appends_ret {A} (a : A) : appends_warnings (mret a).
Proof. intros u ws. cbn. by rewrite app_nil_r. Qed.

Lemma appends_warn (w : warning) : appends_warnings (warn w).
Proof. by intros u ws. Qed.

Lemma appends_on_font {A} (m : M font A) : appends_warnings (on_font m).
Proof.
  intros u ws. unfold on_font. cbn [fst snd].
  destruct (m u) as [r u']. cbn. by rewrite app_nil_r.
Qed.

Lemma appends_bind {A B} (m : M kstate A) (f : A → M kstate B) :
  appends_warnings m → (∀ a, appends_warnings (f a)) → appends_warnings (m ≫= f).
Proof.
  intros Hm Hf u ws. unfold mbind, M_bind. rewrite (Hm u ws).
  destruct (m (u, [])) as [[a|e] [u1 w1]]; cbn [fst snd]; [|done].
  rewrite (Hf a u1 (ws ++ w1)), (Hf a u1 w1).
  destruct (f a (u1, [])) as [r [u2 w2]]. cbn [fst snd]. by rewrite app_assoc.
Qed.

Lemma appends_for_fold {A B} (xs : list A) (acc : B) (body : B → A → M kstate B) :
  (∀ acc x, appends_warnings (body acc x)) → appends_warnings (for_fold xs acc body).
Proof.
  intros Hbody. revert acc. induction xs as [|x xs IH]; intros acc.
  - apply appends_ret.
  - cbn [for_fold]. apply appends_bind; [apply Hbody|]. intros acc'. apply IH.
Qed.

Lemma appends_for_each {A} (xs : list A) (body : A → M kstate unit) :
  (∀ x, appends_warnings (body x)) → appends_warnings (for_each xs body).
Proof.
  intros Hbody. induction xs as [|x xs IH].
  - apply appends_ret.
  - cbn [for_each]. apply appends_bind; [apply Hbody|]. intros _. apply IH.
Qed.

Lemma appends_when (b : bool) (m : M kstate unit) :
  appends_warnings m → appends_warnings (when b m).
Proof. intros Hm. destruct b; [done|apply appends_ret]. Qed.

(** The steps of the kerning loader are made of [warn], of steps on the
    font and of loops. *)
Ltac appends_step :=
  first [ apply appends_ret | apply appends_warn | apply appends_on_font
        | apply appends_when
        | apply appends_for_each; intros ?
        | apply appends_bind; [|intros ?] ].

Lemma appends_kerning_pair_step (left_key : string) (left_is_class : bool)
    (acc : list (string * string * bool)) (pair : string * Z) :
  appends_warnings (kerning_pair_step left_key left_is_class acc pair).
Proof.
  destruct pair as [right_key kerning_val]. unfold kerning_pair_step.
  apply appends_bind; [apply appends_on_font|]. intros in_groups.
  destruct (_ && _); repeat appends_step.
Qed.

Lemma appends_kerning_key_step (acc : list (string * string * bool))
    (entry : string * list (string * Z)) :
  appends_warnings (kerning_key_step acc entry).
Proof.
  destruct entry as [left_key pairs]. unfold kerning_key_step.
  apply appends_bind; [apply appends_on_font|]. intros in_groups.
  destruct (_ && _); [repeat appends_step|].
  apply appends_for_fold. intros acc' pair. apply appends_kerning_pair_step.
Qed.

Lemma appends_remove_rule_if_conflict (seen : gmap (string * string) rule)
    (classname glyph : string) (is_left_class : bool) :
  appends_warnings (remove_rule_if_conflict seen classname glyph is_left_class).
Proof.
  unfold remove_rule_if_conflict.
  apply appends_bind; [apply appends_on_font|]. intros val.
  apply appends_bind; [apply appends_on_font|]. intros old_glyphs.
  apply appends_bind.
  - apply appends_for_fold. intros [new_glyphs seen'] member.
    apply appends_bind; [apply appends_on_font|]. intros in_kerning.
    destruct (seen' !! _) as [existing_rule|]; [|apply appends_ret].
    destruct (_ && _); repeat appends_step.
  - intros [new_glyphs seen']. repeat appends_step.
Qed.

Lemma appends_resolve_conflicts (class_glyph_pairs : list (string * string * bool)) :
  appends_warnings (resolve_conflicts class_glyph_pairs).
Proof.
  unfold resolve_conflicts. apply appends_bind; [|intros ?; apply appends_ret].
  apply appends_for_fold. intros seen [[classname glyph] is_left_class].
  apply appends_remove_rule_if_conflict.
Qed.

(** What a computation that only adds to the warnings does from a state
    with warnings. *)
Lemma appends_run {A} (m : M kstate A) (u u' : font) (ws ws' : list warning)
    (r : result A) :
  appends_warnings m → m (u, []) = (r, (u', ws')) → m (u, ws) = (r, (u', ws ++ ws')).
Proof. intros Hm Hrun. by rewrite (Hm u ws), Hrun. Qed.

(** *** The first loop returns and leaves the groups alone *)

Lemma kerning_pair_step_run (left_key : string) (left_is_class : bool)
    (acc : list (string * string * bool)) (pair : string * Z) (s : kstate) :
  ∃ acc' s', kerning_pair_step left_key left_is_class acc pair s = (Ok acc', s') ∧
             groups s'.1 = groups s.1.
Proof.
  destruct pair as [right_key kerning_val], s as [u ws]. unfold kerning_pair_step.
  erewrite bind_ok; [|reflexivity].
  destruct (_ && _); [by eexists _, _|].
  eexists _, _. split; [reflexivity|]. by destruct u.
Qed.

Lemma kerning_pairs_run (left_key : string) (left_is_class : bool)
    (pairs : list (string * Z)) (acc : list (string * string * bool)) (s : kstate) :
  ∃ acc' s',
    for_fold pairs acc (kerning_pair_step left_key left_is_class) s = (Ok acc', s') ∧
    groups s'.1 = groups s.1.
Proof.
  revert acc s. induction pairs as [|pair pairs IH]; intros acc s.
  - by eexists _, _.
  - destruct (kerning_pair_step_run left_key left_is_class acc pair s)
      as (acc1 & s1 & Hstep & Hg1).
    destruct (IH acc1 s1) as (acc2 & s2 & Hrest & Hg2).
    exists acc2, s2. cbn [for_fold]. erewrite bind_ok; [|exact Hstep].
    split; [exact Hrest|congruence].
Qed.

Lemma kerning_keys_run (kerning_data : list (string * list (string * Z)))
    (acc : list (string * string * bool)) (s : kstate) :
  ∃ acc' s', for_fold kerning_data acc kerning_key_step s = (Ok acc', s') ∧
             groups s'.1 = groups s.1.
Proof.
  revert acc s. induction kerning_data as [|[left_key pairs] kd IH]; intros acc s.
  - by eexists _, _.
  - assert (∃ acc1 s1, kerning_key_step acc (left_key, pairs) s = (Ok acc1, s1) ∧
                       groups s1.1 = groups s.1) as (acc1 & s1 & Hstep & Hg1).
    { unfold kerning_key_step. erewrite bind_ok; [|by destruct s].
      destruct (_ && _); [destruct s; by eexists _, _|].
      apply kerning_pairs_run. }
    destruct (IH acc1 s1) as (acc2 & s2 & Hrest & Hg2).
    exists acc2, s2. cbn [for_fold]. erewrite bind_ok; [|exact Hstep].
    split; [exact Hrest|congruence].
Qed.

(** An undeclared class on the left, at any place of the kerning data: the
    outcome of [load_kerning] and the font are those of the data without
    that key, so all pairs of the key are skipped; the warnings are those of
    the data without the key, with one warning for the class after the
    warnings of the keys before it. *)
Theorem load_kerning_undeclared_left
    (before after : list (string * list (string * Z))) (left_key group : string)
    (pairs : list (string * Z)) (u : font) (ws : list warning) :
  match_prefix_group "@MMK_L_" left_key = Some group →
  groups u !! ("public.kern1." +:+ group) = None →
  let ws1 := (for_fold before [] kerning_key_step (u, [])).2.2 in
  ∃ r u' ws2,
    load_kerning (before ++ after) (u, ws) = (r, (u', ws ++ ws1 ++ ws2)) ∧
    load_kerning (before ++ (left_key, pairs) :: after) (u, ws)
    = (r, (u', ws ++ ws1 ++ NonExistentClass ("public.kern1." +:+ group) :: ws2)).
Proof.
  intros Hm Hg ws1.
  destruct (kerning_keys_run before [] (u, [])) as (cgp1 & [u1 w1] & Hb & Hg1).
  cbn [fst] in Hg1. subst ws1. rewrite Hb. cbn [fst snd].
  destruct (kerning_keys_run after cgp1 (u1, [])) as (cgp2 & [u2 w2] & Ha & _).
  destruct (resolve_conflicts cgp2 (u2, [])) as [r [u3 w3]] eqn:Hr.
  exists r, u3, (w2 ++ w3).
  pose proof (λ us, appends_for_fold us [] kerning_key_step appends_kerning_key_step)
    as Hloop0.
  pose proof (λ acc us, appends_for_fold us acc kerning_key_step appends_kerning_key_step)
    as Hloop.
  rewrite !load_kerning_loops. split.
  - erewrite bind_ok.
    2:{ rewrite for_fold_app.
        erewrite bind_ok; [|exact (appends_run _ _ _ ws _ _ (Hloop0 before) Hb)].
        exact (appends_run _ _ _ (ws ++ w1) _ _ (Hloop cgp1 after) Ha). }
    rewrite (appends_run _ _ _ ((ws ++ w1) ++ w2) _ _ (appends_resolve_conflicts cgp2) Hr).
    by rewrite <-!app_assoc.
  - erewrite bind_ok.
    2:{ rewrite for_fold_app.
        erewrite bind_ok; [|exact (appends_run _ _ _ ws _ _ (Hloop0 before) Hb)].
        cbn [for_fold].
        erewrite bind_ok;
          [|apply (kerning_key_step_undeclared cgp1 left_key group pairs u1);
            [exact Hm|by rewrite Hg1]].
        exact (appends_run _ _ _ _ _ _ (Hloop cgp1 after) Ha). }
    rewrite (appends_run _ _ _ _ _ _ (appends_resolve_conflicts cgp2) Hr).
    by rewrite <-!app_assoc.
Qed.

Lemma store_pairs_app (ps qs : list (string * string * Z)) (k : gmap (string * string) Z) :
  store_pairs (ps ++ qs) k = store_pairs qs (store_pairs ps k).
Proof. apply fold_left_app. Qed.

Lemma kerning_pair_step_unmixed (left_key : string) (lic : bool)
    (acc : list (string * string * bool)) (right_key : string) (v : Z)
    (u : font) (ws : list warning) :
  right_is_class right_key = lic →
  (right_is_class right_key = true → is_Some (groups u !! resolve_right right_key)) →
  kerning_pair_step left_key lic acc (right_key, v) (u, ws)
  = (Ok acc,
     (with_kerning (<[(left_key, resolve_right right_key) := v]> (kerning u)) u, ws)).
Proof.
  intros Hlic Hdecl. unfold kerning_pair_step.
  fold (right_is_class right_key). fold (resolve_right right_key).
  erewrite bind_ok; [|reflexivity]. cbn [fst snd].
  rewrite Hlic in *.
  assert ((lic && negb (bool_decide (is_Some (groups u !! resolve_right right_key))))
          = false) as ->.
  { destruct lic; [|done]. by rewrite bool_decide_eq_true_2 by auto. }
  assert (negb (eqb lic lic) = false) as -> by (by destruct lic).
  reflexivity.
Qed.

Lemma kerning_pairs_unmixed (left_key : string) (lic : bool)
    (acc : list (string * string * bool)) (pairs : list (string * Z))
    (u : font) (ws : list warning) :
  Forall (λ '(right_key, _),
            right_is_class right_key = lic ∧
            (right_is_class right_key = true →
             is_Some (groups u !! resolve_right right_key))) pairs →
  for_fold pairs acc (kerning_pair_step left_key lic) (u, ws)
  = (Ok acc,
     (with_kerning
        (store_pairs (map (λ '(right_key, v), (left_key, resolve_right right_key, v))
                          pairs) (kerning u)) u,
      ws)).
Proof.
  intros Hall. revert u Hall. induction pairs as [|[rk v] pairs IH]; intros u Hall.
  - by destruct u.
  - inv Hall. destruct H1 as [Hlic Hdecl]. simpl for_fold.
    erewrite bind_ok; [|by apply kerning_pair_step_unmixed].
    by rewrite IH by (by destruct u).
Qed.

Lemma kerning_keys_unmixed (kerning_data : list (string * list (string * Z)))
    (u : font) (ws : list warning) :
  unmixed_and_declared u kerning_data →
  for_fold kerning_data [] kerning_key_step (u, ws)
  = (Ok [], (with_kerning (store_pairs (resolved_pairs kerning_data) (kerning u)) u, ws)).
Proof.
  intros Hall. revert u Hall.
  induction kerning_data as [|[lk pairs] kd IH]; intros u Hall.
  - by destruct u.
  - inv Hall. destruct H1 as [Hdecl Hpairs]. simpl for_fold.
    erewrite bind_ok.
    2:{ unfold kerning_key_step.
        fold (left_is_class lk). fold (resolve_left lk).
        erewrite bind_ok; [|reflexivity]. cbn [fst snd].
        assert ((left_is_class lk
                 && negb (bool_decide (is_Some (groups u !! resolve_left lk)))) = false)
          as ->.
        { destruct (left_is_class lk); [|done]. by rewrite bool_decide_eq_true_2 by auto. }
        by apply kerning_pairs_unmixed. }
    rewrite IH by (by destruct u).
    unfold resolved_pairs at 2. simpl flat_map. fold (resolved_pairs kd).
    by rewrite store_pairs_app.
Qed.

Lemma store_pairs_lookup (ps : list (string * string * Z)) (k : gmap (string * string) Z)
    (p : string * string) (v : Z) :
  NoDup (ps.*1) → (p, v) ∈ ps → store_pairs ps k !! p = Some v.
Proof.
  revert k. induction ps as [|[q w] ps IH]; intros k Hnd Hin; [by inv Hin|].
  simpl in Hnd. apply NoDup_cons in Hnd as [Hq Hnd]. simpl.
  apply elem_of_cons in Hin as [[= -> ->]|Hin].
  - clear IH. revert k. induction ps as [|[q' w'] ps IH]; intros k; simpl.
    + by rewrite lookup_insert_eq.
    + simpl in *. apply not_elem_of_cons in Hq as [Hne Hq].
      apply NoDup_cons in Hnd as [_ Hnd].
      rewrite insert_insert_ne by done. by apply IH.
  - by apply IH.
Qed.

Lemma store_pairs_lookup_other (ps : list (string * string * Z))
    (k : gmap (string * string) Z) (p : string * string) :
  p ∉ ps.*1 → store_pairs ps k !! p = k !! p.
Proof.
  revert k. induction ps as [|[q w] ps IH]; intros k Hnot; [done|].
  simpl in *. apply not_elem_of_cons in Hnot as [Hne Hnot].
  rewrite IH by done. by rewrite lookup_insert_ne.
Qed.

(** Kerning data without mixed pairs: every pair is stored under its
    rewritten keys, nothing else changes, and there is no warning. *)
Theorem load_kerning_unmixed (kerning_data : list (string * list (string * Z)))
    (u : font) (ws : list warning) :
  unmixed_and_declared u kerning_data →
  load_kerning kerning_data (u, ws)
  = (Ok tt, (with_kerning (store_pairs (resolved_pairs kerning_data) (kerning u)) u, ws)) ∧
  (NoDup (resolved_pairs kerning_data).*1 →
   ∀ p v, (p, v) ∈ resolved_pairs kerning_data →
     store_pairs (resolved_pairs kerning_data) (kerning u) !! p = Some v) ∧
  (∀ p, p ∉ (resolved_pairs kerning_data).*1 →
     store_pairs (resolved_pairs kerning_data) (kerning u) !! p = kerning u !! p).
Proof.
  intros Hall. split_and!.
  - rewrite load_kerning_loops.
    erewrite bind_ok; [|by apply kerning_keys_unmixed]. reflexivity.
  - intros Hnd p v Hin. by apply store_pairs_lookup.
  - intros p Hp. by apply store_pairs_lookup_other.
Qed.

(** ** Conflicts between class rules *)

Lemma side_pair_inj (is_left_class : bool) (m m' glyph : string) :
  side_pair is_left_class m glyph = side_pair is_left_class m' glyph → m = m'.
Proof. destruct is_left_class; unfold side_pair; congruence. Qed.

Lemma remove_rule_if_conflict_loop (seen : gmap (string * string) rule)
    (classname glyph : string) (is_left_class : bool) (u : font) (ws : list warning)
    (val : Z) (old_glyphs : list string) :
  kerning u !! side_pair is_left_class classname glyph = Some val →
  groups u !! classname = Some old_glyphs →
  remove_rule_if_conflict seen classname glyph is_left_class (u, ws)
  = (r ← for_fold old_glyphs ([], seen)
           (conflict_member_step is_left_class glyph val
              (side_pair is_left_class classname glyph, val));
     let '(new_glyphs, seen) := r in
     when (negb (bool_decide (new_glyphs = old_glyphs)))
       (on_font (modify (set_kerning_map
                           (delete (side_pair is_left_class classname glyph))));;
        for_each new_glyphs (λ member,
          on_font (modify (set_kerning_map
                             <[side_pair is_left_class member glyph := val]>))));;
     mret seen) (u, ws).
Proof.
  intros Hval Hold. unfold remove_rule_if_conflict.
  erewrite bind_ok; [|by unfold on_font; cbn [fst snd]; rewrite Hval].
  erewrite bind_ok; [|by unfold on_font; cbn [fst snd]; rewrite Hold].
  reflexivity.
Qed.

Section conflict_loop.
Variables (is_left_class : bool) (glyph : string) (val : Z) (r : rule).
Variables (u : font) (seen0 : gmap (string * string) rule).
Hypothesis Hr : r.2 = val.

Lemma seen_inv_conflicts (seen : gmap (string * string) rule) (m : string) :
  seen_inv seen0 (kerning u) is_left_class glyph val r seen →
  conflicts seen (kerning u) is_left_class glyph val m
  = conflicts seen0 (kerning u) is_left_class glyph val m.
Proof.
  intros Hinv. destruct (Hinv m) as [Heq|[Heq Hc]]; unfold conflicts, rule in *.
  - by rewrite Heq.
  - rewrite Heq, Hr, Z.eqb_refl. simpl. symmetry. exact Hc.
Qed.

Lemma seen_inv_record (seen : gmap (string * string) rule) (m : string) :
  seen_inv seen0 (kerning u) is_left_class glyph val r seen →
  conflicts seen0 (kerning u) is_left_class glyph val m = false →
  seen_inv seen0 (kerning u) is_left_class glyph val r
    (<[side_pair is_left_class m glyph := r]> seen).
Proof.
  intros Hinv Hc m'. destruct (decide (m = m')) as [<-|Hne].
  - right. by rewrite lookup_insert_eq.
  - rewrite lookup_insert_ne; [apply Hinv|]. intros H. by apply side_pair_inj in H.
Qed.

Lemma member_step_kept (new_glyphs : list string)
    (seen : gmap (string * string) rule) (m : string) (ws : list warning) :
  conflicts seen (kerning u) is_left_class glyph val m = false →
  conflict_member_step is_left_class glyph val r (new_glyphs, seen) m (u, ws)
  = (Ok (new_glyphs ++ [m], <[side_pair is_left_class m glyph := r]> seen), (u, ws)).
Proof.
  intros Hc. unfold conflict_member_step, conflicts, rule in *.
  erewrite bind_ok; [|reflexivity]. cbn [fst snd].
  destruct (seen !! side_pair is_left_class m glyph); [|done].
  by rewrite Hc.
Qed.

Lemma member_step_dropped (new_glyphs : list string)
    (seen : gmap (string * string) rule) (m : string) (ws : list warning)
    (existing_rule : rule) :
  conflicts seen (kerning u) is_left_class glyph val m = true →
  seen !! side_pair is_left_class m glyph = Some existing_rule →
  conflict_member_step is_left_class glyph val r (new_glyphs, seen) m (u, ws)
  = (Ok (new_glyphs, seen),
     (u, ws ++ [ConflictingRules (get_info "styleName" u)
                  (side_pair is_left_class m glyph) existing_rule r])).
Proof.
  intros Hc Hseen. unfold conflict_member_step, conflicts, rule in *.
  erewrite bind_ok; [|reflexivity]. cbn [fst snd].
  rewrite Hseen in *. rewrite Hc.
  erewrite bind_ok; [|reflexivity]. cbn [fst snd].
  erewrite bind_ok; [|reflexivity]. reflexivity.
Qed.

Lemma member_loop (members new_glyphs : list string)
    (seen : gmap (string * string) rule) (ws : list warning) :
  seen_inv seen0 (kerning u) is_left_class glyph val r seen →
  for_fold members (new_glyphs, seen)
    (conflict_member_step is_left_class glyph val r) (u, ws)
  = (Ok (new_glyphs ++ kept_members seen0 (kerning u) is_left_class glyph val members,
         record_seen is_left_class glyph r
           (kept_members seen0 (kerning u) is_left_class glyph val members) seen),
     (u, ws ++ omap (conflict_warning u seen0 is_left_class glyph r)
                 (dropped_members seen0 (kerning u) is_left_class glyph val members))).
Proof.
  unfold kept_members, dropped_members.
  revert new_glyphs seen ws.
  induction members as [|m members IH]; intros new_glyphs seen ws Hinv.
  - simpl. by rewrite !app_nil_r.
  - simpl for_fold.
    pose proof (seen_inv_conflicts seen m Hinv) as Hm.
    destruct (conflicts seen0 (kerning u) is_left_class glyph val m) eqn:Hc.
    + (* the member is dropped *)
      rewrite filter_cons_False, filter_cons_True by congruence.
      destruct (Hinv m) as [Heq|[_ ?]]; [|congruence].
      destruct (seen0 !! side_pair is_left_class m glyph) as [ex|] eqn:Hseen0;
        [|by unfold conflicts, rule in *; rewrite Hseen0 in Hc].
      erewrite bind_ok; [|by apply (member_step_dropped _ _ _ _ ex)].
      rewrite IH by done. simpl omap.
      unfold conflict_warning at 2. unfold rule in *. rewrite Hseen0. simpl.
      by rewrite <-app_assoc.
    + (* the member is kept *)
      rewrite filter_cons_True, filter_cons_False by congruence.
      erewrite bind_ok; [|by apply member_step_kept].
      rewrite IH by (by apply seen_inv_record).
      simpl. by rewrite <-app_assoc.
Qed.
End conflict_loop.

Lemma for_each_store_members (is_left_class : bool) (glyph : string) (val : Z)
    (ms : list string) (u : font) (ws : list warning) :
  for_each ms (λ member,
    on_font (modify (set_kerning_map
                       <[side_pair is_left_class member glyph := val]>))) (u, ws)
  = (Ok tt, (with_kerning (store_members is_left_class glyph val ms (kerning u)) u, ws)).
Proof.
  revert u. induction ms as [|m ms IH]; intros u.
  - by destruct u.
  - unfold for_each in *. simpl for_fold.
    erewrite bind_ok; [|reflexivity]. cbn [fst snd].
    by rewrite IH.
Qed.

Lemma store_members_lookup (is_left_class : bool) (glyph : string) (val : Z)
    (ms : list string) (k : gmap (string * string) Z) (m : string) :
  m ∈ ms →
  store_members is_left_class glyph val ms k !! side_pair is_left_class m glyph
  = Some val.
Proof.
  unfold store_members. revert k.
  induction ms as [|m' ms IH] using rev_ind; intros k Hin.
  - by apply elem_of_nil in Hin.
  - rewrite fold_left_app. simpl.
    destruct (decide (m' = m)) as [->|Hne]; [by rewrite lookup_insert_eq|].
    rewrite lookup_insert_ne by (intros H; by apply side_pair_inj in H).
    apply IH. apply elem_of_app in Hin as [Hin|Hin%list_elem_of_singleton]; [done|].
    congruence.
Qed.

Lemma store_members_lookup_other (is_left_class : bool) (glyph : string) (val : Z)
    (ms : list string) (k : gmap (string * string) Z) (p : string * string) :
  (∀ m, m ∈ ms → p ≠ side_pair is_left_class m glyph) →
  store_members is_left_class glyph val ms k !! p = k !! p.
Proof.
  unfold store_members. revert k.
  induction ms as [|m ms IH]; intros k Hne; [done|].
  simpl. rewrite IH by (intros m' Hin; apply Hne; by apply elem_of_cons; right).
  rewrite lookup_insert_ne; [done|]. intros H. eapply Hne; [|by symmetry].
  apply elem_of_cons. by left.
Qed.

Lemma conflicts_seen (seen : gmap (string * string) rule)
    (kern : gmap (string * string) Z) (is_left_class : bool) (glyph : string) (val : Z)
    (m : string) :
  conflicts seen kern is_left_class glyph val m = true →
  ∃ existing_rule, seen !! side_pair is_left_class m glyph = Some existing_rule.
Proof.
  intros Hc. unfold conflicts, rule in *.
  destruct (seen !! side_pair is_left_class m glyph) as [ex|] eqn:Hseen; [|done].
  by exists ex.
Qed.

Lemma remove_rule_if_conflict_run (seen : gmap (string * string) rule)
    (classname glyph : string) (is_left_class : bool) (u : font) (ws : list warning)
    (val : Z) (old_glyphs : list string) :
  kerning u !! side_pair is_left_class classname glyph = Some val →
  groups u !! classname = Some old_glyphs →
  remove_rule_if_conflict seen classname glyph is_left_class (u, ws)
  = (Ok (record_seen is_left_class glyph (side_pair is_left_class classname glyph, val)
           (kept_members seen (kerning u) is_left_class glyph val old_glyphs) seen),
     (if bool_decide (kept_members seen (kerning u) is_left_class glyph val old_glyphs
                      = old_glyphs)
      then u
      else with_kerning
             (store_members is_left_class glyph val
                (kept_members seen (kerning u) is_left_class glyph val old_glyphs)
                (delete (side_pair is_left_class classname glyph) (kerning u))) u,
      ws ++ omap (conflict_warning u seen is_left_class glyph
                    (side_pair is_left_class classname glyph, val))
              (dropped_members seen (kerning u) is_left_class glyph val old_glyphs))).
Proof.
  intros Hval Hold.
  rewrite (remove_rule_if_conflict_loop _ _ _ _ _ _ val old_glyphs) by done.
  erewrite bind_ok; [|by apply member_loop; [reflexivity|intros m; left]].
  cbv beta iota. rewrite app_nil_l.
  case_bool_decide as Hsame; simpl negb; unfold when.
  - erewrite bind_ok; [|reflexivity]. reflexivity.
  - erewrite bind_ok.
    2:{ erewrite bind_ok; [|reflexivity]. cbn [fst snd].
        rewrite for_each_store_members. reflexivity. }
    reflexivity.
Qed.

(** When no member of the class is in conflict with an earlier rule,
    [remove_rule_if_conflict] leaves the font as it is and warns about
    nothing; every pair of a member with the glyph is recorded in [seen]
    under the class rule. *)
Theorem remove_rule_if_conflict_no_conflict (seen : gmap (string * string) rule)
    (classname glyph : string) (is_left_class : bool) (u : font) (ws : list warning)
    (val : Z) (old_glyphs : list string) :
  kerning u !! side_pair is_left_class classname glyph = Some val →
  groups u !! classname = Some old_glyphs →
  Forall (λ m, conflicts seen (kerning u) is_left_class glyph val m = false) old_glyphs →
  ∃ seen',
    remove_rule_if_conflict seen classname glyph is_left_class (u, ws)
    = (Ok seen', (u, ws)) ∧
    (∀ m, m ∈ old_glyphs →
       seen' !! side_pair is_left_class m glyph
       = Some (side_pair is_left_class classname glyph, val)) ∧
    (∀ p, (∀ m, m ∈ old_glyphs → p ≠ side_pair is_left_class m glyph) →
       seen' !! p = seen !! p).
Proof.
  intros Hval Hold Hall.
  assert (kept_members seen (kerning u) is_left_class glyph val old_glyphs = old_glyphs)
    as Hkept.
  { unfold kept_members. clear Hold.
    induction Hall as [|m ms Hm _ IH]; [done|].
    by rewrite filter_cons_True, IH by done. }
  assert (dropped_members seen (kerning u) is_left_class glyph val old_glyphs = [])
    as Hdropped.
  { unfold dropped_members. clear Hold Hkept.
    induction Hall as [|m ms Hm _ IH]; [done|].
    by rewrite filter_cons_False, IH by congruence. }
  eexists. split.
  { rewrite (remove_rule_if_conflict_run _ _ _ _ _ _ val old_glyphs) by done.
    rewrite Hkept, Hdropped, bool_decide_eq_true_2 by done.
    simpl. by rewrite app_nil_r. }
  unfold record_seen. split.
  - intros m. generalize seen. clear.
    induction old_glyphs as [|m' ms IH] using rev_ind; intros seen Hin.
    + by apply elem_of_nil in Hin.
    + rewrite fold_left_app. simpl.
      destruct (decide (m' = m)) as [->|Hne]; [by rewrite lookup_insert_eq|].
      rewrite lookup_insert_ne by (intros H; by apply side_pair_inj in H).
      apply IH. apply elem_of_app in Hin as [Hin|Hin%list_elem_of_singleton]; [done|].
      congruence.
  - intros p. generalize seen. clear.
    induction old_glyphs as [|m ms IH]; intros seen Hne; [done|].
    simpl. rewrite IH by (intros m' Hin; apply Hne; by apply elem_of_cons; right).
    rewrite lookup_insert_ne; [done|]. intros H. eapply Hne; [|by symmetry].
    apply elem_of_cons. by left.
Qed.

Lemma remove_rule_if_conflict_no_conflict_witness :
  ∃ seen',
    remove_rule_if_conflict ∅ "public.kern1.A" "x" true (conflict_font, [])
    = (Ok seen', (conflict_font, [])) ∧
    seen' !! ("a", "x") = Some (("public.kern1.A", "x"), 10) ∧
    seen' !! ("b", "x") = Some (("public.kern1.A", "x"), 10).
Proof.
  destruct (remove_rule_if_conflict_no_conflict ∅ "public.kern1.A" "x" true
              conflict_font [] 10 ["a"; "b"]) as (seen' & Hrun & Hmembers & _).
  - vm_compute. reflexivity.
  - vm_compute. reflexivity.
  - repeat constructor.
  - exists seen'. split; [exact Hrun|]. split.
    + apply (Hmembers "a"). in_list.
    + apply (Hmembers "b"). in_list.
Defined.

(** When some member of the class is in conflict with an earlier rule,
    [remove_rule_if_conflict] replaces the class rule by glyph rules: every
    member without conflict is kerned against the glyph by the class value,
    also when it had a value of its own before; the members in conflict
    have no kerning against the glyph; the class pair is deleted; all other
    pairs keep their kerning; one warning is added for each member in
    conflict. *)
Theorem remove_rule_if_conflict_expands (seen : gmap (string * string) rule)
    (classname glyph : string) (is_left_class : bool) (u : font) (ws : list warning)
    (val : Z) (old_glyphs : list string) :
  kerning u !! side_pair is_left_class classname glyph = Some val →
  groups u !! classname = Some old_glyphs →
  Exists (λ m, conflicts seen (kerning u) is_left_class glyph val m = true) old_glyphs →
  ∃ seen' u' new_ws,
    remove_rule_if_conflict seen classname glyph is_left_class (u, ws)
    = (Ok seen', (u', ws ++ new_ws)) ∧
    length new_ws
    = length (dropped_members seen (kerning u) is_left_class glyph val old_glyphs) ∧
    info u' = info u ∧ lib u' = lib u ∧ groups u' = groups u ∧ layers u' = layers u ∧
    (∀ m, m ∈ old_glyphs →
       kerning u' !! side_pair is_left_class m glyph
       = if conflicts seen (kerning u) is_left_class glyph val m then None else Some val) ∧
    (classname ∉ old_glyphs →
       kerning u' !! side_pair is_left_class classname glyph = None) ∧
    (∀ p, p ≠ side_pair is_left_class classname glyph →
          (∀ m, m ∈ old_glyphs → p ≠ side_pair is_left_class m glyph) →
          kerning u' !! p = kerning u !! p).
Proof.
  intros Hval Hold Hex.
  assert (kept_members seen (kerning u) is_left_class glyph val old_glyphs ≠ old_glyphs)
    as Hkept.
  { intros Heq. apply Exists_exists in Hex as (m & Hin & Hm).
    rewrite <-Heq in Hin. apply list_elem_of_filter in Hin as [Hm' _]. congruence. }
  do 3 eexists. split; [|split].
  { rewrite (remove_rule_if_conflict_run _ _ _ _ _ _ val old_glyphs) by done.
    rewrite bool_decide_eq_false_2 by done. reflexivity. }
  { unfold dropped_members. clear.
    induction old_glyphs as [|m ms IH]; [done|].
    destruct (conflicts seen (kerning u) is_left_class glyph val m) eqn:Hc.
    - rewrite filter_cons_True by done. simpl.
      apply conflicts_seen in Hc as [ex Hseen].
      unfold conflict_warning at 1. rewrite Hseen. simpl. f_equal. exact IH.
    - by rewrite filter_cons_False by congruence. }
  repeat split; simpl.
  - intros m Hin.
    destruct (conflicts seen (kerning u) is_left_class glyph val m) eqn:Hc.
    + rewrite store_members_lookup_other.
      * apply lookup_delete_None. right.
        unfold conflicts, rule in *.
        destruct (seen !! side_pair is_left_class m glyph); [|done].
        apply andb_true_iff in Hc as [_ Hc]. apply negb_true_iff in Hc.
        apply bool_decide_eq_false in Hc. by apply eq_None_not_Some.
      * intros m' [Hm' _]%list_elem_of_filter Heq.
        apply side_pair_inj in Heq as ->. congruence.
    + apply store_members_lookup. apply list_elem_of_filter. done.
  - intros Hnotin. rewrite store_members_lookup_other.
    + apply lookup_delete_None. by left.
    + intros m [_ Hin]%list_elem_of_filter Heq.
      apply side_pair_inj in Heq as ->. done.
  - intros p Hne Hother. rewrite store_members_lookup_other.
    + by rewrite lookup_delete_ne.
    + intros m [_ Hin]%list_elem_of_filter. by apply Hother.
Qed.

Lemma remove_rule_if_conflict_expands_witness :
  ∃ seen' u' new_ws,
    remove_rule_if_conflict conflict_seen "public.kern1.A" "x" true (conflict_font, [])
    = (Ok seen', (u', [] ++ new_ws)) ∧
    length new_ws = 1%nat ∧
    kerning u' !! ("a", "x") = None ∧
    kerning u' !! ("b", "x") = Some 10 ∧
    kerning u' !! ("public.kern1.A", "x") = None.
Proof.
  destruct (remove_rule_if_conflict_expands conflict_seen "public.kern1.A" "x" true
              conflict_font [] 10 ["a"; "b"])
    as (seen' & u' & new_ws & Hrun & Hlen & _ & _ & _ & _ & Hmembers & Hclass & _).
  - vm_compute. reflexivity.
  - vm_compute. reflexivity.
  - apply Exists_cons_hd. vm_compute. reflexivity.
  - exists seen', u', new_ws. split; [exact Hrun|]. split; [exact Hlen|].
    split; [|split].
    + apply (Hmembers "a"). in_list.
    + apply (Hmembers "b"). in_list.
    + apply Hclass. intros Hin. apply elem_of_cons in Hin as [H|Hin]; [by revert H; str_ne|].
      apply elem_of_cons in Hin as [H|Hin]; [by revert H; str_ne|].
      by apply elem_of_nil in Hin.
Defined.

Lemma load_kerning_undeclared_left_witness :
  ∃ r u' ws2,
    load_kerning [("A", [("@MMK_R_O", -50)]); ("T", [("V", -20)])] (empty_font, [])
    = (r, (u', [] ++ [NonExistentClass "public.kern2.O"] ++ ws2)) ∧
    load_kerning [("A", [("@MMK_R_O", -50)]); ("@MMK_L_A", [("B", -40)]);
                  ("T", [("V", -20)])] (empty_font, [])
    = (r, (u', [] ++ [NonExistentClass "public.kern2.O"]
                  ++ NonExistentClass ("public.kern1." +:+ "A") :: ws2)).
Proof.
  apply (load_kerning_undeclared_left [("A", [("@MMK_R_O", -50)])] [("T", [("V", -20)])]
           "@MMK_L_A" "A" [("B", -40)] empty_font []).
  - vm_compute. reflexivity.
  - reflexivity.
Defined.

Lemma load_kerning_unmixed_witness :
  load_kerning [("A", [("V", -50); ("T", -30)]); ("@MMK_L_A", [("@MMK_R_A", -10)])]
    (conflict_font_with_kern2, [])
  = (Ok tt,
     (with_kerning
        (store_pairs
           (resolved_pairs
              [("A", [("V", -50); ("T", -30)]); ("@MMK_L_A", [("@MMK_R_A", -10)])])
           (kerning conflict_font_with_kern2)) conflict_font_with_kern2, [])).
Proof.
  apply (load_kerning_unmixed
           [("A", [("V", -50); ("T", -30)]); ("@MMK_L_A", [("@MMK_R_A", -10)])]
           conflict_font_with_kern2 []).
  repeat constructor;
    first [vm_compute; reflexivity | intros _; vm_compute; by eexists | intros [=]].
Defined.

(** ** Redundant metadata: the OS/2 classes *)

Lemma width_code_range (width : string) (c : Z) :
  dict_get WIDTH_CODES width = Ok c → 2 ≤ c ≤ 5.
Proof.
  unfold WIDTH_CODES. cbn [dict_get].
  repeat (destruct (String.eqb _ width); [intros [= <-]; lia|]). done.
Qed.

Lemma weight_code_range (weight : string) (c : Z) :
  dict_get WEIGHT_CODES weight = Ok c → 250 ≤ c ≤ 900.
Proof.
  unfold WEIGHT_CODES. cbn [dict_get].
  repeat (destruct (String.eqb _ weight); [intros [= <-]; lia|]). done.
Qed.

(** [set_redundant_data] on a font whose family and style names are strings
    returns normally: the width and the weight parsed from the style name
    are keys of the code tables, so neither lookup fails.  The OS/2 width
    class is the code of the parsed width, between 2 and 5, and the OS/2
    weight class the code of the parsed weight, between 250 and 900.  The
    lib records the weight unless it is empty or Regular, and the width
    unless it is empty; the preferred names are the family and style names;
    groups, kerning and layers are untouched. *)
Theorem set_redundant_data_classes (u : font) (family style_name : string) :
  info u !! "familyName" = Some (VStr family) →
  info u !! "styleName" = Some (VStr style_name) →
  ∃ u' width weight width_class weight_class,
    set_redundant_data u = (Ok tt, u') ∧
    parse_style_attrs style_name = [width; weight] ∧
    dict_get WIDTH_CODES width = Ok width_class ∧
    dict_get WEIGHT_CODES weight = Ok weight_class ∧
    info u' !! "openTypeOS2WidthClass" = Some (VInt width_class) ∧
    info u' !! "openTypeOS2WeightClass" = Some (VInt weight_class) ∧
    2 ≤ width_class ≤ 5 ∧ 250 ≤ weight_class ≤ 900 ∧
    lib u' !! (GLYPHS_PREFIX +:+ "weight")
    = (if nonempty weight && negb (String.eqb weight "Regular")
       then Some (VStr weight) else lib u !! (GLYPHS_PREFIX +:+ "weight")) ∧
    lib u' !! (GLYPHS_PREFIX +:+ "width")
    = (if nonempty width then Some (VStr width) else lib u !! (GLYPHS_PREFIX +:+ "width")) ∧
    info u' !! "openTypeNamePreferredFamilyName" = Some (VStr family) ∧
    info u' !! "openTypeNamePreferredSubfamilyName" = Some (VStr style_name) ∧
    groups u' = groups u ∧ kerning u' = kerning u ∧ layers u' = layers u.
Proof.
  intros Hfam Hsty.
  destruct (parse_style_attrs_codes style_name) as (w & g & wc & gc & Hp & Hw & Hg).
  pose proof (width_code_range _ _ Hw). pose proof (weight_code_range _ _ Hg).
  unfold set_redundant_data.
  cbv [mbind M_bind gets get_info as_str lift set_info set_lib when modify mret M_ret].
  rewrite Hfam, Hsty. cbv [default from_option id]. rewrite Hp, Hw, Hg.
  destruct (str_in (lower style_name) _);
    destruct (nonempty g && negb (String.eqb g "Regular")) eqn:Hcg,
             (nonempty w) eqn:Hcw;
    eexists _, w, g, wc, gc; rewrite ?Hcg, ?Hcw;
    (split; [reflexivity|]); destruct u; simpl;
    split_and!; try done; try lia;
    repeat (rewrite lookup_insert_ne by str_ne); by rewrite ?lookup_insert_eq.
Qed.

Lemma set_redundant_data_classes_witness :
  ∃ u',
    set_redundant_data (master_font "Noto Sans" "Condensed Bold") = (Ok tt, u') ∧
    info u' !! "openTypeOS2WidthClass" = Some (VInt 3) ∧
    info u' !! "openTypeOS2WeightClass" = Some (VInt 700).
Proof.
  destruct (set_redundant_data_classes (master_font "Noto Sans" "Condensed Bold")
              "Noto Sans" "Condensed Bold")
    as (u' & w & g & wc & gc & Hrun & Hp & Hw & Hg & Hwc & Hgc & _).
  - reflexivity.
  - reflexivity.
  - exists u'. split; [exact Hrun|].
    vm_compute in Hp. injection Hp as <- <-.
    vm_compute in Hw. injection Hw as <-.
    vm_compute in Hg. injection Hg as <-.
    split; [exact Hwc|exact Hgc].
Defined.

(** ** Custom parameters: the rewriting of names and values *)

Lemma string_drop_app (x y : string) :
  string_drop (String.length x) (x +:+ y) = y.
Proof. induction x as [|c x IH]; [by destruct y|exact IH]. Qed.

Lemma startswith_app (x y : string) : startswith x (x +:+ y) = true.
Proof.
  unfold startswith. induction x as [|c x IH]; simpl; [by destruct y|].
  by destruct (ascii_dec c c).
Qed.

Lemma sub_prefix_hit (prefix repl rest : string) :
  sub_prefix prefix repl (prefix +:+ rest) = repl +:+ rest.
Proof. unfold sub_prefix. by rewrite startswith_app, string_drop_app. Qed.

Lemma sub_prefix_miss (prefix repl s : string) :
  startswith prefix s = false → sub_prefix prefix repl s = s.
Proof. unfold sub_prefix. by intros ->. Qed.

Lemma fold_left_step {A B} (f : A → B → A) (x : B) (l : list B) (a : A) :
  fold_left f (x :: l) a = fold_left f l (f a x).
Proof. reflexivity. Qed.

(** One step of the loop over the prefix pairs, on a name whose first
    characters are known. *)
Ltac prefix_step :=
  rewrite fold_left_step; cbv beta iota;
  first [ rewrite sub_prefix_hit
        | rewrite sub_prefix_miss by (vm_compute; reflexivity) ].

Lemma rewrite_prefixed (glyphs_prefix ufo_prefix rest : string) :
  (glyphs_prefix, ufo_prefix) ∈ opentype_attr_prefix_pairs →
  fold_left (λ name '(glyphs_prefix, ufo_prefix),
               sub_prefix glyphs_prefix ("openType" +:+ ufo_prefix) name)
            opentype_attr_prefix_pairs (glyphs_prefix +:+ rest)
  = "openType" +:+ ufo_prefix +:+ rest.
Proof.
  intros Hin. unfold opentype_attr_prefix_pairs in *.
  repeat (apply elem_of_cons in Hin as [[= -> ->]|Hin];
          [by repeat prefix_step|]).
  by apply elem_of_nil in Hin.
Qed.

(** A custom parameter whose name begins with one of the ten Glyphs
    prefixes and has no curved quote is renamed by putting [openType] and
    the UFO prefix in the place of the Glyphs prefix, whatever follows the
    prefix; an integer value is kept, except under the prefix [win], where
    it is replaced by its absolute value. *)
Theorem rewrite_custom_param_prefix (glyphs_prefix ufo_prefix rest : string) (z : Z) :
  (glyphs_prefix, ufo_prefix) ∈ opentype_attr_prefix_pairs →
  normalize_custom_param_name (glyphs_prefix +:+ rest) = glyphs_prefix +:+ rest →
  rewrite_custom_param (VStr (glyphs_prefix +:+ rest), VInt z)
  = Ok ("openType" +:+ ufo_prefix +:+ rest,
        VInt (if String.eqb glyphs_prefix "win" then Z.abs z else z)).
Proof.
  intros Hin Hnorm. unfold rewrite_custom_param. rewrite Hnorm. clear Hnorm.
  cbn [mbind result_bind].
  assert (String.eqb (glyphs_prefix +:+ rest) "disablesNiceNames" = false) as ->.
  { unfold opentype_attr_prefix_pairs in Hin.
    repeat (apply elem_of_cons in Hin as [[= -> ->]|Hin]; [vm_compute; reflexivity|]).
    by apply elem_of_nil in Hin. }
  rewrite (rewrite_prefixed _ _ _ Hin).
  assert (str_in ("openType" +:+ ufo_prefix +:+ rest) postscript_attrs = false) as ->
    by (vm_compute; reflexivity).
  cbn [mbind result_bind].
  destruct (String.eqb_spec glyphs_prefix "win") as [->|Hne].
  - assert (ufo_prefix = "OS2Win") as ->.
    { unfold opentype_attr_prefix_pairs in Hin.
      repeat (apply elem_of_cons in Hin as [Heq|Hin];
              [apply pair_eq in Heq as [Hp Hu]; first [discriminate Hp | exact Hu]|]).
      by apply elem_of_nil in Hin. }
    assert (startswith "openTypeOS2Win" ("openType" +:+ "OS2Win" +:+ rest) = true) as ->
      by apply (startswith_app "openTypeOS2Win" rest).
    by destruct z.
  - assert (startswith "openTypeOS2Win" ("openType" +:+ ufo_prefix +:+ rest) = false) as ->.
    { unfold opentype_attr_prefix_pairs in Hin.
      repeat (apply elem_of_cons in Hin as [[= -> ->]|Hin];
              [first [done | vm_compute; reflexivity]|]).
      by apply elem_of_nil in Hin. }
    done.
Qed.

Lemma rewrite_custom_param_prefix_witness :
  rewrite_custom_param (VStr ("win" +:+ "Descent"), VInt (-200))
  = Ok ("openType" +:+ "OS2Win" +:+ "Descent", VInt 200).
Proof.
  apply (rewrite_custom_param_prefix "win" "OS2Win" "Descent" (-200)).
  - in_list.
  - vm_compute. reflexivity.
Defined.

(** The rewriting of a custom parameter with a string name and an integer
    value never fails.  The value of [disablesNiceNames] is inverted to 0 or
    1 and stored as [useNiceNames]; under a name that begins with
    [openTypeOS2Win] after the rewriting the value is made non-negative;
    any other value is kept. *)
Theorem rewrite_custom_param_int (name : string) (z : Z) :
  ∃ name' z',
    rewrite_custom_param (VStr name, VInt z) = Ok (name', VInt z') ∧
    if String.eqb (normalize_custom_param_name name) "disablesNiceNames"
    then name' = "useNiceNames" ∧ z' = (if z =? 0 then 1 else 0)
    else if startswith "openTypeOS2Win" name' then z' = Z.abs z else z' = z.
Proof.
  unfold rewrite_custom_param. cbn [mbind result_bind].
  destruct (String.eqb (normalize_custom_param_name name) "disablesNiceNames").
  - exists "useNiceNames", (if z =? 0 then 1 else 0).
    split; [|done]. destruct z; vm_compute; reflexivity.
  - generalize (fold_left (λ name '(glyphs_prefix, ufo_prefix),
                             sub_prefix glyphs_prefix ("openType" +:+ ufo_prefix) name)
                          opentype_attr_prefix_pairs (normalize_custom_param_name name)).
    intros n.
    destruct (str_in n postscript_attrs) eqn:Hps.
    + apply str_in_elem_of in Hps. unfold postscript_attrs in Hps.
      apply elem_of_cons in Hps as [->|Hps];
        [|apply elem_of_cons in Hps as [->|Hps]; [|by apply elem_of_nil in Hps]];
        (eexists _, z; split; [vm_compute; reflexivity|done]).
    + cbn [mbind result_bind]. destruct (startswith "openTypeOS2Win" n) eqn:Hwin.
      * exists n, (Z.abs z). rewrite Hwin. split; [|done]. by destruct z.
      * exists n, z. by rewrite Hwin.
Qed.

(** ** The path of a written UFO *)

Lemma endswith_app (suffix x : string) : endswith suffix (x +:+ suffix) = true.
Proof.
  unfold endswith. rewrite string_length_app.
  rewrite (proj2 (Nat.leb_le _ _)) by lia.
  replace (String.length x + String.length suffix - String.length suffix)%nat
    with (String.length x) by lia.
  rewrite string_drop_app. apply String.eqb_refl.
Qed.

Lemma string_app_assoc (x y z : string) : (x +:+ y) +:+ z = x +:+ (y +:+ z).
Proof.
  induction x as [|c x IH]; [done|].
  change (String c ((x +:+ y) +:+ z) = String c (x +:+ (y +:+ z))).
  by rewrite IH.
Qed.

Lemma contains_space_cons (c : ascii) (s : string) :
  contains " " (String c s) = Ascii.eqb c " " || contains " " s.
Proof.
  cbn [contains startswith String.prefix].
  destruct (ascii_dec " " c) as [<-|Hne].
  - by destruct s.
  - by destruct (Ascii.eqb_spec c " ") as [->|_].
Qed.

Lemma contains_space_app (x y : string) :
  contains " " (x +:+ y) = contains " " x || contains " " y.
Proof.
  induction x as [|c x IH].
  - simpl. by destruct y.
  - change (String c x +:+ y) with (String c (x +:+ y)).
    rewrite !contains_space_cons, IH. by rewrite orb_assoc.
Qed.

Lemma replace_go_space (n : nat) (s : string) :
  (String.length s ≤ n)%nat → contains " " (replace_go n " " "" s) = false.
Proof.
  revert s. induction n as [|n IH]; intros [|c s] Hlen; simpl in Hlen; try done; try lia.
  cbn [replace_go startswith String.prefix].
  destruct (ascii_dec " " c) as [<-|Hne].
  - change (string_drop (String.length " ") (String " " s)) with s.
    change ("" +:+ replace_go n " " "" s) with (replace_go n " " "" s).
    destruct s; apply IH; simpl in *; lia.
  - rewrite contains_space_cons, IH by lia.
    destruct (Ascii.eqb_spec c " ") as [->|_]; done.
Qed.

Lemma replace_space_no_space (s : string) : contains " " (replace " " "" s) = false.
Proof. by apply replace_go_space. Qed.

Lemma build_ufo_path_ends_with_name (out_dir family_name style_name : string) :
  endswith (ufo_file_name family_name style_name)
    (build_ufo_path out_dir family_name style_name) = true.
Proof.
  unfold build_ufo_path, path_join.
  destruct (startswith "/" _); [apply (endswith_app _ "")|].
  destruct (negb (nonempty out_dir) || endswith "/" out_dir); [apply endswith_app|].
  rewrite <-string_app_assoc. apply endswith_app.
Qed.

Lemma build_ufo_path_ends_with_ufo (out_dir family_name style_name : string) :
  endswith ".ufo" (build_ufo_path out_dir family_name style_name) = true.
Proof.
  unfold build_ufo_path, path_join, ufo_file_name.
  destruct (startswith "/" _).
  - rewrite <-!string_app_assoc. apply endswith_app.
  - destruct (negb (nonempty out_dir) || endswith "/" out_dir);
      rewrite <-!string_app_assoc; apply endswith_app.
Qed.

(** The path built for a UFO always ends in the file name of the UFO, and
    so in ".ufo"; the file name has no space.  When the family name without
    its spaces begins with a slash, the path is the file name alone and the
    output directory is dropped; otherwise the path begins with the output
    directory. *)
Theorem build_ufo_path_shape (out_dir family_name style_name : string) :
  endswith ".ufo" (build_ufo_path out_dir family_name style_name) = true ∧
  endswith (ufo_file_name family_name style_name)
    (build_ufo_path out_dir family_name style_name) = true ∧
  contains " " (ufo_file_name family_name style_name) = false ∧
  (startswith "/" (replace " " "" family_name) = true →
     build_ufo_path out_dir family_name style_name
     = ufo_file_name family_name style_name) ∧
  (startswith "/" (replace " " "" family_name) = false →
     startswith out_dir (build_ufo_path out_dir family_name style_name) = true).
Proof.
  assert (startswith "/" (ufo_file_name family_name style_name)
          = startswith "/" (replace " " "" family_name)) as Hslash.
  { unfold ufo_file_name, startswith.
    destruct (replace " " "" family_name) as [|c r]; [done|].
    change (String c r +:+ "-" +:+ replace " " "" style_name +:+ ".ufo")
      with (String c (r +:+ "-" +:+ replace " " "" style_name +:+ ".ufo")).
    cbn [String.prefix]. destruct (ascii_dec "/" c); [|done].
    by destruct r. }
  split_and!.
  - apply build_ufo_path_ends_with_ufo.
  - apply build_ufo_path_ends_with_name.
  - unfold ufo_file_name.
    by rewrite !contains_space_app, !replace_space_no_space.
  - intros H. unfold build_ufo_path, path_join. by rewrite Hslash, H.
  - intros H. unfold build_ufo_path, path_join. rewrite Hslash, H.
    destruct (negb (nonempty out_dir) || endswith "/" out_dir);
      rewrite ?string_app_assoc; apply startswith_app.
Qed.

Lemma build_ufo_path_shape_witness :
  build_ufo_path "master_ufo" "/tmp/Noto Sans" "Bold Italic"
  = ufo_file_name "/tmp/Noto Sans" "Bold Italic" ∧
  startswith "master_ufo" (build_ufo_path "master_ufo" "Noto Sans" "Bold Italic") = true.
Proof.
  split.
  - apply (build_ufo_path_shape "master_ufo" "/tmp/Noto Sans" "Bold Italic"). reflexivity.
  - apply (build_ufo_path_shape "master_ufo" "Noto Sans" "Bold Italic"). reflexivity.
Defined.

(** [write_ufo] of a font whose family and style names are strings prints
    the path, removes whatever exists at the path, and saves the font
    there: the test of [clean_ufo] on the extension never holds it back. *)
Theorem write_ufo_cleans {W : Type} (path_exists : string → W → bool)
    (rmtree : string → M W unit) (save : font → string → M W unit)
    (print : string → M W unit) (ufo : font) (out_dir family_name style_name : string)
    (w : W) :
  info ufo !! "familyName" = Some (VStr family_name) →
  info ufo !! "styleName" = Some (VStr style_name) →
  write_ufo path_exists rmtree save print ufo out_dir w
  = (print (">>> Writing " +:+ build_ufo_path out_dir family_name style_name);;
     (path_there ← gets (path_exists (build_ufo_path out_dir family_name style_name));
      when path_there (rmtree (build_ufo_path out_dir family_name style_name)));;
     save ufo (build_ufo_path out_dir family_name style_name)) w.
Proof.
  intros Hfam Hsty. unfold write_ufo, get_info. rewrite Hfam, Hsty. simpl default.
  erewrite bind_ok; [|reflexivity]. erewrite bind_ok; [|reflexivity].
  unfold clean_ufo.
  by rewrite build_ufo_path_ends_with_ufo.
Qed.

Lemma write_ufo_cleans_witness :
  write_ufo saved_exists saved_rmtree saved_save silent_print
    (master_font "Noto Sans" "Bold") "master_ufo" ∅
  = (silent_print (">>> Writing " +:+ build_ufo_path "master_ufo" "Noto Sans" "Bold");;
     (path_there ← gets (saved_exists (build_ufo_path "master_ufo" "Noto Sans" "Bold"));
      when path_there (saved_rmtree (build_ufo_path "master_ufo" "Noto Sans" "Bold")));;
     saved_save (master_font "Noto Sans" "Bold")
       (build_ufo_path "master_ufo" "Noto Sans" "Bold")) ∅.
Proof.
  apply (write_ufo_cleans saved_exists saved_rmtree saved_save silent_print
           (master_font "Noto Sans" "Bold") "master_ufo" "Noto Sans" "Bold" ∅).
  - reflexivity.
  - reflexivity.
Defined.

(** ** Clearing data *)

Lemma value_nested_ind (P : value → Prop) :
  P VNone → (∀ b, P (VBool b)) → (∀ z, P (VInt z)) → (∀ s, P (VStr s)) →
  (∀ l, Forall P l → P (VList l)) →
  (∀ d, Forall (λ kv, P kv.2) d → P (VDict d)) →
  ∀ v, P v.
Proof.
  intros HN HB HI HS HL HD. fix IH 1. intros [|b|z|s|l|d].
  - exact HN.
  - apply HB.
  - apply HI.
  - apply HS.
  - apply HL. revert l. fix IHl 1. intros [|x l].
    + constructor.
    + constructor; [apply IH|apply IHl].
  - apply HD. revert d. fix IHd 1. intros [|[k x] d].
    + constructor.
    + constructor; [apply IH|apply IHd].
Qed.

Lemma clear_data_dict (view : bool) (d : list (string * value)) :
  clear_data view (VDict d) = VDict <$> clear_items view d.
Proof.
  simpl. f_equal. induction d as [|[k x] d IH]; [done|].
  simpl. destruct (clear_data view x) as [r|]; [|done]. simpl.
  destruct (truthy r); [|destruct view; [done|exact IH]].
  by rewrite IH.
Qed.

Lemma clear_data_list (view : bool) (l : list value) :
  clear_data view (VList l) = VList <$> clear_elements view l.
Proof.
  simpl. f_equal. induction l as [|x l IH]; [done|].
  simpl. destruct (clear_data view x) as [r|]; [|done]. simpl.
  by rewrite IH.
Qed.

Lemma clear_data_scalar (view : bool) (v : value) :
  is_container v = false → clear_data view v = Some (VBool true).
Proof. by destruct v. Qed.

Lemma truthy_empty_leaves (r : value) :
  is_container r = true → truthy r = false → leaves r = [].
Proof. by destruct r as [| | | |[|x l]|[|kv d]]. Qed.

Lemma cleared_spec (x r : value) :
  clear_data false x = Some r → clear_data_post x r →
  if truthy r
  then (negb (is_container (cleared x r)) || truthy (cleared x r)) = true ∧
       no_empty (cleared x r) = true ∧
       leaves (cleared x r) = leaves x ∧
       ∃ r', clear_data false (cleared x r) = Some r' ∧ truthy r' = true ∧
             cleared (cleared x r) r' = cleared x r
  else leaves x = [].
Proof.
  intros Hrun Hpost. unfold clear_data_post in Hpost.
  destruct (is_container x) eqn:Hx.
  - destruct Hpost as (Hr & Hne & Hlv & Hidem).
    assert (cleared x r = r) as -> by (by destruct x).
    destruct (truthy r) eqn:Ht.
    + rewrite orb_true_r. split_and!; try done.
      exists r. split_and!; try done. by destruct r.
    + by rewrite <-Hlv, truthy_empty_leaves.
  - subst r. simpl.
    assert (cleared x (VBool true) = x) as -> by (by destruct x).
    rewrite Hx. simpl. split_and!; [done|by destruct x|done|].
    exists (VBool true). split; [by apply clear_data_scalar|]. by destruct x.
Qed.

Lemma clear_elements_spec (l : list value) :
  Forall (λ x, ∃ r, clear_data false x = Some r ∧ clear_data_post x r) l →
  ∃ l', clear_elements false l = Some l' ∧
        no_empty (VList l') = true ∧
        flat_map leaves l' = flat_map leaves l ∧
        clear_elements false l' = Some l'.
Proof.
  induction 1 as [|x l (r & Hrun & Hpost) _ (l' & Hl' & Hne & Hlv & Hidem)].
  - by exists [].
  - pose proof (cleared_spec x r Hrun Hpost) as Hx.
    cbn [clear_elements]. rewrite Hrun, Hl'. simpl.
    destruct (truthy r).
    + destruct Hx as (Hkeep & Hnex & Hlvx & r' & Hrun' & Ht' & Hsame).
      eexists. split; [done|]. split_and!.
      * simpl in *. by rewrite Hkeep, Hnex, Hne.
      * simpl. by rewrite Hlvx, Hlv.
      * cbn [clear_elements]. rewrite Hrun', Hidem. simpl. by rewrite Ht', Hsame.
    + exists l'. split_and!; try done. simpl. by rewrite Hx, Hlv.
Qed.

Lemma clear_items_spec (d : list (string * value)) :
  Forall (λ kv, ∃ r, clear_data false kv.2 = Some r ∧ clear_data_post kv.2 r) d →
  ∃ d', clear_items false d = Some d' ∧
        no_empty (VDict d') = true ∧
        flat_map (λ kv, leaves kv.2) d' = flat_map (λ kv, leaves kv.2) d ∧
        clear_items false d' = Some d'.
Proof.
  induction 1 as [|[k x] d (r & Hrun & Hpost) _ (d' & Hd' & Hne & Hlv & Hidem)].
  - by exists [].
  - simpl in Hrun, Hpost.
    pose proof (cleared_spec x r Hrun Hpost) as Hx.
    cbn [clear_items]. rewrite Hrun. simpl.
    destruct (truthy r).
    + destruct Hx as (Hkeep & Hnex & Hlvx & r' & Hrun' & Ht' & Hsame).
      rewrite Hd'. eexists. split; [done|]. split_and!.
      * simpl in *. by rewrite Hkeep, Hnex, Hne.
      * simpl. by rewrite Hlvx, Hlv.
      * cbn [clear_items]. rewrite Hrun'. simpl. by rewrite Ht', Hidem, Hsame.
    + exists d'. split_and!; try done. simpl. by rewrite Hx, Hlv.
Qed.

Lemma clear_data_snapshot_spec (data : value) :
  ∃ r, clear_data false data = Some r ∧ clear_data_post data r.
Proof.
  induction data as [|b|z|s|l IH|d IH] using value_nested_ind;
    try (by eexists).
  - destruct (clear_elements_spec l IH) as (l' & Hl' & Hne & Hlv & Hidem).
    exists (VList l'). unfold clear_data_post. cbn [is_container].
    rewrite !clear_data_list, Hl', Hidem. by split.
  - destruct (clear_items_spec d IH) as (d' & Hd' & Hne & Hlv & Hidem).
    exists (VDict d'). unfold clear_data_post. cbn [is_container].
    rewrite !clear_data_dict, Hd', Hidem. by split.
Qed.

(** Where [items()] is a list of its own, [clear_data] always returns.  For
    anything but a list or a dictionary it returns [True]: such a value is
    never removed from the container that holds it, not even [None], zero
    or an empty string.  A list or a dictionary is returned without any
    empty list or dictionary inside; its leaves are those of the input, in
    order; clearing it again changes nothing. *)
Theorem clear_data_removes_empty_containers (data : value) :
  ∃ r, clear_data false data = Some r ∧
       if is_container data
       then is_container r = true ∧ no_empty r = true ∧ leaves r = leaves data ∧
            clear_data false r = Some r
       else r = VBool true.
Proof. apply clear_data_snapshot_spec. Qed.

Lemma clear_elements_view (l : list value) :
  Forall (λ x, clear_data true x
               = if deletes_from_dict x then None else clear_data false x) l →
  clear_elements true l
  = if existsb deletes_from_dict l then None else clear_elements false l.
Proof.
  induction 1 as [|x l Hx _ IH]; [done|].
  cbn [clear_elements existsb]. rewrite Hx, IH.
  destruct (deletes_from_dict x); [done|].
  destruct (clear_data_snapshot_spec x) as (r & -> & _). simpl.
  by destruct (existsb deletes_from_dict l).
Qed.

Lemma clear_items_view (d : list (string * value)) :
  Forall (λ kv, clear_data true kv.2
                = if deletes_from_dict kv.2 then None else clear_data false kv.2) d →
  clear_items true d
  = if deletes_from_dict (VDict d) then None else clear_items false d.
Proof.
  induction 1 as [|[k x] d Hx _ IH]; [done|].
  cbn [clear_items deletes_from_dict existsb snd] in *. rewrite Hx, IH.
  destruct (deletes_from_dict x); [done|].
  destruct (clear_data_snapshot_spec x) as (r & -> & _). simpl.
  destruct (truthy r); [|done]. simpl.
  by destruct (existsb _ d).
Qed.

(** Where [items()] is a view of the dictionary, [clear_data] raises as
    soon as it has deleted an entry of a dictionary: it fails exactly when
    some dictionary in the data, at any depth, holds a value that is or
    becomes an empty list or dictionary, and otherwise it behaves as with a
    list of items. *)
Theorem clear_data_view_raises (data : value) :
  clear_data true data
  = if deletes_from_dict data then None else clear_data false data.
Proof.
  induction data as [|b|z|s|l IH|d IH] using value_nested_ind; try done.
  - rewrite !clear_data_list, (clear_elements_view l IH).
    cbn [deletes_from_dict]. by destruct (existsb deletes_from_dict l).
  - rewrite !clear_data_dict, (clear_items_view d IH).
    by destruct (deletes_from_dict (VDict d)).
Qed.

(** The two readings of [items()] on data that has something to delete. *)
Lemma clear_data_sample :
  clear_data false sample_data
  = Some (VDict [("glyphs", VList [VInt 0]); ("note", VStr "")]) ∧
  clear_data true sample_data = None.
Proof. split; vm_compute; reflexivity. Qed.

(** ** Curved quotes in the names of custom parameters *)

Lemma prefix_nil (s : string) : String.prefix "" s = true.
Proof. by destruct s. Qed.

Lemma prefix_cons (c d : ascii) (q s : string) :
  String.prefix (String c q) (String d s) = Ascii.eqb c d && String.prefix q s.
Proof.
  cbn [String.prefix]. destruct (ascii_dec c d) as [->|Hne].
  - by rewrite Ascii.eqb_refl.
  - by destruct (Ascii.eqb_spec c d).
Qed.

Lemma contains_cons (q : string) (c : ascii) (s : string) :
  contains q (String c s) = startswith q (String c s) || contains q s.
Proof. cbn [contains]. by destruct (startswith q (String c s)). Qed.

Lemma occurs_unmatched_cons (q old : string) (c : ascii) (s : string) :
  occurs_unmatched q old (String c s)
  = (startswith q (String c s) && negb (startswith old (String c s)))
    || occurs_unmatched q old s.
Proof. reflexivity. Qed.

Lemma occurs_unmatched_contains (q old s : string) :
  occurs_unmatched q old s = true → contains q s = true.
Proof.
  induction s as [|c s IH].
  - cbn [occurs_unmatched contains]. by destruct (startswith q "").
  - rewrite occurs_unmatched_cons, contains_cons.
    intros [[H _]%andb_true_iff|H]%orb_true_iff; [by rewrite H|].
    rewrite IH by done. apply orb_true_r.
Qed.

Lemma occurs_unmatched_self (old s : string) : occurs_unmatched old old s = false.
Proof.
  induction s as [|c s IH].
  - cbn [occurs_unmatched]. by destruct (startswith old "").
  - rewrite occurs_unmatched_cons, IH. by destruct (startswith old (String c s)).
Qed.

Lemma occurs_unmatched_drop (q old : string) (k : nat) (s : string) :
  occurs_unmatched q old (string_drop k s) = true → occurs_unmatched q old s = true.
Proof.
  revert s. induction k as [|k IH]; intros [|c s]; try done.
  cbn [string_drop]. intros H%IH. rewrite occurs_unmatched_cons, H. apply orb_true_r.
Qed.

Lemma string_drop_length (k : nat) (s : string) :
  (String.length (string_drop k s) ≤ String.length s)%nat.
Proof.
  revert s. induction k as [|k IH]; intros [|c s]; simpl; try lia.
  specialize (IH s). lia.
Qed.

Section replace_char.
(** The replacement of [old] by the single character [r]. *)
Variables (old : string) (r : ascii).

(** When the result of the replacement begins with [q], a string without
    [r], so does [s], and no replacement was made at the start of [s]. *)
Lemma replace_head (q : string) (c : ascii) (n : nat) (s : string) :
  has_char r (String c q) = false →
  (String.length s ≤ n)%nat →
  startswith (String c q) (replace_go n old (String r "") s) = true →
  startswith (String c q) s = true ∧ startswith old s = false.
Proof.
  revert c n s. induction q as [|c' q IH]; intros c n s Hr Hlen Hstart.
  - destruct s as [|d s].
    + destruct n; cbn [replace_go] in Hstart; discriminate Hstart.
    + destruct n as [|n]; [simpl in Hlen; lia|].
      cbn [replace_go] in Hstart.
      cbn [has_char] in Hr. apply orb_false_iff in Hr as [Hc _].
      destruct (startswith old (String d s)) eqn:Hold.
      * change (String r "" +:+ ?x) with (String r x) in Hstart.
        unfold startswith in Hstart. rewrite prefix_cons, Hc in Hstart.
        discriminate Hstart.
      * split; [|done]. unfold startswith in Hstart |- *.
        rewrite prefix_cons, prefix_nil in Hstart.
        by rewrite prefix_cons, prefix_nil.
  - destruct s as [|d s].
    + destruct n; cbn [replace_go] in Hstart; discriminate Hstart.
    + destruct n as [|n]; [simpl in Hlen; lia|].
      cbn [replace_go] in Hstart.
      cbn [has_char] in Hr. apply orb_false_iff in Hr as [Hc Hr].
      destruct (startswith old (String d s)) eqn:Hold.
      * change (String r "" +:+ ?x) with (String r x) in Hstart.
        unfold startswith in Hstart. rewrite prefix_cons, Hc in Hstart.
        discriminate Hstart.
      * unfold startswith in Hstart. rewrite prefix_cons in Hstart.
        apply andb_true_iff in Hstart as [Hcd Hq].
        assert (String.length s ≤ n)%nat as Hlen' by (simpl in Hlen; lia).
        destruct (IH c' n s Hr Hlen' Hq) as [Hs _].
        unfold startswith in Hs |- *. by rewrite prefix_cons, Hcd, Hs.
Qed.

(** An occurrence of [q] in the result of the replacement comes from an
    occurrence in [s] at a place where nothing was replaced. *)
Lemma replace_go_occurs (q : string) (c : ascii) (n : nat) (s : string) :
  has_char r (String c q) = false →
  old ≠ "" →
  (String.length s ≤ n)%nat →
  contains (String c q) (replace_go n old (String r "") s) = true →
  occurs_unmatched (String c q) old s = true.
Proof.
  intros Hr Hne. revert s. induction n as [|n IH]; intros [|d s] Hlen; simpl in Hlen;
    try lia; try done.
  cbn [replace_go]. destruct (startswith old (String d s)) eqn:Hold.
  - change (String r "" +:+ ?x) with (String r x).
    rewrite contains_cons. unfold startswith at 1. rewrite prefix_cons.
    assert (Ascii.eqb c r = false) as ->
      by (cbn [has_char] in Hr; by apply orb_false_iff in Hr as [-> _]).
    cbn [andb orb]. intros H.
    apply (occurs_unmatched_drop _ _ (String.length old)), IH; [|done].
    destruct old as [|o old']; [done|].
    cbn [String.length string_drop].
    pose proof (string_drop_length (String.length old') s). lia.
  - rewrite contains_cons, occurs_unmatched_cons.
    intros [H|H]%orb_true_iff.
    + assert (startswith (String c q) (replace_go (S n) old (String r "") (String d s))
              = true) as H' by (cbn [replace_go]; by rewrite Hold).
      destruct (replace_head q c (S n) (String d s) Hr Hlen H') as [-> ->]. done.
    + rewrite (IH s) by (done || lia). apply orb_true_r.
Qed.
End replace_char.

Lemma replace_no_occurrence (old q : string) (r : ascii) (s : string) :
  old ≠ "" → q ≠ "" → has_char r q = false →
  contains q s = false ∨ q = old →
  contains q (replace old (String r "") s) = false.
Proof.
  intros Hold Hq Hr Hs.
  destruct (contains q (replace old (String r "") s)) eqn:H; [|done].
  exfalso. destruct q as [|c q']; [done|].
  unfold replace in H. apply replace_go_occurs in H; [|done..].
  destruct Hs as [Hs|Hs].
  - apply occurs_unmatched_contains in H. congruence.
  - subst old. rewrite occurs_unmatched_self in H. discriminate H.
Qed.

Lemma contains_startswith (q s : string) :
  contains q s = false → startswith q s = false.
Proof. destruct s; cbn [contains]; by destruct (startswith q _). Qed.

Lemma replace_go_absent (n : nat) (old new s : string) :
  contains old s = false → replace_go n old new s = s.
Proof.
  revert s. induction n as [|n IH]; intros [|c s] H; try done.
  cbn [replace_go]. rewrite (contains_startswith _ _ H).
  rewrite contains_cons in H. apply orb_false_iff in H as [_ H].
  by rewrite IH.
Qed.

Lemma replace_absent (old new s : string) :
  contains old s = false → replace old new s = s.
Proof. apply replace_go_absent. Qed.

Lemma curved_quotes_absent_id (name : string) :
  (∀ q, q ∈ curved_quotes → contains q name = false) →
  normalize_custom_param_name name = name.
Proof.
  intros H. unfold normalize_custom_param_name. cbn [fold_left].
  rewrite (replace_absent "‘") by (apply H; in_list).
  rewrite (replace_absent "’") by (apply H; in_list).
  rewrite (replace_absent "“") by (apply H; in_list).
  by rewrite (replace_absent "”") by (apply H; in_list).
Qed.

Lemma curved_quotes_removed (name q : string) :
  q ∈ curved_quotes → contains q (normalize_custom_param_name name) = false.
Proof.
  intros Hq. unfold normalize_custom_param_name. cbn [fold_left].
  set (s1 := replace "‘" "'" name).
  set (s2 := replace "’" "'" s1).
  set (s3 := replace "“" (String "034" "") s2).
  assert (contains "‘" s1 = false) as H11
    by (apply replace_no_occurrence; [done|done|reflexivity|by right]).
  assert (contains "‘" s2 = false) as H12
    by (apply replace_no_occurrence; [done|done|reflexivity|by left]).
  assert (contains "’" s2 = false) as H22
    by (apply replace_no_occurrence; [done|done|reflexivity|by right]).
  assert (contains "‘" s3 = false) as H13
    by (apply replace_no_occurrence; [done|done|reflexivity|by left]).
  assert (contains "’" s3 = false) as H23
    by (apply replace_no_occurrence; [done|done|reflexivity|by left]).
  assert (contains "“" s3 = false) as H33
    by (apply replace_no_occurrence; [done|done|reflexivity|by right]).
  unfold curved_quotes in Hq.
  apply elem_of_cons in Hq as [->|Hq];
    [by apply replace_no_occurrence; [done|done|reflexivity|left]|].
  apply elem_of_cons in Hq as [->|Hq];
    [by apply replace_no_occurrence; [done|done|reflexivity|left]|].
  apply elem_of_cons in Hq as [->|Hq];
    [by apply replace_no_occurrence; [done|done|reflexivity|left]|].
  apply elem_of_cons in Hq as [->|Hq];
    [by apply replace_no_occurrence; [done|done|reflexivity|right]|].
  by apply elem_of_nil in Hq.
Qed.

(** The name returned by [normalize_custom_param_name] contains none of the
    four curved quotes.  A name without curved quotes is returned as it is,
    so normalizing twice is the same as normalizing once. *)
Theorem normalize_custom_param_name_no_curved_quotes (name : string) :
  (∀ q, q ∈ curved_quotes →
     contains q (normalize_custom_param_name name) = false) ∧
  ((∀ q, q ∈ curved_quotes → contains q name = false) →
     normalize_custom_param_name name = name) ∧
  normalize_custom_param_name (normalize_custom_param_name name)
  = normalize_custom_param_name name.
Proof.
  split_and!.
  - intros q. apply curved_quotes_removed.
  - apply curved_quotes_absent_id.
  - apply curved_quotes_absent_id. intros q. apply curved_quotes_removed.
Qed.

Lemma normalize_custom_param_name_no_curved_quotes_witness :
  normalize_custom_param_name "hheaAscender" = "hheaAscender".
Proof.
  apply (proj1 (proj2 (normalize_custom_param_name_no_curved_quotes "hheaAscender"))).
  intros q Hq. unfold curved_quotes in Hq.
  repeat (apply elem_of_cons in Hq as [->|Hq]; [vm_compute; reflexivity|]).
  by apply elem_of_nil in Hq.
Defined.

(** ** Parsing custom parameters *)

(** A list of literal strings has no duplicates. *)
Ltac not_in_strings :=
  let H := fresh in
  intros H;
  repeat (apply elem_of_cons in H as [H|H]; [by revert H; str_ne|]);
  by apply elem_of_nil in H.
Ltac nodup_strings :=
  repeat (apply NoDup_cons; split; [not_in_strings|]); apply NoDup_nil; exact I.

Lemma pop_misc_spec (misc_keys : list string) (data : gmap string value) :
  NoDup misc_keys →
  (pop_misc misc_keys data).1
  = omap (λ key, (λ val, (VStr key, val)) <$> data !! key) misc_keys ∧
  ∀ key, (pop_misc misc_keys data).2 !! key
         = if decide (key ∈ misc_keys) then None else data !! key.
Proof.
  intros Hnd. revert data.
  induction Hnd as [|k keys Hk _ IH]; intros data.
  - split; [done|]. intros key. by rewrite decide_False by apply not_elem_of_nil.
  - cbn [pop_misc omap list_omap].
    destruct (data !! k) as [val|] eqn:Hlook.
    + destruct (IH (delete k data)) as [Hparams Hdata].
      destruct (pop_misc keys (delete k data)) as [rest data'] eqn:Hpop.
      cbn [fst snd] in *. split.
      * simpl. f_equal. rewrite Hparams. clear -Hk.
        induction keys as [|k' keys IH]; [done|].
        apply not_elem_of_cons in Hk as [Hne Hk].
        cbn [omap list_omap]. rewrite lookup_delete_ne by done.
        by rewrite IH.
      * intros key. rewrite Hdata.
        destruct (decide (key = k)) as [->|Hne].
        -- rewrite decide_False by done.
           rewrite lookup_delete_eq. by rewrite decide_True by apply list_elem_of_here.
        -- rewrite lookup_delete_ne by done.
           destruct (decide (key ∈ keys)) as [Hin|Hnin].
           ++ by rewrite decide_True by (by apply list_elem_of_further).
           ++ rewrite decide_False; [done|].
              intros [?|?]%elem_of_cons; done.
    + destruct (IH data) as [Hparams Hdata]. split; [by simpl|].
      intros key. rewrite Hdata.
      destruct (decide (key = k)) as [->|Hne].
      * rewrite decide_False by done.
        by rewrite decide_True by apply list_elem_of_here.
      * destruct (decide (key ∈ keys)) as [Hin|Hnin].
        -- by rewrite decide_True by (by apply list_elem_of_further).
        -- rewrite decide_False; [done|].
           intros [?|?]%elem_of_cons; done.
Qed.

Lemma assoc_get_del_ne (d : list (string * value)) (k key : string) :
  key ≠ k → assoc_get (assoc_del k d) key = assoc_get d key.
Proof.
  intros Hne. unfold assoc_del. induction d as [|[k' v] d IH]; [done|].
  destruct (decide (k' = k)) as [->|Hk].
  - rewrite filter_cons_False by (simpl; auto). cbn [assoc_get].
    destruct (String.eqb_spec k key) as [->|_]; [done|exact IH].
  - rewrite filter_cons_True by done. cbn [assoc_get].
    destruct (String.eqb k' key); [done|exact IH].
Qed.

Lemma assoc_get_del_eq (d : list (string * value)) (k : string) :
  assoc_get (assoc_del k d) k = Raise (KeyError k).
Proof.
  unfold assoc_del. induction d as [|[k' v] d IH]; [done|].
  destruct (decide (k' = k)) as [->|Hk].
  - by rewrite filter_cons_False by (simpl; auto).
  - rewrite filter_cons_True by done. cbn [assoc_get].
    destruct (String.eqb_spec k' k) as [->|_]; [done|exact IH].
Qed.

(** A stripped parameter dictionary has lost [name] and [value] and kept
    its other entries. *)
Lemma stripped_spec (d : list (string * value)) (key : string) :
  ∃ d', stripped (VDict d) = VDict d' ∧
        assoc_get d' key
        = if decide (key ∈ ["name"; "value"]) then Raise (KeyError key)
          else assoc_get d key.
Proof.
  eexists. split; [reflexivity|].
  destruct (decide (key = "value")) as [->|Hv].
  { rewrite decide_True by (apply list_elem_of_further, list_elem_of_here).
    apply assoc_get_del_eq. }
  rewrite assoc_get_del_ne by done.
  destruct (decide (key = "name")) as [->|Hn].
  { rewrite decide_True by apply list_elem_of_here. apply assoc_get_del_eq. }
  rewrite assoc_get_del_ne by done.
  rewrite decide_False; [done|].
  intros [?|[?|?%elem_of_nil]%elem_of_cons]%elem_of_cons; done.
Qed.

Lemma param_of_ok (d : list (string * value)) (name val : value) :
  assoc_get d "name" = Ok name → assoc_get d "value" = Ok val →
  param_of (VDict d) = (Ok (name, val), stripped (VDict d)).
Proof.
  intros Hn Hv. unfold param_of.
  erewrite bind_ok; [|by unfold value_pop; rewrite Hn].
  erewrite bind_ok; [reflexivity|].
  unfold value_pop. rewrite assoc_get_del_ne by str_ne. by rewrite Hv.
Qed.

Lemma params_of_ok (ps : list value) (nvs : list (value * value)) :
  Forall2 (λ p nv, ∃ d, p = VDict d ∧ assoc_get d "name" = Ok nv.1 ∧
                        assoc_get d "value" = Ok nv.2) ps nvs →
  params_of ps = (Ok nvs, stripped <$> ps).
Proof.
  induction 1 as [|p [n v] ps nvs (d & -> & Hn & Hv) _ IH]; [done|].
  cbn [params_of]. rewrite (param_of_ok d n v Hn Hv), IH. reflexivity.
Qed.

(** The first loop of [parse_custom_params] and the second. *)
Lemma parse_custom_params_loops (data : gmap string value) (misc_keys : list string)
    (ps : list value) (nvs : list (value * value)) :
  data !! "customParameters" = None ∧ ps = [] ∨
  data !! "customParameters" = Some (VList ps) →
  Forall2 (λ p nv, ∃ d, p = VDict d ∧ assoc_get d "name" = Ok nv.1 ∧
                        assoc_get d "value" = Ok nv.2) ps nvs →
  parse_custom_params data misc_keys
  = (Ok (nvs ++ (pop_misc misc_keys (params_popped ps data)).1),
     (pop_misc misc_keys (params_popped ps data)).2).
Proof.
  intros Hcp Hps. unfold parse_custom_params, params_popped.
  destruct Hcp as [[-> ->]| ->].
  - inv Hps. by destruct (pop_misc misc_keys data).
  - cbn [params_of_value]. rewrite (params_of_ok ps nvs Hps).
    by destruct (pop_misc misc_keys _).
Qed.

Lemma params_popped_lookup (ps : list value) (data : gmap string value) (key : string) :
  key ≠ "customParameters" → params_popped ps data !! key = data !! key.
Proof.
  intros Hne. unfold params_popped. destruct (data !! "customParameters"); [|done].
  by rewrite lookup_insert_ne.
Qed.

Lemma omap_lookup_ext (data data' : gmap string value) (keys : list string) :
  (∀ key, key ∈ keys → data' !! key = data !! key) →
  omap (λ key, (λ val, (VStr key, val)) <$> data' !! key) keys
  = omap (λ key, (λ val, (VStr key, val)) <$> data !! key) keys.
Proof.
  induction keys as [|k keys IH]; intros Hext; [done|].
  cbn [omap list_omap]. rewrite Hext by apply list_elem_of_here.
  rewrite IH; [done|]. intros key Hkey. apply Hext. by apply list_elem_of_further.
Qed.

(** [parse_custom_params] on data whose custom parameters, if any, are a
    list of dictionaries with a name and a value: the result has the
    parameters in their order, followed by the entry of every key of
    [misc_keys] that the data has, in the order of [misc_keys].  The call
    leaves its mark on the data: [name] and [value] are popped out of every
    parameter dictionary, which stays in the list with its other entries,
    and the keys of [misc_keys] are popped from the data; no other entry of
    the data is touched. *)
Theorem parse_custom_params_order (data : gmap string value) (misc_keys : list string)
    (ps : list value) (nvs : list (value * value)) :
  data !! "customParameters" = None ∧ ps = [] ∨
  data !! "customParameters" = Some (VList ps) →
  Forall2 (λ p nv, ∃ d, p = VDict d ∧ assoc_get d "name" = Ok nv.1 ∧
                        assoc_get d "value" = Ok nv.2) ps nvs →
  NoDup misc_keys →
  "customParameters" ∉ misc_keys →
  ∃ data',
    parse_custom_params data misc_keys
    = (Ok (nvs ++ omap (λ key, (λ val, (VStr key, val)) <$> data !! key) misc_keys),
       data') ∧
    (∀ key, key ∈ misc_keys → data' !! key = None) ∧
    (data !! "customParameters" = Some (VList ps) →
     data' !! "customParameters" = Some (VList (stripped <$> ps))) ∧
    (∀ key, key ∉ misc_keys → key ≠ "customParameters" → data' !! key = data !! key) ∧
    Forall (λ p, ∃ d, stripped p = VDict d ∧
                      assoc_get d "name" = Raise (KeyError "name") ∧
                      assoc_get d "value" = Raise (KeyError "value")) ps.
Proof.
  intros Hcp Hps Hnd Hnot.
  destruct (pop_misc_spec misc_keys (params_popped ps data) Hnd) as [Hparams Hdata].
  exists (pop_misc misc_keys (params_popped ps data)).2.
  rewrite (parse_custom_params_loops data misc_keys ps nvs Hcp Hps), Hparams.
  split_and!.
  - rewrite (omap_lookup_ext data (params_popped ps data)); [done|].
    intros key Hkey. apply params_popped_lookup. by intros ->.
  - intros key Hkey. rewrite Hdata. by rewrite decide_True.
  - intros Hsome. rewrite Hdata, decide_False by done.
    unfold params_popped. rewrite Hsome. apply lookup_insert_eq.
  - intros key Hkey Hne. rewrite Hdata, decide_False by done.
    by apply params_popped_lookup.
  - clear -Hps. induction Hps as [|p nv ps nvs (d & -> & _) _ IH]; constructor; [|done].
    eexists. split; [reflexivity|]. split.
    + rewrite assoc_get_del_ne by str_ne. apply assoc_get_del_eq.
    + apply assoc_get_del_eq.
Qed.

Lemma parse_custom_params_order_witness :
  ∃ data',
    parse_custom_params
      {[ "customParameters" :=
           VList [VDict [("name", VStr "hheaAscender"); ("value", VInt 950)]];
         "weightValue" := VInt 400; "ascender" := VInt 800 ]}
      ["customValue"; "weightValue"; "widthValue"]
    = (Ok [(VStr "hheaAscender", VInt 950); (VStr "weightValue", VInt 400)], data') ∧
    data' !! "weightValue" = None ∧ data' !! "ascender" = Some (VInt 800) ∧
    data' !! "customParameters" = Some (VList [VDict []]).
Proof.
  destruct (parse_custom_params_order
              {[ "customParameters" :=
                   VList [VDict [("name", VStr "hheaAscender"); ("value", VInt 950)]];
                 "weightValue" := VInt 400; "ascender" := VInt 800 ]}
              ["customValue"; "weightValue"; "widthValue"]
              [VDict [("name", VStr "hheaAscender"); ("value", VInt 950)]]
              [(VStr "hheaAscender", VInt 950)])
    as (data' & Hrun & Hmisc & Hcp & Hother & _).
  - right. reflexivity.
  - repeat constructor. by eexists.
  - nodup_strings.
  - not_in_strings.
  - exists data'. split; [exact Hrun|]. split_and!.
    + apply Hmisc. apply list_elem_of_further, list_elem_of_here.
    + rewrite Hother; [reflexivity|not_in_strings|by str_ne].
    + apply Hcp. reflexivity.
Defined.

(** ** Base fonts *)


Section base_frame_rules.
Implicit Types (u : font).

Lemma frame_set_info (name : string) (v : value) :
  triple base_frame (set_info name v) (λ _, base_frame) (λ _ _, False).
Proof. apply triple_modify. by intros [i lb gr k ly]. Qed.

Lemma frame_set_lib (key : string) (v : value) :
  triple base_frame (set_lib key v) (λ _, base_frame) (λ _ _, False).
Proof. apply triple_modify. by intros [i lb gr k ly]. Qed.

Lemma frame_when (b : bool) (m : M font unit) :
  triple base_frame m (λ _, base_frame) (λ _ _, False) →
  triple base_frame (when b m) (λ _, base_frame) (λ _ _, False).
Proof. destruct b; [done|]. intros _. by apply triple_ret. Qed.

Lemma frame_assign_info (info_accepts : string → value → bool) (name : string)
    (v : value) :
  info_accepts name v = true →
  triple base_frame (assign_info info_accepts name v) (λ _, base_frame) (λ _ _, False).
Proof. intros Hv. unfold assign_info. rewrite Hv. apply frame_set_info. Qed.

Lemma frame_when_assign_info (info_accepts : string → value → bool) (name : string)
    (v : value) :
  (truthy v = true → info_accepts name v = true) →
  triple base_frame (when (truthy v) (assign_info info_accepts name v))
         (λ _, base_frame) (λ _ _, False).
Proof.
  intros Hv. destruct (truthy v); [|by apply triple_ret].
  by apply frame_assign_info, Hv.
Qed.
End base_frame_rules.

Lemma frame_set_redundant_data (family style_name : string) :
  triple (λ u, base_frame u ∧ info u !! "familyName" = Some (VStr family) ∧
               info u !! "styleName" = Some (VStr style_name))
         set_redundant_data (λ _, base_frame) (λ _ _, False).
Proof.
  intros u (Hframe & Hfam & Hsty).
  destruct (parse_style_attrs_codes style_name) as (w & g & wc & gc & Hp & Hw & Hg).
  unfold set_redundant_data.
  cbv [mbind M_bind gets get_info as_str lift set_info set_lib when modify mret M_ret].
  rewrite Hfam, Hsty. cbv [default from_option id]. rewrite Hp, Hw, Hg.
  destruct (str_in (lower style_name) _);
    destruct (nonempty g && negb (String.eqb g "Regular")), (nonempty w);
    by destruct u.
Qed.

Lemma frame_set_blue_values (info_accepts : string → value → bool)
    (zones : list (Z * Z)) :
  info_accepts "postscriptBlueValues"
    (VList (VInt <$> (blue_loop (sorted_zones zones) [] []).1)) = true →
  info_accepts "postscriptOtherBlues"
    (VList (VInt <$> (blue_loop (sorted_zones zones) [] []).2)) = true →
  triple base_frame (set_blue_values info_accepts zones) (λ _, base_frame) (λ _ _, False).
Proof.
  unfold set_blue_values. destruct (blue_loop _ _ _) as [blue other].
  intros Hblue Hother.
  eapply triple_bind; [by apply frame_assign_info|].
  intros ?. by apply frame_assign_info.
Qed.

Lemma frame_set_family_user_data (d : list (string * value)) :
  triple base_frame (set_family_user_data (VDict d)) (λ _, base_frame) (λ _ _, False).
Proof.
  unfold set_family_user_data. apply triple_for_each.
  intros [key val] _. apply frame_set_lib.
Qed.

Lemma frame_set_master_user_data (user_data : value) :
  triple base_frame (set_master_user_data user_data) (λ _, base_frame) (λ _ _, False).
Proof. apply frame_when, frame_set_lib. Qed.

Lemma frame_set_guidelines_global (l : layer) :
  Forall (λ g, is_Some (gl_position g)) (default [] (l_guideLines l)) →
  triple base_frame (set_guidelines None l true) (λ _, base_frame) (λ _ _, False).
Proof.
  intros Hpos. unfold set_guidelines.
  destruct (l_guideLines l) as [[|gl gls]|]; try (by apply triple_ret).
  destruct (new_guidelines_ok (gl :: gls) Hpos) as (new & Hnew & _).
  rewrite Hnew. apply (triple_bind _ _ _ (λ _, base_frame)); [by apply triple_lift|].
  intros new'. apply frame_set_info.
Qed.

Section base_frame_params.
Variable info_hasattr : string → bool.
Variable info_accepts : string → value → bool.

Lemma param_ready_rewrite (non_info : list string) (params : list (value * value)) :
  Forall (param_ready info_hasattr info_accepts non_info) params →
  Forall (λ p, ∃ nv, rewrite_custom_param p = Ok nv) params.
Proof.
  intros H. eapply Forall_impl; [exact H|].
  intros p (name & val & Hrw & _). by eexists.
Qed.

Lemma frame_set_custom_param (non_info : list string) (param : value * value) :
  (∃ nv, rewrite_custom_param param = Ok nv) →
  triple base_frame (set_custom_param info_hasattr non_info param)
         (λ _, base_frame) (λ _ _, False).
Proof.
  intros [[name val] Hrw]. unfold set_custom_param. rewrite Hrw.
  apply (triple_bind _ _ _ (λ _, base_frame)); [by apply triple_lift|].
  intros [name' val'].
  destruct (info_hasattr name' && negb (str_in name' non_info));
    [apply frame_set_info|apply frame_set_lib].
Qed.

Lemma frame_for_each_custom_param (non_info : list string)
    (parsed : list (value * value)) :
  Forall (λ p, ∃ nv, rewrite_custom_param p = Ok nv) parsed →
  triple base_frame (for_each parsed (set_custom_param info_hasattr non_info))
         (λ _, base_frame) (λ _ _, False).
Proof.
  intros Hok. apply triple_for_each. intros p Hp.
  apply frame_set_custom_param.
  by apply (proj1 (Forall_forall _ _) Hok).
Qed.

Lemma frame_set_custom_params_parsed (parsed : list (value * value))
    (misc_keys non_info : list string) :
  Forall (λ p, ∃ nv, rewrite_custom_param p = Ok nv) parsed →
  triple base_frame
         (set_custom_params info_hasattr (Some parsed) None misc_keys non_info)
         (λ _, base_frame) (λ _ _, False).
Proof.
  intros Hok u Hu. unfold set_custom_params.
  erewrite bind_ok; [|reflexivity].
  by apply (frame_for_each_custom_param non_info parsed Hok u).
Qed.

Lemma parse_custom_params_ready (non_info : list string) (data : gmap string value)
    (misc_keys : list string) (ps : list value) (nvs : list (value * value)) :
  NoDup misc_keys → "customParameters" ∉ misc_keys →
  params_ready info_hasattr info_accepts non_info data misc_keys ps nvs →
  ∃ params,
    parse_custom_params data misc_keys
    = (Ok params, (pop_misc misc_keys (params_popped ps data)).2) ∧
    Forall (param_ready info_hasattr info_accepts non_info) params.
Proof.
  intros Hnd Hnot (Hcp & Hps & Hok).
  destruct (pop_misc_spec misc_keys (params_popped ps data) Hnd) as [Hparams _].
  eexists. split; [|exact Hok].
  rewrite (parse_custom_params_loops data misc_keys ps nvs Hcp Hps), Hparams.
  rewrite (omap_lookup_ext data (params_popped ps data)); [done|].
  intros key Hkey. apply params_popped_lookup. by intros ->.
Qed.

Lemma frame_set_custom_params_data (data : gmap string value)
    (misc_keys non_info : list string) (ps : list value) (nvs : list (value * value)) :
  NoDup misc_keys → "customParameters" ∉ misc_keys →
  params_ready info_hasattr info_accepts non_info data misc_keys ps nvs →
  triple base_frame
         (set_custom_params info_hasattr None (Some data) misc_keys non_info)
         (λ _, base_frame) (λ _ _, False).
Proof.
  intros Hnd Hnot Hready u Hu.
  destruct (parse_custom_params_ready non_info data misc_keys ps nvs Hnd Hnot Hready)
    as (params & Hparse & Hok).
  unfold set_custom_params. cbn [default from_option id].
  erewrite bind_ok; [|by unfold lift; rewrite Hparse].
  by apply (frame_for_each_custom_param non_info params
              (param_ready_rewrite non_info params Hok) u).
Qed.
End base_frame_params.

(** *** One master *)

Lemma triple_pure_pre {S A} (φ : Prop) (P : S → Prop) (m : M S A)
    (Q : A → S → Prop) (E : exn → S → Prop) :
  (φ → triple P m Q E) → triple (λ s, φ ∧ P s) m Q E.
Proof. intros H s [Hφ Hs]. by apply H. Qed.

Lemma triple_on_ufo {A} (m0 : master) (F : font → Prop) (f : M font A)
    (Q : A → font → Prop) :
  triple F f Q (λ _ _, False) →
  triple (λ s : mstate, s.1 = m0 ∧ F s.2) (on_ufo f)
         (λ a s, s.1 = m0 ∧ Q a s.2) (λ _ _, False).
Proof.
  intros Hf [m u] [Hm Hu]. simpl in *. specialize (Hf u Hu).
  unfold on_ufo. simpl. by destruct (f u) as [[a|e] u'].
Qed.

Lemma triple_master_pop (m0 : master) (F : font → Prop) (key : string) (v : value) :
  m_data m0 !! key = Some v →
  triple (λ s : mstate, s.1 = m0 ∧ F s.2) (master_pop key)
         (λ a s, a = v ∧ s.1 = set_m_data (delete key) m0 ∧ F s.2) (λ _ _, False).
Proof.
  intros Hv [m u] [Hm Hu]. simpl in *. subst m.
  unfold master_pop. simpl. by rewrite Hv.
Qed.

Lemma triple_master_pop_default (m0 : master) (F : font → Prop) (key : string)
    (dflt : value) :
  triple (λ s : mstate, s.1 = m0 ∧ F s.2) (master_pop_default key dflt)
         (λ a s, a = default dflt (m_data m0 !! key) ∧
                 s.1 = set_m_data (delete key) m0 ∧ F s.2) (λ _ _, False).
Proof. intros [m u] [Hm Hu]. simpl in *. by subst m. Qed.

Lemma join_truthy_strings (parts : list value) :
  Forall (λ v, ∃ s, v = VStr s) parts → ∃ strs, join_truthy parts = Ok strs.
Proof.
  induction 1 as [|v parts [s ->] _ [strs IH]]; [by eexists|].
  cbn [join_truthy]. destruct (truthy (VStr s)); rewrite IH; by eexists.
Qed.

Lemma build_style_name_ok (data : gmap string value) (italic : bool) :
  str_or_absent (data !! "width") → str_or_absent (data !! "weight") →
  str_or_absent (data !! "custom") →
  ∃ style_name,
    build_style_name data "width" "weight" "custom" italic
    = (Ok style_name, delete "custom" (delete "weight" (delete "width" data))).
Proof.
  intros Hwidth Hweight Hcustom.
  unfold build_style_name, pop_default.
  rewrite (lookup_delete_ne data "width" "weight") by str_ne.
  rewrite !(lookup_delete_ne _ _ "custom") by str_ne.
  assert (∀ o dflt, str_or_absent o → ∃ s, default (VStr dflt) o = VStr s) as Hstr.
  { intros o dflt [->|[s ->]]; by eexists. }
  destruct (Hstr _ "" Hwidth) as [w ->].
  destruct (Hstr _ "Regular" Hweight) as [g ->].
  destruct (Hstr _ "" Hcustom) as [c ->].
  destruct (join_truthy_strings
              [VStr w;
               if (truthy (VStr (if italic then "Italic" else "")) || truthy (VStr w)
                   || truthy (VStr c)) && value_is_str (VStr g) "Regular"
               then VStr "" else VStr g;
               VStr c; VStr (if italic then "Italic" else "")]) as [strs Hjoin].
  { repeat constructor; try (by eexists).
    destruct (_ && _); by eexists. }
  rewrite Hjoin. by eexists.
Qed.

Lemma triple_master_build_style_name (m0 : master) (F : font → Prop) (italic : bool) :
  str_or_absent (m_data m0 !! "width") → str_or_absent (m_data m0 !! "weight") →
  str_or_absent (m_data m0 !! "custom") →
  triple (λ s : mstate, s.1 = m0 ∧ F s.2)
         (master_build_style_name "width" "weight" "custom" italic)
         (λ _ s, s.1 = set_m_data (λ data, delete "custom"
                                     (delete "weight" (delete "width" data))) m0 ∧
                 F s.2)
         (λ _ _, False).
Proof.
  intros Hwidth Hweight Hcustom [m u] [Hm Hu]. cbn [fst snd] in *. subst m.
  unfold master_build_style_name. cbn [fst snd].
  destruct (build_style_name_ok (m_data m0) italic Hwidth Hweight Hcustom)
    as [style_name ->].
  by destruct m0.
Qed.

Lemma triple_master_pop_zones (m0 : master) (F : font → Prop) :
  triple (λ s : mstate, s.1 = m0 ∧ F s.2) master_pop_zones
         (λ a s, a = default [] (m_alignmentZones m0) ∧
                 s.1 = Master None (m_guideLines m0) (m_data m0) ∧ F s.2)
         (λ _ _, False).
Proof. intros [m u] [Hm Hu]. simpl in *. by subst m. Qed.

Lemma accepted_if_truthy_default (info_accepts : string → value → bool)
    (name : string) (o : option value) :
  accepted_if_truthy info_accepts name o →
  truthy (default VNone o) = true → info_accepts name (default VNone o) = true.
Proof. intros Hacc. destruct o as [v|]; [by apply Hacc|done]. Qed.

Lemma triple_master_pop_misc (info_hasattr : string → bool)
    (info_accepts : string → value → bool) (non_info : list string)
    (m0 : master) (F : font → Prop) (misc_keys : list string)
    (ps : list value) (nvs : list (value * value)) :
  NoDup misc_keys → "customParameters" ∉ misc_keys →
  params_ready info_hasattr info_accepts non_info (m_data m0) misc_keys ps nvs →
  triple (λ s : mstate, s.1 = m0 ∧ F s.2) (master_pop_misc misc_keys)
         (λ _ s, s.1 = set_m_data (λ data, (pop_misc misc_keys
                                             (params_popped ps data)).2) m0 ∧ F s.2)
         (λ _ _, False).
Proof.
  intros Hnd Hnot Hready [m u] [Hm Hu]. simpl in *. subst m.
  destruct (parse_custom_params_ready _ _ _ _ _ _ _ Hnd Hnot Hready)
    as (params & Hparse & _).
  unfold set_m_data. by rewrite Hparse.
Qed.

Lemma triple_gets_master (m0 : master) (F : font → Prop) :
  triple (λ s : mstate, s.1 = m0 ∧ F s.2) (gets fst)
         (λ a s, a = m0 ∧ s.1 = m0 ∧ F s.2) (λ _ _, False).
Proof. by intros [m u] [Hm Hu]. Qed.

Lemma frame_set_family_name (info_accepts : string → value → bool) (v : value) :
  info_accepts "familyName" v = true →
  triple base_frame (assign_info info_accepts "familyName" v)
         (λ _ u, base_frame u ∧ info u !! "familyName" = Some v) (λ _ _, False).
Proof.
  intros Hv. unfold assign_info. rewrite Hv.
  apply triple_modify. intros [i lb gr k ly] Hu. split; [done|].
  simpl. by rewrite lookup_insert_eq.
Qed.

Lemma frame_set_style_name (info_accepts : string → value → bool) (family v : value) :
  info_accepts "styleName" v = true →
  triple (λ u, base_frame u ∧ info u !! "familyName" = Some family)
         (assign_info info_accepts "styleName" v)
         (λ _ u, base_frame u ∧ info u !! "familyName" = Some family ∧
                 info u !! "styleName" = Some v)
         (λ _ _, False).
Proof.
  intros Hv. unfold assign_info. rewrite Hv.
  apply triple_modify. intros [i lb gr k ly] [Hu Hfam]. split; [done|].
  simpl in *. rewrite lookup_insert_ne by str_ne. by rewrite lookup_insert_eq.
Qed.

Lemma frame_set_lib_entry (key : string) (v : value) :
  triple base_frame (set_lib key v)
         (λ _ u, base_frame u ∧ lib u !! key = Some v) (λ _ _, False).
Proof.
  apply triple_modify. intros [i lb gr k ly] Hu. split; [done|].
  simpl. by rewrite lookup_insert_eq.
Qed.

Lemma params_ready_ext (info_hasattr : string → bool)
    (info_accepts : string → value → bool) (non_info : list string)
    (data data' : gmap string value) (misc_keys : list string)
    (ps : list value) (nvs : list (value * value)) :
  data' !! "customParameters" = data !! "customParameters" →
  (∀ key, key ∈ misc_keys → data' !! key = data !! key) →
  params_ready info_hasattr info_accepts non_info data misc_keys ps nvs →
  params_ready info_hasattr info_accepts non_info data' misc_keys ps nvs.
Proof.
  intros Hcp Hmisc (H1 & H2 & H3). split_and!; [by rewrite Hcp|done|].
  by rewrite (omap_lookup_ext data data').
Qed.

Lemma triple_lift_ok {S A} (P : S → Prop) (a : A) :
  triple P (lift (Ok a)) (λ a' s, a' = a ∧ P s) (λ _ _, False).
Proof. by intros s Hs. Qed.

(** A step on the font that keeps a base font. *)
Ltac ufo_step lem :=
  eapply triple_bind; [apply triple_on_ufo; lem|intros ?].

(** The same, from a font that is known to satisfy [F]. *)
Ltac ufo_step_from F lem :=
  eapply triple_bind; [apply (triple_on_ufo _ F); lem|intros ?].

(** The entry of a key of the master that was not popped yet. *)
Ltac master_lookup H :=
  cbn [m_data set_m_data]; rewrite ?lookup_delete_ne by str_ne; exact H.

Ltac pop_step H :=
  eapply triple_bind;
  [eapply triple_master_pop; master_lookup H
  |intros ?; apply triple_pure_pre; intros ->].

Ltac pop_default_step :=
  eapply triple_bind;
  [apply triple_master_pop_default|intros ?; apply triple_pure_pre; intros ->].

Section load_master.
Variable info_hasattr : string → bool.
Variable info_accepts : string → value → bool.

Lemma load_master_triple (sh : shared) (family : string) (m : master)
    (master_id : value) :
  shared_ready info_hasattr info_accepts family sh →
  master_ready info_hasattr info_accepts m master_id →
  triple (λ s : mstate, s.1 = m ∧ base_frame s.2)
         (load_master info_hasattr info_accepts sh (VStr family))
         (λ a s, a = master_id ∧ base_frame s.2 ∧
                 lib s.2 !! fontMasterID_key = Some master_id)
         (λ _ _, False).
Proof.
  intros (Hdate & Hupm & Hvmaj & Hvmin & Hcopy & Hdes & Hdesu & Hman & Hmanu &
          [ud Hud] & Hshared & Hfamily & Hstyle)
    ((asc & Hasc & Hasc') & (cap & Hcap & Hcap') & (desc & Hdesc & Hdesc') &
     (xh & Hxh & Hxh') & Hhs & Hvs & Hangle & Hangle' & Hwidth & Hweight &
     Hcustom & [Hblue Hother] & Hgl & (ps & nvs & Hparams) & Hid & Hhash).
  unfold load_master.
  ufo_step ltac:(apply frame_assign_info; exact Hdate).
  ufo_step ltac:(apply frame_assign_info; exact Hupm).
  ufo_step ltac:(apply frame_assign_info; exact Hvmaj).
  ufo_step ltac:(apply frame_assign_info; exact Hvmin).
  ufo_step ltac:(apply frame_when_assign_info; exact Hcopy).
  ufo_step ltac:(apply frame_when_assign_info; exact Hdes).
  ufo_step ltac:(apply frame_when_assign_info; exact Hdesu).
  ufo_step ltac:(apply frame_when_assign_info; exact Hman).
  ufo_step ltac:(apply frame_when_assign_info; exact Hmanu).
  pop_step Hasc. ufo_step ltac:(apply frame_assign_info; exact Hasc').
  pop_step Hcap. ufo_step ltac:(apply frame_assign_info; exact Hcap').
  pop_step Hdesc. ufo_step ltac:(apply frame_assign_info; exact Hdesc').
  pop_step Hxh. ufo_step ltac:(apply frame_assign_info; exact Hxh').
  pop_default_step. pop_default_step. pop_default_step.
  cbn [m_data set_m_data]. rewrite !lookup_delete_ne by str_ne.
  assert (∃ z, default (VInt 0) (m_data m !! "italicAngle") = VInt z ∧
               (truthy (VInt (- z)) = true →
                info_accepts "italicAngle" (VInt (- z)) = true)) as (z & -> & Hz).
  { destruct Hangle as [Hnone|[z Hsome]].
    - exists 0. by rewrite Hnone.
    - exists z. rewrite Hsome. split; [done|]. intros Ht.
      apply Hangle'; [done|]. by intros ->. }
  cbn [value_neg].
  eapply triple_bind; [apply triple_lift_ok|intros ?; apply triple_pure_pre; intros ->].
  ufo_step ltac:(apply frame_when_assign_info;
                 exact (accepted_if_truthy_default _ _ _ Hhs)).
  ufo_step ltac:(apply frame_when_assign_info;
                 exact (accepted_if_truthy_default _ _ _ Hvs)).
  ufo_step ltac:(apply frame_when_assign_info; exact Hz).
  ufo_step ltac:(apply frame_set_family_name; exact Hfamily).
  eapply triple_bind;
    [apply (triple_master_build_style_name _
              (λ u, base_frame u ∧ info u !! "familyName" = Some (VStr family)));
     cbn [m_data set_m_data]; rewrite !lookup_delete_ne by str_ne; assumption
    |intros style_name].
  ufo_step_from (λ u, base_frame u ∧ info u !! "familyName" = Some (VStr family))
    ltac:(apply frame_set_style_name; apply Hstyle).
  ufo_step_from (λ u, base_frame u ∧ info u !! "familyName" = Some (VStr family) ∧
                      info u !! "styleName" = Some (VStr style_name))
    ltac:(apply frame_set_redundant_data).
  eapply triple_bind;
    [apply triple_master_pop_zones|intros ?; apply triple_pure_pre; intros ->].
  cbn [m_alignmentZones set_m_data].
  ufo_step ltac:(apply frame_set_blue_values; [exact Hblue|exact Hother]).
  rewrite Hud. ufo_step ltac:(apply frame_set_family_user_data).
  pop_default_step.
  ufo_step ltac:(apply frame_set_master_user_data).
  eapply triple_bind;
    [apply triple_gets_master|intros ?; apply triple_pure_pre; intros ->].
  ufo_step ltac:(apply frame_set_guidelines_global; exact Hgl).
  ufo_step ltac:(apply frame_set_custom_params_parsed;
                 exact (param_ready_rewrite _ _ _ _ Hshared)).
  eapply triple_bind;
    [apply triple_gets_master|intros ?; apply triple_pure_pre; intros ->].
  match goal with
  | |- triple (λ s, s.1 = ?M ∧ _) _ _ _ =>
      assert (params_ready info_hasattr info_accepts
                ["customValue"; "weightValue"; "widthValue"] (m_data M)
                ["customValue"; "weightValue"; "widthValue"] ps nvs) as Hparams';
      [|assert (m_data M !! "id" = Some master_id) as Hid']
  end.
  { apply (params_ready_ext _ _ _ (m_data m)); [| |exact Hparams].
    - cbn [m_data set_m_data]. by rewrite !lookup_delete_ne by str_ne.
    - intros key Hkey. cbn [m_data set_m_data].
      repeat (apply elem_of_cons in Hkey as [->|Hkey];
              [by rewrite !lookup_delete_ne by str_ne|]).
      by apply elem_of_nil in Hkey. }
  { cbn [m_data set_m_data]. by rewrite !lookup_delete_ne by str_ne. }
  eapply triple_bind;
    [eapply triple_master_pop_misc; [nodup_strings|not_in_strings|exact Hparams']
    |intros ?].
  ufo_step ltac:(eapply frame_set_custom_params_data;
                 [nodup_strings|not_in_strings|exact Hparams']).
  eapply triple_bind;
    [eapply triple_master_pop
    |intros ?; apply triple_pure_pre; intros ->].
  { cbn [m_data set_m_data] in *.
    assert (NoDup ["customValue"; "weightValue"; "widthValue"]) as Hnd
      by nodup_strings.
    rewrite (proj2 (pop_misc_spec ["customValue"; "weightValue"; "widthValue"] _ Hnd)).
    rewrite decide_False by not_in_strings.
    rewrite params_popped_lookup by str_ne. exact Hid'. }
  eapply triple_bind.
  { apply triple_on_ufo. apply (frame_set_lib_entry fontMasterID_key master_id). }
  intros ?. apply triple_ret. by intros s [_ Hs].
Qed.

Lemma load_master_ok (sh : shared) (family : string) (m : master) (master_id : value) :
  shared_ready info_hasattr info_accepts family sh →
  master_ready info_hasattr info_accepts m master_id →
  ∃ m' u,
    load_master info_hasattr info_accepts sh (VStr family) (m, empty_font)
    = (Ok master_id, (m', u)) ∧
    base_frame u ∧ lib u !! fontMasterID_key = Some master_id.
Proof.
  intros Hshared Hready.
  pose proof (load_master_triple sh family m master_id Hshared Hready
                (m, empty_font) (conj eq_refl (conj eq_refl (conj eq_refl eq_refl))))
    as H.
  destruct (load_master info_hasattr info_accepts sh (VStr family) (m, empty_font))
    as [[a|e] [m' u]]; [|done].
  destruct H as (-> & Hframe & Hlib). by exists m', u.
Qed.

Lemma load_masters_ok (sh : shared) (family : string) (masters : list master)
    (ids : list value) (ufos : list (value * font)) (master_id_order : list value) :
  shared_ready info_hasattr info_accepts family sh →
  Forall2 (master_ready info_hasattr info_accepts) masters ids →
  ∃ fonts masters',
    load_masters info_hasattr info_accepts sh (VStr family) masters ufos master_id_order
    = (Ok (fold_left (λ ufos '(master_id, ufo), dict_set ufos master_id ufo)
                     (zip ids fonts) ufos,
           master_id_order ++ ids), masters') ∧
    Forall2 (λ master_id ufo, lib ufo !! fontMasterID_key = Some master_id ∧
                              base_frame ufo) ids fonts.
Proof.
  intros Hshared Hready. revert ufos master_id_order.
  induction Hready as [|m master_id masters ids Hm _ IH]; intros ufos master_id_order.
  - exists [], []. simpl. by rewrite app_nil_r.
  - destruct (load_master_ok sh family m master_id Hshared Hm)
      as (m' & u & Hrun & Hframe & Hlib).
    destruct (IH (dict_set ufos master_id u) (master_id_order ++ [master_id]))
      as (fonts & masters' & Hrest & Hall).
    exists (u :: fonts), (m' :: masters').
    cbn [load_masters]. rewrite Hrun.
    assert (hashable master_id = true) as -> by apply Hm.
    rewrite Hrest. simpl. rewrite <-app_assoc. split; [done|].
    by constructor.
Qed.
End load_master.

(** *** All masters *)

Lemma stored_from_distinct (ids : list value) (fonts : list font)
    (ufos : list (value * font)) :
  distinct_keys ids = true →
  Forall (λ ku, Forall (λ k, key_eqb ku.1 k = false) ids) ufos →
  fold_left (λ ufos '(master_id, ufo), dict_set ufos master_id ufo) (zip ids fonts) ufos
  = ufos ++ zip ids fonts.
Proof.
  revert fonts ufos. induction ids as [|k ids IH]; intros fonts ufos Hd Hufos.
  - simpl. by rewrite app_nil_r.
  - destruct fonts as [|u fonts]; [simpl; by rewrite app_nil_r|].
    cbn [distinct_keys] in Hd. apply andb_true_iff in Hd as [Hk Hd].
    cbn [zip zip_with fold_left].
    assert (dict_set ufos k u = ufos ++ [(k, u)]) as ->.
    { clear -Hufos. induction Hufos as [|[k' u'] ufos Hk' _ IH]; [done|].
      cbn [dict_set]. inv Hk'. simpl in *.
      match goal with H : key_eqb k' k = false |- _ => rewrite H end.
      by rewrite IH. }
    rewrite IH; [by rewrite <-app_assoc|done|].
    apply Forall_app. split.
    + eapply Forall_impl; [exact Hufos|]. intros ku Hku. by inv Hku.
    + constructor; [|done]. simpl.
      apply Forall_forall. intros k' Hk'.
      rewrite forallb_forall in Hk.
      apply negb_true_iff, Hk. by apply list_elem_of_In.
Qed.

Section generate_base_fonts.
Variable info_hasattr : string → bool.
Variable info_accepts : string → value → bool.

Lemma accepted_if_truthy_popped (name key : string) (data popped : gmap string value) :
  popped !! key = data !! key →
  accepted_if_truthy info_accepts name (data !! key) →
  truthy (default VNone (popped !! key)) = true →
  info_accepts name (default VNone (popped !! key)) = true.
Proof. intros ->. apply accepted_if_truthy_default. Qed.

Lemma generate_base_fonts_ok (family : string) (data : source)
    (masters : list master) (ids : list value) :
  source_ready info_hasattr info_accepts family data masters ids →
  ∃ fonts data',
    generate_base_fonts info_hasattr info_accepts (VStr family) data
    = (Ok (stored ids fonts, ids), data') ∧
    Forall2 (λ master_id ufo, lib ufo !! fontMasterID_key = Some master_id ∧
                              base_frame ufo) ids fonts.
Proof.
  intros ((date & Hdate & _ & Hdate') & (upm & Hupm & Hupm') & (vmaj & Hvmaj & Hvmaj') &
          (vmin & Hvmin & Hvmin') & Hcopy & Hdes & Hdesu & Hman & Hmanu & Hud &
          (ps & nvs & Hparams) & Hfamily & Hstyle & Hmasters & Hready).
  destruct data as [sdate smasters sdata]. cbn [s_date s_fontMaster s_data] in *.
  subst sdate smasters.
  unfold generate_base_fonts.
  erewrite bind_ok; [|reflexivity].
  erewrite bind_ok; [|by unfold source_pop; cbn [s_data]; rewrite Hupm].
  erewrite bind_ok;
    [|by unfold source_pop; cbn [s_data]; rewrite lookup_delete_ne, Hvmaj by str_ne].
  erewrite bind_ok;
    [|by unfold source_pop; cbn [s_data]; rewrite !lookup_delete_ne, Hvmin by str_ne].
  do 6 (erewrite bind_ok; [|reflexivity]).
  cbn [s_data s_date s_fontMaster].
  set (popped := delete "manufacturerURL" _).
  assert (NoDup ["DisplayStrings"; "disablesAutomaticAlignment"; "disablesNiceNames"])
    as Hnd by nodup_strings.
  assert ("customParameters"
          ∉ ["DisplayStrings"; "disablesAutomaticAlignment"; "disablesNiceNames"])
    as Hnot by not_in_strings.
  assert (params_ready info_hasattr info_accepts [] popped
            ["DisplayStrings"; "disablesAutomaticAlignment"; "disablesNiceNames"] ps nvs)
    as Hparams'.
  { apply (params_ready_ext _ _ _ sdata); [| |exact Hparams]; unfold popped.
    - by rewrite !lookup_delete_ne by str_ne.
    - intros key Hkey.
      repeat (apply elem_of_cons in Hkey as [->|Hkey];
              [by rewrite !lookup_delete_ne by str_ne|]).
      by apply elem_of_nil in Hkey. }
  destruct (parse_custom_params_ready _ _ _ _ _ _ _ Hnd Hnot Hparams')
    as (params & Hparse & Hok).
  erewrite bind_ok;
    [|by cbv beta; cbn [s_data s_date s_fontMaster]; rewrite Hparse].
  cbv beta. cbn [s_fontMaster].
  match goal with
  | |- context [load_masters _ _ ?sh _ _ _ _] =>
      destruct (load_masters_ok info_hasattr info_accepts sh family masters ids [] [])
        as (fonts & masters' & Hrun & Hall)
  end.
  { unfold shared_ready.
    cbn [date_created units_per_em version_major version_minor user_data copyright
         designer designer_url manufacturer manufacturer_url custom_params].
    split_and!; try done.
    - apply (accepted_if_truthy_popped _ _ sdata); [|done].
      by rewrite !lookup_delete_ne by str_ne.
    - apply (accepted_if_truthy_popped _ _ sdata); [|done].
      by rewrite !lookup_delete_ne by str_ne.
    - apply (accepted_if_truthy_popped _ _ sdata); [|done].
      by rewrite !lookup_delete_ne by str_ne.
    - apply (accepted_if_truthy_popped _ _ sdata); [|done].
      by rewrite !lookup_delete_ne by str_ne.
    - apply (accepted_if_truthy_popped _ _ sdata); [|done].
      by rewrite !lookup_delete_ne by str_ne.
    - rewrite !lookup_delete_ne by str_ne.
      destruct Hud as [->|[d ->]]; by eexists. }
  { exact Hready. }
  exists fonts. eexists. rewrite Hrun. split; [reflexivity|exact Hall].
Qed.

(** [generate_base_fonts] returns one font for each master when the source
    has its date, its units per em and its version, when its masters have
    their four metrics and a hashable id, string style tokens, an integer
    italic angle, guidelines with positions and custom parameters that can
    be rewritten, and when the info object takes every value that the
    source gives for it: the date, the metrics, the stems, the italic
    angle, the names, the blue values computed from the alignment zones,
    and the custom parameters that belong to the info object.  The ids are
    returned in the order of the masters and the fonts are stored under
    them in that order, a font replacing an earlier one with an equal id;
    when the ids differ the dictionary has one entry for each master.  Each
    font records its master id in its lib and has no glyph, group or
    kerning. *)
Theorem generate_base_fonts_one_font_per_master (family : string) (data : source)
    (masters : list master) (ids : list value) :
  source_ready info_hasattr info_accepts family data masters ids →
  ∃ fonts data',
    generate_base_fonts info_hasattr info_accepts (VStr family) data
    = (Ok (stored ids fonts, ids), data') ∧
    Forall2 (λ master_id ufo, lib ufo !! fontMasterID_key = Some master_id ∧
                              base_frame ufo) ids fonts ∧
    (distinct_keys ids = true → stored ids fonts = zip ids fonts).
Proof.
  intros Hready.
  destruct (generate_base_fonts_ok family data masters ids Hready)
    as (fonts & data' & Hrun & Hall).
  exists fonts, data'. split_and!; [done..|].
  intros Hd. unfold stored. by rewrite stored_from_distinct.
Qed.
End generate_base_fonts.

Lemma sample_master_ready (master_id weight : string) :
  master_ready hhea_info_hasattr blues_info_accepts (sample_master master_id weight)
    (VStr master_id).
Proof.
  unfold master_ready, sample_master. cbn [m_data m_guideLines m_alignmentZones].
  split_and!; try (by eexists); try (by left); try (by right; eexists); try done.
  exists [], []. split; [by left|]. split; [apply Forall2_nil_2|].
  apply Forall_cons_2; [|apply Forall_nil_2].
  eexists _, _. split; [vm_compute; reflexivity|done].
Qed.

Lemma generate_base_fonts_one_font_per_master_witness :
  ∃ fonts data',
    generate_base_fonts hhea_info_hasattr blues_info_accepts (VStr "Noto Sans")
      sample_source
    = (Ok (zip [VStr "M1"; VStr "M2"] fonts, [VStr "M1"; VStr "M2"]), data') ∧
    Forall2 (λ master_id ufo, lib ufo !! fontMasterID_key = Some master_id ∧
                              base_frame ufo) [VStr "M1"; VStr "M2"] fonts.
Proof.
  destruct (generate_base_fonts_one_font_per_master hhea_info_hasattr
              blues_info_accepts "Noto Sans" sample_source
              [sample_master "M1" "Regular"; sample_master "M2" "Bold"]
              [VStr "M1"; VStr "M2"])
    as (fonts & data' & Hrun & Hall & Hstored).
  - unfold source_ready, sample_source. cbn [s_date s_data s_fontMaster].
    split_and!; try (by eexists); try (by left); try done.
    + eexists. split; [reflexivity|]. split; [|reflexivity].
      unfold datetime_ok. cbn [year month day hour minute second]. lia.
    + exists [VDict [("name", VStr "hheaAscender"); ("value", VInt 950)]],
             [(VStr "hheaAscender", VInt 950)].
      split; [by right|]. split.
      * apply Forall2_cons_2; [by eexists|apply Forall2_nil_2].
      * apply Forall_cons_2; [|apply Forall_nil_2].
        eexists _, _. split; [vm_compute; reflexivity|done].
    + apply Forall2_cons_2; [apply sample_master_ready|].
      apply Forall2_cons_2; [apply sample_master_ready|apply Forall2_nil_2].
  - exists fonts, data'. rewrite <-Hstored by reflexivity. by split.
Defined.

(** ** User data *)

Lemma set_family_user_data_run (d : list (string * value)) (u : font) :
  set_family_user_data (VDict d) u = (Ok tt, set_lib_map (store_entries d) u).
Proof.
  unfold set_family_user_data, store_entries. revert u.
  induction d as [|[k v] d IH]; intros u; [by destruct u|].
  cbn [for_each for_fold]. unfold for_each in IH.
  erewrite bind_ok; [|reflexivity]. rewrite IH. by destruct u.
Qed.

Lemma store_entries_lookup (d : list (string * value)) (lb : gmap string value)
    (key : string) (val : value) :
  NoDup d.*1 → (key, val) ∈ d → store_entries d lb !! key = Some val.
Proof.
  unfold store_entries. revert lb.
  induction d as [|[k v] d IH]; intros lb Hnd Hin; [by apply elem_of_nil in Hin|].
  cbn [fmap list_fmap fst] in Hnd. apply NoDup_cons in Hnd as [Hk Hnd].
  cbn [fold_left]. apply elem_of_cons in Hin as [[= -> ->]|Hin]; [|by apply IH].
  clear IH Hnd. revert lb. induction d as [|[k' v'] d IH]; intros lb.
  - apply lookup_insert_eq.
  - cbn [fold_left]. cbn [fmap list_fmap fst] in Hk.
    apply not_elem_of_cons in Hk as [Hne Hk].
    rewrite (insert_insert_ne lb k' k) by done. by apply IH.
Qed.

Lemma store_entries_lookup_other (d : list (string * value)) (lb : gmap string value)
    (key : string) :
  key ∉ d.*1 → store_entries d lb !! key = lb !! key.
Proof.
  unfold store_entries. revert lb.
  induction d as [|[k v] d IH]; intros lb Hk; [done|].
  cbn [fmap list_fmap fst] in Hk. apply not_elem_of_cons in Hk as [Hne Hk].
  cbn [fold_left]. rewrite IH by done. by rewrite lookup_insert_ne.
Qed.

(** [set_family_user_data] puts every entry of the family user data into
    the lib under its own key, without the Glyphs prefix, and touches no
    other entry of the lib and nothing else in the font; user data that is
    not a dictionary raises.  [set_master_user_data] stores the master user
    data as a whole under [com.schriftgestaltung.fontMaster.userData], and
    only when it is not empty. *)
Theorem user_data_placement (user_data : value) (u : font) :
  (∀ d, user_data = VDict d →
     ∃ u', set_family_user_data user_data u = (Ok tt, u') ∧
           info u' = info u ∧ groups u' = groups u ∧ kerning u' = kerning u ∧
           layers u' = layers u ∧
           (NoDup d.*1 → ∀ key val, (key, val) ∈ d → lib u' !! key = Some val) ∧
           (∀ key, key ∉ d.*1 → lib u' !! key = lib u !! key)) ∧
  ((∀ d, user_data ≠ VDict d) →
     set_family_user_data user_data u = (Raise AttributeError, u)) ∧
  set_master_user_data user_data u
  = (Ok tt, if truthy user_data
            then set_lib_map <[GLYPHS_PREFIX +:+ "fontMaster.userData" := user_data]> u
            else u).
Proof.
  split_and!.
  - intros d ->. eexists. split; [apply set_family_user_data_run|].
    destruct u as [i lb gr k ly]. cbn [info lib groups kerning layers set_lib_map].
    split_and!; try done.
    + intros Hnd key val Hin. by apply store_entries_lookup.
    + intros key Hkey. by apply store_entries_lookup_other.
  - intros Hnot. destruct user_data; try done. by destruct (Hnot d).
  - unfold set_master_user_data. by destruct (truthy user_data).
Qed.

Lemma user_data_placement_witness :
  ∃ u', set_family_user_data (VDict [("GSDimensionPlugin.Dimensions", VInt 1)])
          empty_font = (Ok tt, u') ∧
        lib u' !! "GSDimensionPlugin.Dimensions" = Some (VInt 1) ∧
        lib u' !! (GLYPHS_PREFIX +:+ "GSDimensionPlugin.Dimensions") = None.
Proof.
  destruct (proj1 (user_data_placement
                     (VDict [("GSDimensionPlugin.Dimensions", VInt 1)]) empty_font)
              [("GSDimensionPlugin.Dimensions", VInt 1)] eq_refl)
    as (u' & Hrun & _ & _ & _ & _ & Hin & Hother).
  exists u'. split; [exact Hrun|]. split.
  - apply Hin; [|in_list]. apply NoDup_singleton.
  - rewrite Hother; [reflexivity|].
    intros H. apply list_elem_of_singleton in H. revert H. str_ne.
Defined.

(** ** Metrics keys *)

Section lib_entry_invariant.
Variables (h : glyph_ref) (K : string) (v : option value).

Lemma entry_upd_glyph (h' : glyph_ref) (f : glyph_obj → glyph_obj) :
  (h' = h → ∀ g, g_lib (f g) !! K = g_lib g !! K) →
  preserves (lib_entry h K v) (upd_glyph h' f).
Proof.
  intros Hf u (g & Hg & Hv).
  change (lib_entry h K v (upd_glyph h' f u).2).
  unfold lib_entry. rewrite glyph_at_upd. case_decide as Hh; [|by eauto].
  rewrite Hg. simpl. exists (f g). by rewrite (Hf Hh g).
Qed.

Lemma entry_set_glyph_lib (h' : glyph_ref) (key : string) (val : value) :
  (h' = h → key ≠ K) → preserves (lib_entry h K v) (set_glyph_lib h' key val).
Proof.
  intros Hk. apply entry_upd_glyph. intros Hh g.
  simpl. by rewrite lookup_insert_ne by (by apply Hk).
Qed.

Lemma entry_on_pen {A} (h' : glyph_ref) (m : M (list pen_call) A) :
  preserves (lib_entry h K v) (on_pen h' m).
Proof.
  intros u Hu. unfold on_pen. destruct (m _) as [r calls].
  pose proof (entry_upd_glyph h' (with_pen calls) (λ _ g, eq_refl) u Hu) as H.
  simpl in H. by destruct r.
Qed.

Lemma entry_add_anchors (h' : glyph_ref) (anchors : list anchor) :
  preserves (lib_entry h K v) (add_anchors_to_glyph h' anchors).
Proof.
  apply preserves_for_each. intros [[[x y]|] [name|]];
    try (by apply triple_raise).
  by apply entry_upd_glyph.
Qed.

Lemma entry_set_guidelines (obj : option glyph_ref) (l : layer) (is_global : bool) :
  preserves (lib_entry h K v) (set_guidelines obj l is_global).
Proof.
  unfold set_guidelines. destruct (l_guideLines l) as [[|gl gls]|];
    try (by apply triple_ret).
  apply preserves_bind; [by apply preserves_pure|]. intros new.
  destruct is_global, obj as [h'|]; try (by apply triple_raise).
  - intros u (g & Hg & Hv).
    change (lib_entry h K v (set_info "guidelines" (VList new) u).2).
    exists g. by rewrite glyph_at_set_info.
  - by apply entry_upd_glyph.
Qed.

Hypothesis K_other : K ∉ other_glyph_lib_keys.

Lemma K_ne (key : string) : key ∈ other_glyph_lib_keys → key ≠ K.
Proof. intros Hin ->. by apply K_other. Qed.

Lemma preserves_lift_ok {S A B} (I : S → Prop) (a : A) (f : A → M S B) :
  preserves I (f a) → preserves I (lift (Ok a) ≫= f).
Proof. intros H s Hs. exact (H s Hs). Qed.

Lemma entry_set_components_attributes (h' : glyph_ref) (l : layer) :
  preserves (lib_entry h K v) (set_components_attributes h' l).
Proof.
  unfold set_components_attributes. simpl for_each.
  change (upper_first "disableAlignment") with (Ok "DisableAlignment" : result string).
  change (upper_first "locked") with (Ok "Locked" : result string).
  repeat (apply preserves_bind; [|intros ?]); try (by apply triple_ret);
    apply preserves_when, preserves_lift_ok, entry_set_glyph_lib;
    intros _; apply K_ne; in_list.
Qed.

Lemma entry_set_glyph_background (key : string) (bg : option layer) :
  preserves (lib_entry h K v) (set_glyph_background h key bg).
Proof.
  unfold set_glyph_background. destruct bg as [bg|]; [|by apply triple_ret].
  destruct (layer_is_empty bg); [by apply triple_ret|].
  pose proof (background_layer_name_ne h.1) as Hne.
  set (layer_name := if negb (String.eqb h.1 "public.default")
                     then h.1 +:+ ".background" else "public.background") in *.
  assert (Hh : (layer_name, h.2) = h → False).
  { intros Hh. apply Hne. by apply (f_equal fst) in Hh. }
  apply preserves_bind; [by apply preserves_pure|]. intros has_layer.
  apply preserves_bind.
  { apply preserves_when. intros u (g & Hg & Hv).
    change (lib_entry h K v (newLayer layer_name u).2).
    exists g. by rewrite glyph_at_newLayer. }
  intros _. apply preserves_bind.
  { intros u (g & Hg & Hv).
    change (lib_entry h K v (newGlyph (layer_name, h.2) u).2).
    exists g. by rewrite glyph_at_newGlyph. }
  intros _. apply preserves_bind; [by apply preserves_pure|]. intros glyph_width.
  apply preserves_bind; [by apply entry_upd_glyph|]. intros _.
  apply preserves_bind; [apply entry_on_pen|]. intros _.
  apply preserves_bind; [apply entry_on_pen|]. intros _.
  apply preserves_bind; [apply entry_add_anchors|]. intros _.
  apply preserves_bind; [apply entry_set_guidelines|]. intros _.
  unfold set_components_attributes. simpl for_each.
  change (upper_first "disableAlignment") with (Ok "DisableAlignment" : result string).
  change (upper_first "locked") with (Ok "Locked" : result string).
  repeat (apply preserves_bind; [|intros ?]); try (by apply triple_ret);
    apply preserves_when, preserves_lift_ok, entry_set_glyph_lib;
    intros Hh'; by destruct (Hh Hh').
Qed.

Lemma entry_load_glyph_libdata (l : layer) :
  preserves (lib_entry h K v) (load_glyph_libdata h l).
Proof.
  unfold load_glyph_libdata.
  apply preserves_bind; [apply entry_set_guidelines|]. intros _.
  apply preserves_bind; [apply entry_set_glyph_background|]. intros _.
  apply preserves_bind; [|intros _; apply entry_set_components_attributes].
  simpl for_each.
  repeat (apply preserves_bind; [|intros ?]); try (by apply triple_ret);
    (destruct (_ l); [|by apply triple_ret]);
    apply entry_set_glyph_lib; intros _; apply K_ne; in_list.
Qed.

Lemma entry_metadata (o : option value) (key : string) :
  key ∈ other_glyph_lib_keys →
  preserves (lib_entry h K v)
    (match o with
     | Some val => set_glyph_lib h key val
     | None => mret tt
     end).
Proof.
  intros Hkey. destruct o; [|by apply triple_ret].
  apply entry_set_glyph_lib. intros _. by apply K_ne.
Qed.

Lemma entry_set_width (l : layer) :
  preserves (lib_entry h K v)
    (match l_width l with
     | Some width => upd_glyph h (with_width width)
     | None => raise (KeyError "width")
     end).
Proof.
  destruct (l_width l); [by apply entry_upd_glyph|by apply triple_raise].
Qed.

(** The steps of [load_glyph] after the metrics keys. *)
Lemma entry_load_glyph_tail (l : layer) :
  preserves (lib_entry h K v)
    (match l_width l with
     | Some width => upd_glyph h (with_width width)
     | None => raise (KeyError "width")
     end;;
     load_glyph_libdata h l;;
     on_pen h (draw_paths (default [] (l_paths l)));;
     on_pen h (draw_components (default [] (l_components l)));;
     add_anchors_to_glyph h (default [] (l_anchors l))).
Proof.
  apply preserves_bind; [apply entry_set_width|intros _].
  apply preserves_bind; [apply entry_load_glyph_libdata|intros _].
  apply preserves_bind; [apply entry_on_pen|intros _].
  apply preserves_bind; [apply entry_on_pen|intros _].
  apply entry_add_anchors.
Qed.
End lib_entry_invariant.

Lemma entry_upd_glyph_E (h : glyph_ref) (K : string) (v : option value)
    (f : glyph_obj → glyph_obj) E :
  (∀ g, g_lib (f g) !! K = g_lib g !! K) →
  triple (lib_entry h K v) (upd_glyph h f) (λ _, lib_entry h K v) E.
Proof. intros Hf u Hu. exact (entry_upd_glyph h K v h f (λ _, Hf) u Hu). Qed.

Lemma entry_opt_E {A} (h : glyph_ref) (K : string) (v : option value)
    (o : option A) (f : A → glyph_obj → glyph_obj) E :
  (∀ a g, g_lib (f a g) !! K = g_lib g !! K) →
  triple (lib_entry h K v)
         (match o with Some a => upd_glyph h (f a) | None => mret tt end)
         (λ _, lib_entry h K v) E.
Proof.
  intros Hf. destruct o; [by apply entry_upd_glyph_E|by apply triple_ret].
Qed.

Lemma entry_write (h : glyph_ref) (K : string) (v : option value) (k : value) E :
  triple (lib_entry h K v) (when (truthy k) (set_glyph_lib h K k))
         (λ _, lib_entry h K (if truthy k then Some k else v)) E.
Proof.
  destruct (truthy k); [|by apply triple_ret].
  intros u (g & Hg & Hv).
  change (lib_entry h K (Some k) (upd_glyph h (with_lib <[K := k]>) u).2).
  unfold lib_entry. rewrite glyph_at_upd, decide_True, Hg by done.
  eexists. split; [done|]. simpl. by rewrite lookup_insert_eq.
Qed.

Lemma entry_skip (h : glyph_ref) (K K' : string) (v : option value) (k : value) E :
  K' ≠ K →
  triple (lib_entry h K v) (when (truthy k) (set_glyph_lib h K' k))
         (λ _, lib_entry h K v) E.
Proof.
  intros Hne. destruct (truthy k); [|by apply triple_ret].
  apply entry_upd_glyph_E. intros g. simpl. by rewrite lookup_insert_ne.
Qed.

Lemma entry_color (h : glyph_ref) (K : string) (v : option value)
    (color : option Z) E :
  (∀ c, color = Some c → c < 12) →
  K ≠ glyphlib_prefix +:+ "ColorIndex" → K ≠ PUBLIC_PREFIX +:+ "markColor" →
  triple (lib_entry h K v)
    (match color with
     | Some color_index =>
         when (color_index >=? 0)
           (set_glyph_lib h (glyphlib_prefix +:+ "ColorIndex") (VInt color_index);;
            match GLYPHS_COLORS !! Z.to_nat color_index with
            | Some color => set_glyph_lib h (PUBLIC_PREFIX +:+ "markColor") (VStr color)
            | None => raise IndexError
            end)
     | None => mret tt
     end)
    (λ _, lib_entry h K v) E.
Proof.
  intros Hc Hk1 Hk2. destruct color as [c|]; [|by apply triple_ret].
  specialize (Hc c eq_refl).
  destruct (c >=? 0) eqn:Hge; [|by apply triple_ret]. simpl when.
  destruct (lookup_lt_is_Some_2 GLYPHS_COLORS (Z.to_nat c)) as [color ->];
    [simpl; lia|].
  eapply triple_bind.
  - apply entry_upd_glyph_E. intros g. simpl. by rewrite lookup_insert_ne.
  - intros ?. apply entry_upd_glyph_E. intros g. simpl. by rewrite lookup_insert_ne.
Qed.

(** The steps of [load_glyph] before the metrics keys. *)
Ltac entry_prefix Hc :=
  eapply triple_bind; [by apply entry_opt_E|intros ?];
  eapply triple_bind; [by apply entry_opt_E|intros ?];
  eapply triple_bind;
    [apply (entry_opt_E _ _ _ _ (λ t, with_lib _)); intros t g; simpl;
     by rewrite lookup_insert_ne by str_ne|intros ?];
  eapply triple_bind;
    [apply entry_color; [exact Hc|str_ne|str_ne]|intros ?];
  eapply triple_bind;
    [apply (entry_opt_E _ _ _ _ (λ t, with_lib _)); intros t g; simpl;
     by rewrite lookup_insert_ne by str_ne|intros ?];
  eapply triple_bind;
    [apply (entry_opt_E _ _ _ _ (λ t, with_lib _)); intros t g; simpl;
     by rewrite lookup_insert_ne by str_ne|intros ?];
  simpl for_each.

Section metrics_keys.
Variables (h : glyph_ref) (l : layer) (gd : glyph_metadata) (old : option value).
Hypothesis Hc : ∀ c, gd_color gd = Some c → c < 12.

Lemma load_glyph_left_metrics_key :
  let k := metrics_key_of (l_leftMetricsKey l) (gd_leftMetricsKey gd) in
  triple (lib_entry h (glyphlib_prefix +:+ "leftMetricsKey") old) (load_glyph h l gd)
         (λ _, lib_entry h (glyphlib_prefix +:+ "leftMetricsKey")
                 (if truthy k then Some k else old))
         (λ _, lib_entry h (glyphlib_prefix +:+ "leftMetricsKey")
                 (if truthy k then Some k else old)).
Proof.
  intros k. unfold load_glyph. entry_prefix Hc.
  eapply (triple_bind _ _ _
            (λ _, lib_entry h (glyphlib_prefix +:+ "leftMetricsKey")
                    (if truthy k then Some k else old))).
  { eapply triple_bind; [apply entry_write|intros ?].
    eapply triple_bind; [apply entry_skip; str_ne|intros ?].
    eapply triple_bind; [apply entry_skip; str_ne|intros ?].
    apply triple_ret. by intros. }
  intros ?. apply entry_load_glyph_tail. not_in_strings.
Qed.

Lemma load_glyph_right_metrics_key :
  let k := metrics_key_of (l_rightMetricsKey l) (gd_rightMetricsKey gd) in
  triple (lib_entry h (glyphlib_prefix +:+ "rightMetricsKey") old) (load_glyph h l gd)
         (λ _, lib_entry h (glyphlib_prefix +:+ "rightMetricsKey")
                 (if truthy k then Some k else old))
         (λ _, lib_entry h (glyphlib_prefix +:+ "rightMetricsKey")
                 (if truthy k then Some k else old)).
Proof.
  intros k. unfold load_glyph. entry_prefix Hc.
  eapply (triple_bind _ _ _
            (λ _, lib_entry h (glyphlib_prefix +:+ "rightMetricsKey")
                    (if truthy k then Some k else old))).
  { eapply triple_bind; [apply entry_skip; str_ne|intros ?].
    eapply triple_bind; [apply entry_write|intros ?].
    eapply triple_bind; [apply entry_skip; str_ne|intros ?].
    apply triple_ret. by intros. }
  intros ?. apply entry_load_glyph_tail. not_in_strings.
Qed.

Lemma load_glyph_width_metrics_key :
  let k := metrics_key_of (l_widthMetricsKey l) (gd_widthMetricsKey gd) in
  triple (lib_entry h (glyphlib_prefix +:+ "widthMetricsKey") old) (load_glyph h l gd)
         (λ _, lib_entry h (glyphlib_prefix +:+ "widthMetricsKey")
                 (if truthy k then Some k else old))
         (λ _, lib_entry h (glyphlib_prefix +:+ "widthMetricsKey")
                 (if truthy k then Some k else old)).
Proof.
  intros k. unfold load_glyph. entry_prefix Hc.
  eapply (triple_bind _ _ _
            (λ _, lib_entry h (glyphlib_prefix +:+ "widthMetricsKey")
                    (if truthy k then Some k else old))).
  { eapply triple_bind; [apply entry_skip; str_ne|intros ?].
    eapply triple_bind; [apply entry_skip; str_ne|intros ?].
    eapply triple_bind; [apply entry_write|intros ?].
    apply triple_ret. by intros. }
  intros ?. apply entry_load_glyph_tail. not_in_strings.
Qed.
End metrics_keys.

Lemma triple_final {S A} (P : S → Prop) (m : M S A) (Q : S → Prop) (s : S) :
  triple P m (λ _, Q) (λ _, Q) → P s → Q (m s).2.
Proof. intros H Hs. specialize (H s Hs). by destruct (m s) as [[a|e] s']. Qed.

(** [load_glyph], for a glyph of the font and a color index below 12 if
    there is one, records the three metrics keys in the lib of the glyph
    under [com.schriftgestaltung.Glyphs.]: the key of the layer where the
    layer has the entry, else the key of the glyph data.  A key that is
    empty is not recorded and the entry stays as it was; so an empty key in
    the layer hides the key of the glyph data.  The entries are there also
    when [load_glyph] raises at a later step. *)
Theorem load_glyph_metrics_keys (h : glyph_ref) (l : layer) (gd : glyph_metadata)
    (u : font) (g : glyph_obj) :
  glyph_at h u = Some g →
  (∀ c, gd_color gd = Some c → c < 12) →
  ∃ g', glyph_at h (load_glyph h l gd u).2 = Some g' ∧
        ∀ key k, (key, k) ∈ metrics_keys l gd →
          g_lib g' !! (glyphlib_prefix +:+ key)
          = if truthy k then Some k else g_lib g !! (glyphlib_prefix +:+ key).
Proof.
  intros Hg Hc.
  destruct (triple_final _ _ _ u
              (load_glyph_left_metrics_key h l gd
                 (g_lib g !! (glyphlib_prefix +:+ "leftMetricsKey")) Hc))
    as (g' & Hg' & Hleft); [by exists g|].
  destruct (triple_final _ _ _ u
              (load_glyph_right_metrics_key h l gd
                 (g_lib g !! (glyphlib_prefix +:+ "rightMetricsKey")) Hc))
    as (g2 & Hg2 & Hright); [by exists g|].
  destruct (triple_final _ _ _ u
              (load_glyph_width_metrics_key h l gd
                 (g_lib g !! (glyphlib_prefix +:+ "widthMetricsKey")) Hc))
    as (g3 & Hg3 & Hwidth); [by exists g|].
  assert (g2 = g') as -> by congruence. assert (g3 = g') as -> by congruence.
  exists g'. split; [done|]. intros key k Hin. unfold metrics_keys in Hin.
  apply elem_of_cons in Hin as [Heq|Hin];
    [apply pair_eq in Heq as [-> ->]; exact Hleft|].
  apply elem_of_cons in Hin as [Heq|Hin];
    [apply pair_eq in Heq as [-> ->]; exact Hright|].
  apply elem_of_cons in Hin as [Heq|Hin];
    [apply pair_eq in Heq as [-> ->]; exact Hwidth|].
  by apply elem_of_nil in Hin.
Qed.

Lemma load_glyph_metrics_keys_witness :
  ∃ g', glyph_at sample_glyph
          (load_glyph sample_glyph layer_with_empty_metrics_key
             metadata_with_metrics_keys sample_glyph_font).2 = Some g' ∧
        g_lib g' !! (glyphlib_prefix +:+ "leftMetricsKey") = None ∧
        g_lib g' !! (glyphlib_prefix +:+ "rightMetricsKey") = Some (VStr "=H").
Proof.
  destruct (load_glyph_metrics_keys sample_glyph layer_with_empty_metrics_key
              metadata_with_metrics_keys sample_glyph_font empty_glyph)
    as (g' & Hg' & Hkeys).
  - vm_compute. reflexivity.
  - intros c Hcol. discriminate Hcol.
  - exists g'. split; [exact Hg'|]. split.
    + apply (Hkeys "leftMetricsKey" (VStr "")). in_list.
    + apply (Hkeys "rightMetricsKey" (VStr "=H")). in_list.
Defined.
